(** * Shared-card ownership and challenge completion of the flashcard app

    A shallow embedding of the data-access layer of the application
    ([app/firebase/firestore.js] and the friend-request handler of
    [app/(tabs)/profile.tsx]) over an explicit model of the Firestore
    collections it reads and writes, followed by the properties of the
    specification stated against it, and by properties of the
    operations on challenges, topics and cards that the specification
    leaves aside. *)

From Stdlib Require Import ZArith String Ascii List Bool Lia Sorted.
From stdpp Require Import base option gmap strings list fin_maps.

Local Open Scope Z_scope.
Local Open Scope string_scope.

(** ** Strings

    A string is a sequence of 8-bit code units, read as the Latin-1 range
    of the UTF-16 code units of a JavaScript string. *)

Module JsString.

(** [String.prototype.toLowerCase] on one code unit: A-Z, and the
    capital letters U+00C0..U+00DE except the multiplication sign. *)
Definition lowerCodeUnit (c : ascii) : ascii :=
  let n := nat_of_ascii c in
  if ((65 <=? n) && (n <=? 90))%nat then ascii_of_nat (n + 32)
  else if ((192 <=? n) && (n <=? 222) && negb (n =? 215))%nat
       then ascii_of_nat (n + 32)
       else c.

Fixpoint toLowerCase (s : string) : string :=
  match s with
  | EmptyString => EmptyString
  | String c r => String (lowerCodeUnit c) (toLowerCase r)
  end.

(** White space and line terminators stripped by [String.prototype.trim]:
    TAB, LF, VT, FF, CR, SPACE and NBSP. *)
Definition isWhiteSpace (c : ascii) : bool :=
  let n := nat_of_ascii c in
  (((9 <=? n) && (n <=? 13)) || (n =? 32) || (n =? 160))%nat.

Fixpoint trimStart (s : string) : string :=
  match s with
  | EmptyString => EmptyString
  | String c r => if isWhiteSpace c then trimStart r else s
  end.

Fixpoint trimEnd (s : string) : string :=
  match s with
  | EmptyString => EmptyString
  | String c r =>
      match trimEnd r with
      | EmptyString => if isWhiteSpace c then EmptyString else String c EmptyString
      | r' => String c r'
      end
  end.

Definition trim (s : string) : string := trimEnd (trimStart s).

(** [a || b] on strings: the empty string is falsy. *)
Definition orElse (a b : string) : string :=
  match a with EmptyString => b | _ => a end.

(** [if (s) ...] keeps a string field only when it is non-empty. *)
Definition truthy (s : string) : option string :=
  match s with EmptyString => None | _ => Some s end.

End JsString.

(** ** Documents *)

(** Field values of the card documents, which are patched with
    caller-supplied objects and therefore kept as field maps. *)
Inductive Value :=
| VStr (s : string)
| VNum (n : Z)
| VTime (t : Z)
| VBool (b : bool)
| VNull.

#[global] Instance Value_eq_dec : EqDecision Value.
Proof. solve_decision. Defined.

(** A card document, a shared-card document or a [myCards] reference. *)
Abbreviation Doc := (gmap string Value).

Inductive RecipientStatus := pending | completed | rejected.

#[global] Instance RecipientStatus_eq_dec : EqDecision RecipientStatus.
Proof. solve_decision. Defined.

(** One entry of [challenge.recipients]. *)
Record Recipient := {
  r_userId : string;
  r_status : RecipientStatus;
  r_score : option Z;
  r_userAnswer : option string;
  r_completedAt : option Z;
  r_notified : bool
}.

(** The card snapshot embedded in a challenge by [sendChallenge]. *)
Record ChallengeCard := {
  cc_id : string;
  cc_vocabulary : string;
  cc_definition : string;
  cc_sentence : string;
  cc_imageUrl : string;
  cc_pronunciation : string;
  cc_topicId : string;
  cc_topicName : string;
  cc_createdAt : Z
}.

Record Challenge := {
  ch_senderId : string;
  ch_senderName : string;
  ch_card : ChallengeCard;
  ch_recipients : list Recipient;
  ch_createdAt : Z;
  ch_expiresAt : Z;
  ch_updatedAt : option Z
}.

(** The [card] object of a completed-challenge document: optional fields
    are present only when truthy in the challenge. *)
Record CompletedCard := {
  k_vocabulary : string;
  k_definition : string;
  k_imageUrl : option string;
  k_topicName : option string;
  k_sentence : option string;
  k_pronunciation : option string
}.

(** A document of [users/{uid}/completedChallenges]. *)
Record CompletedChallenge := {
  cd_id : string;
  cd_challengeId : string;
  cd_senderName : string;
  cd_senderId : string;
  cd_card : CompletedCard;
  cd_userAnswer : string;
  cd_userScore : Z;
  cd_isCorrect : bool;
  cd_completedAt : Z;
  cd_createdAt : Z
}.

(** A document of [users]. Array fields and [totalXP] may be absent;
    [totalXP] is held as an [integerValue]. *)
Record UserDoc := {
  u_email : string;
  u_displayName : string;
  u_totalXP : option Z;
  u_pendingChallenges : option (list string);
  u_completedChallenges : option (list string);
  u_friends : option (list string);
  u_createdAt : option Z;
  u_updatedAt : option Z
}.

Inductive RequestStatus := req_pending | req_accepted | req_rejected.

#[global] Instance RequestStatus_eq_dec : EqDecision RequestStatus.
Proof. solve_decision. Defined.

(** A document of [friendRequests]. *)
Record FriendRequest := {
  fr_fromUserId : string;
  fr_fromDisplayName : string;
  fr_fromEmail : string;
  fr_toUserId : string;
  fr_toDisplayName : string;
  fr_toEmail : string;
  fr_status : RequestStatus;
  fr_createdAt : Z
}.

(** ** The store: one finite map per collection, keyed by document id;
    the per-user subcollections are keyed by user id first. *)
Record Store := {
  cards : gmap string Doc;
  sharedCards : gmap string Doc;
  myCards : gmap string (gmap string Doc);
  challenges : gmap string Challenge;
  completedChallenges : gmap string (gmap string CompletedChallenge);
  users : gmap string UserDoc;
  friendRequests : gmap string FriendRequest
}.

Definition emptyStore : Store :=
  {| cards := ∅; sharedCards := ∅; myCards := ∅; challenges := ∅;
     completedChallenges := ∅; users := ∅; friendRequests := ∅ |}.

Definition set_cards (f : gmap string Doc → gmap string Doc) (s : Store) : Store :=
  {| cards := f (cards s); sharedCards := sharedCards s; myCards := myCards s;
     challenges := challenges s; completedChallenges := completedChallenges s;
     users := users s; friendRequests := friendRequests s |}.

Definition set_sharedCards (f : gmap string Doc → gmap string Doc) (s : Store) : Store :=
  {| cards := cards s; sharedCards := f (sharedCards s); myCards := myCards s;
     challenges := challenges s; completedChallenges := completedChallenges s;
     users := users s; friendRequests := friendRequests s |}.

Definition set_challenges (f : gmap string Challenge → gmap string Challenge)
    (s : Store) : Store :=
  {| cards := cards s; sharedCards := sharedCards s; myCards := myCards s;
     challenges := f (challenges s); completedChallenges := completedChallenges s;
     users := users s; friendRequests := friendRequests s |}.

Definition set_completedChallenges
    (f : gmap string (gmap string CompletedChallenge) →
         gmap string (gmap string CompletedChallenge))
    (s : Store) : Store :=
  {| cards := cards s; sharedCards := sharedCards s; myCards := myCards s;
     challenges := challenges s; completedChallenges := f (completedChallenges s);
     users := users s; friendRequests := friendRequests s |}.

Definition set_users (f : gmap string UserDoc → gmap string UserDoc) (s : Store) : Store :=
  {| cards := cards s; sharedCards := sharedCards s; myCards := myCards s;
     challenges := challenges s; completedChallenges := completedChallenges s;
     users := f (users s); friendRequests := friendRequests s |}.

Definition set_friendRequests
    (f : gmap string FriendRequest → gmap string FriendRequest) (s : Store) : Store :=
  {| cards := cards s; sharedCards := sharedCards s; myCards := myCards s;
     challenges := challenges s; completedChallenges := completedChallenges s;
     users := users s; friendRequests := f (friendRequests s) |}.

(** ** Environment of a call *)

(** [auth.currentUser]. *)
Record AuthUser := {
  uid : string;
  au_email : string;
  au_displayName : string
}.

(** What a call reads from outside the store: the signed-in user, the
    client clock ([new Date()]), the server clock ([serverTimestamp()])
    and the identifier Firestore draws for the document the call creates
    ([addDoc], [doc(collection(...))]). *)
Record Env := {
  currentUser : option AuthUser;
  dateNow : Z;
  serverTime : Z;
  autoId : string
}.

(** ** Errors and the monad of store operations *)

(** The [Error]s thrown by the modelled functions, one per message. *)
Inductive Error :=
| NotAuthenticated      (* 'User must be authenticated to perform this action' *)
| ChallengeNotFound     (* 'Challenge not found' *)
| CardNotFound          (* 'Card not found' *)
| AccessDenied          (* 'Access denied: This card belongs to another user' *)
| NotSharedRecipient    (* 'You can only edit cards shared with you' *)
| RecipientNotFound.    (* 'Recipient not found' *)

(** The error kinds of the specification (section 7) and the kind each
    thrown message falls under. *)
Inductive ErrorKind := AuthenticationError | AuthorizationError | NotFoundError.

Definition errorKind (e : Error) : ErrorKind :=
  match e with
  | NotAuthenticated => AuthenticationError
  | ChallengeNotFound | CardNotFound | RecipientNotFound => NotFoundError
  | AccessDenied | NotSharedRecipient => AuthorizationError
  end.

(** An [async] function either returns or throws; the writes made before
    a throw stay in the store. *)
Inductive Outcome (A : Type) :=
| Returned (a : A) (s : Store)
| Thrown (e : Error) (s : Store).
Arguments Returned {A} a s.
Arguments Thrown {A} e s.

Definition Op (A : Type) : Type := Store → Outcome A.

Definition finalStore {A} (o : Outcome A) : Store :=
  match o with Returned _ s | Thrown _ s => s end.

#[global] Instance Op_ret : MRet Op := λ A a s, Returned a s.
#[global] Instance Op_bind : MBind Op := λ A B k m s,
  match m s with
  | Returned a s' => k a s'
  | Thrown e s' => Thrown e s'
  end.

Definition throw {A} (e : Error) : Op A := λ s, Thrown e s.

(** [try { m } catch (error) { h }] *)
Definition tryCatch {A} (m : Op A) (h : Error → Op A) : Op A := λ s,
  match m s with
  | Returned a s' => Returned a s'
  | Thrown e s' => h e s'
  end.

Definition gets {A} (f : Store → A) : Op A := λ s, Returned (f s) s.
Definition modify (f : Store → Store) : Op unit := λ s, Returned tt (f s).

(** [getCurrentUserId()] *)
Definition getCurrentUserId (env : Env) : Op string :=
  match currentUser env with
  | None => throw NotAuthenticated
  | Some user => mret (uid user)
  end.

(** ** Numbers

    A JavaScript number is a binary64 double; Firestore stores a whole
    number that JavaScript holds exactly as a 64-bit [integerValue] and
    hands it back as the nearest double.  The amounts and totals of the
    XP ledger are such whole numbers. *)

(** [Number.MAX_SAFE_INTEGER] *)
Definition maxSafeInteger : Z := 2 ^ 53 - 1.

(** [Number.isSafeInteger] on a whole number: the numbers the SDK writes
    as an [integerValue]. *)
Definition isSafeInteger (n : Z) : Prop := (- maxSafeInteger ≤ n ≤ maxSafeInteger)%Z.

Definition minInt64 : Z := - 2 ^ 63.
Definition maxInt64 : Z := 2 ^ 63 - 1.

(** The range of an [integerValue]. *)
Definition isInt64 (n : Z) : Prop := (minInt64 ≤ n ≤ maxInt64)%Z.

(** An integer sum outside that range is resolved to its nearest end. *)
Definition saturate (n : Z) : Z := Z.max minInt64 (Z.min maxInt64 n).

(** The multiple of [unit] nearest to [a], counted in units; a tie goes
    to the even count. *)
Definition nearestEven (unit a : Z) : Z :=
  let q := a / unit in
  let r := a mod unit in
  if (2 * r <? unit)%Z then q
  else if (unit <? 2 * r)%Z then q + 1
  else if Z.even q then q else q + 1.

(** The double nearest to a whole number, as the whole number it is:
    below [2 ^ 53] in magnitude every whole number is a double, above it
    the doubles of magnitude [2 ^ e .. 2 ^ (e + 1)] lie [2 ^ (e - 52)]
    apart. *)
Definition binary64 (n : Z) : Z :=
  let a := Z.abs n in
  if (a <? 2 ^ 53)%Z then n
  else
    let unit := 2 ^ (Z.log2 a - 52) in
    Z.sgn n * (nearestEven unit a * unit).

(** ** Firestore field transforms *)

(** [increment(n)] with an [integerValue] operand on a field that may be
    absent: an absent field is set to [n], an [integerValue] is added to
    within the 64-bit range. *)
Definition increment (n : Z) (field : option Z) : option Z :=
  Some (match field with
        | Some x => saturate (x + n)
        | None => n
        end).

(** [arrayRemove(x)]: every occurrence of [x] goes. *)
Definition arrayRemove (x : string) (field : option (list string)) : option (list string) :=
  Some (filter (λ y, y ≠ x) (default [] field)).

(** [arrayUnion(x)]: [x] is appended unless already present. *)
Definition arrayUnion (x : string) (field : option (list string)) : option (list string) :=
  let l := default [] field in
  Some (if decide (x ∈ l) then l else (l ++ [x])%list).

(** ** Challenge engine ([firestore.js], [completeChallenge] and
    [rejectChallenge]) *)

(** What [completeChallenge] returns. *)
Record GradeResult := {
  isCorrect : bool;
  score : Z;
  correctAnswer : string
}.

(** The callback of [challengeData.recipients.map] in [completeChallenge]:
    [{...recipient, status: 'completed', score, userAnswer, completedAt}]
    for the caller's entries, the entry itself for the others. *)
Definition markCompleted (userId : string) (score : Z) (userAnswer : string)
    (currentTime : Z) (recipient : Recipient) : Recipient :=
  if decide (r_userId recipient = userId) then
    {| r_userId := r_userId recipient;
       r_status := completed;
       r_score := Some score;
       r_userAnswer := Some userAnswer;
       r_completedAt := Some currentTime;
       r_notified := r_notified recipient |}
  else recipient.

(** The callback of [challengeData.recipients.map] in [rejectChallenge]:
    [{...recipient, status: 'rejected', completedAt}]. *)
Definition markRejected (userId : string) (currentTime : Z)
    (recipient : Recipient) : Recipient :=
  if decide (r_userId recipient = userId) then
    {| r_userId := r_userId recipient;
       r_status := rejected;
       r_score := r_score recipient;
       r_userAnswer := r_userAnswer recipient;
       r_completedAt := Some currentTime;
       r_notified := r_notified recipient |}
  else recipient.

(** [updateDoc(challengeRef, { recipients, updatedAt: serverTimestamp() })] *)
Definition updateRecipients (recipients : list Recipient) (t : Z)
    (c : Challenge) : Challenge :=
  {| ch_senderId := ch_senderId c;
     ch_senderName := ch_senderName c;
     ch_card := ch_card c;
     ch_recipients := recipients;
     ch_createdAt := ch_createdAt c;
     ch_expiresAt := ch_expiresAt c;
     ch_updatedAt := Some t |}.

(** The [cardData] object built for the completed-challenge document. *)
Definition completedCardOf (card : ChallengeCard) : CompletedCard :=
  {| k_vocabulary := cc_vocabulary card;
     k_definition := cc_definition card;
     k_imageUrl := JsString.truthy (cc_imageUrl card);
     k_topicName := JsString.truthy (cc_topicName card);
     k_sentence := JsString.truthy (cc_sentence card);
     k_pronunciation := JsString.truthy (cc_pronunciation card) |}.

(** [updateDoc(userRef, { pendingChallenges: arrayRemove(challengeId),
    completedChallenges: arrayUnion(challengeId) })] *)
Definition settleChallengeInUser (challengeId : string) (d : UserDoc) : UserDoc :=
  {| u_email := u_email d;
     u_displayName := u_displayName d;
     u_totalXP := u_totalXP d;
     u_pendingChallenges := arrayRemove challengeId (u_pendingChallenges d);
     u_completedChallenges := arrayUnion challengeId (u_completedChallenges d);
     u_friends := u_friends d;
     u_createdAt := u_createdAt d;
     u_updatedAt := u_updatedAt d |}.

(** [setDoc] of a document of [users/{userId}/completedChallenges]. *)
Definition setCompleted (userId id : string) (d : CompletedChallenge)
    (m : gmap string (gmap string CompletedChallenge))
  : gmap string (gmap string CompletedChallenge) :=
  <[userId := <[id := d]> (default ∅ (m !! userId))]> m.

Definition completeChallenge (env : Env) (challengeId userAnswer : string)
  : Op GradeResult :=
  userId ← getCurrentUserId env;
  challengeSnap ← gets (λ s, challenges s !! challengeId);
  match challengeSnap with
  | None => throw ChallengeNotFound
  | Some challengeData =>
      let correctAnswer := cc_vocabulary (ch_card challengeData) in
      let isCorrect :=
        String.eqb (JsString.trim (JsString.toLowerCase userAnswer))
                   (JsString.trim (JsString.toLowerCase correctAnswer)) in
      let score := if isCorrect then 100 else 0 in
      let currentTime := dateNow env in
      let recipients :=
        map (markCompleted userId score userAnswer currentTime)
            (ch_recipients challengeData) in
      modify (set_challenges
                (alter (updateRecipients recipients (serverTime env)) challengeId));;
      let completedChallengeRef := autoId env in
      let cardData := completedCardOf (ch_card challengeData) in
      modify (set_completedChallenges
                (setCompleted userId completedChallengeRef
                   {| cd_id := completedChallengeRef;
                      cd_challengeId := challengeId;
                      cd_senderName := ch_senderName challengeData;
                      cd_senderId := ch_senderId challengeData;
                      cd_card := cardData;
                      cd_userAnswer := userAnswer;
                      cd_userScore := score;
                      cd_isCorrect := isCorrect;
                      cd_completedAt := serverTime env;
                      cd_createdAt := serverTime env |}));;
      userSnap ← gets (λ s, users s !! userId);
      match userSnap with
      | Some _ => modify (set_users (alter (settleChallengeInUser challengeId) userId))
      | None => mret tt
      end;;
      mret {| isCorrect := isCorrect; score := score; correctAnswer := correctAnswer |}
  end.

Definition rejectChallenge (env : Env) (challengeId : string) : Op unit :=
  userId ← getCurrentUserId env;
  challengeSnap ← gets (λ s, challenges s !! challengeId);
  match challengeSnap with
  | None => throw ChallengeNotFound
  | Some challengeData =>
      let currentTime := dateNow env in
      let recipients :=
        map (markRejected userId currentTime) (ch_recipients challengeData) in
      modify (set_challenges
                (alter (updateRecipients recipients (serverTime env)) challengeId))
  end.

(** ** XP ledger ([addUserXP], [getUserXP]) *)

(** [updateDoc(userRef, { totalXP: increment(xpAmount), updatedAt })] *)
Definition bumpXP (xpAmount t : Z) (d : UserDoc) : UserDoc :=
  {| u_email := u_email d;
     u_displayName := u_displayName d;
     u_totalXP := increment xpAmount (u_totalXP d);
     u_pendingChallenges := u_pendingChallenges d;
     u_completedChallenges := u_completedChallenges d;
     u_friends := u_friends d;
     u_createdAt := u_createdAt d;
     u_updatedAt := Some t |}.

Definition addUserXP (env : Env) (xpAmount : Z) : Op unit :=
  userId ← getCurrentUserId env;
  userSnap ← gets (λ s, users s !! userId);
  match userSnap with
  | Some _ => modify (set_users (alter (bumpXP xpAmount (serverTime env)) userId))
  | None =>
      modify (set_users
                (insert userId
                   {| u_email := from_option au_email "" (currentUser env);
                      u_displayName := from_option au_displayName "" (currentUser env);
                      u_totalXP := Some xpAmount;
                      u_pendingChallenges := None;
                      u_completedChallenges := None;
                      u_friends := None;
                      u_createdAt := Some (serverTime env);
                      u_updatedAt := Some (serverTime env) |}))
  end.

(** [getUserXP]: [userSnap.data().totalXP || 0] when the document exists,
    [0] when it does not, and [0] from the [catch] branch. The total
    arrives as a JavaScript number, the double nearest to the stored
    integer. *)
Definition getUserXP (env : Env) : Op Z :=
  tryCatch
    (userId ← getCurrentUserId env;
     userSnap ← gets (λ s, users s !! userId);
     match userSnap with
     | Some d => mret (binary64 (default 0 (u_totalXP d)))
     | None => mret 0
     end)
    (λ _, mret 0).

(** ** Card store ([addSharedCardFromChallenge], [getUserCards],
    [getCards], [updateSharedCard], [updateCard]) *)

(** [where(field, '==', v)] on a string field. *)
Definition fieldIs (field v : string) (d : Doc) : Prop := d !! field = Some (VStr v).

#[global] Instance fieldIs_dec field v d : Decision (fieldIs field v d).
Proof. unfold fieldIs. apply _. Defined.

(** [snapshot.docs] of a query: the documents of the collection that
    satisfy the predicate, with their ids, in the enumeration order of
    the collection. *)
Definition queryDocs {A} (P : A → Prop) `{!∀ d, Decision (P d)}
    (coll : gmap string A) : list (string * A) :=
  map_to_list (filter (λ kv, P kv.2) coll).

(** The argument object of [addSharedCardFromChallenge]. *)
Record ShareRequest := {
  sr_card : ChallengeCard;
  sr_senderId : string;
  sr_recipientId : string;
  sr_addedFrom : string
}.

(** The three [where] clauses of the duplicate check. *)
Definition sameTriple (vocabulary definition recipientId : string) (d : Doc) : Prop :=
  fieldIs "vocabulary" vocabulary d ∧ fieldIs "definition" definition d ∧
  fieldIs "recipientId" recipientId d.

#[global] Instance sameTriple_dec v d r x : Decision (sameTriple v d r x).
Proof. unfold sameTriple. apply _. Defined.

(** The [newCard] object. *)
Definition newCard (env : Env) (challengeData : ShareRequest) : Doc :=
  let card := sr_card challengeData in
  list_to_map
    [ ("vocabulary", VStr (cc_vocabulary card));
      ("definition", VStr (cc_definition card));
      ("sentence", VStr (JsString.orElse (cc_sentence card) ""));
      ("imageUrl", VStr (JsString.orElse (cc_imageUrl card) ""));
      ("pronunciation", VStr (JsString.orElse (cc_pronunciation card) ""));
      ("topicId", VStr (JsString.orElse (cc_topicId card) ""));
      ("addedFrom", VStr (JsString.orElse (sr_addedFrom challengeData) "challenge"));
      ("senderId", VStr (sr_senderId challengeData));
      ("recipientId", VStr (sr_recipientId challengeData));
      ("createdAt", VTime (serverTime env));
      ("lastAddedAt", VTime (serverTime env)) ].

Definition addSharedCardFromChallenge (env : Env) (challengeData : ShareRequest)
  : Op string :=
  snapshot ← gets (λ s,
    queryDocs (sameTriple (cc_vocabulary (sr_card challengeData))
                          (cc_definition (sr_card challengeData))
                          (sr_recipientId challengeData))
              (sharedCards s));
  match snapshot with
  | (id, _) :: _ => mret id
  | [] =>
      modify (set_sharedCards (insert (autoId env) (newCard env challengeData)));;
      mret (autoId env)
  end.

(** A topic argument is used as a filter only when truthy. *)
Definition topicFilter (topicId : option string) : option string :=
  topicId ≫= JsString.truthy.

(** [{ id: doc.id, ...doc.data() }] *)
Definition withId (kv : string * Doc) : Doc := kv.2 ∪ {["id" := VStr kv.1]}.

(** The object [getUserCards] builds from a reference and the shared-card
    data: [{ id, sharedCardId, topicId, addedAt, ...sharedCardSnap.data() }]. *)
Definition referencedCard (userCard sharedData : Doc) : Doc :=
  sharedData ∪
  filter (λ kv, kv.1 ∈ ["id"; "sharedCardId"; "topicId"; "addedAt"]) userCard.

(** One element of [cardsPromises]: [null] when the reference names no
    shared card or the shared card does not exist. *)
Definition fetchSharedCard (shared : gmap string Doc) (userCard : Doc) : option Doc :=
  match userCard !! "sharedCardId" with
  | Some (VStr sharedCardId) => referencedCard userCard <$> shared !! sharedCardId
  | _ => None
  end.

Definition getUserCards (env : Env) (topicId : option string) : Op (list Doc) :=
  tryCatch
    (userId ← getCurrentUserId env;
     userCardsSnap ← gets (λ s,
       let userCardsRef := default ∅ (myCards s !! userId) in
       match topicFilter topicId with
       | Some t => queryDocs (fieldIs "topicId" t) userCardsRef
       | None => map_to_list userCardsRef
       end);
     shared ← gets sharedCards;
     (* an empty snapshot gives the empty list, as the early return does *)
     mret (omap (fetchSharedCard shared) (withId <$> userCardsSnap)))
    (λ _, mret []).

Definition getCards (env : Env) (topicId : option string) : Op (list Doc) :=
  userId ← getCurrentUserId env;
  found ← tryCatch
            (sharedCards ← getUserCards env topicId;
             mret (if decide (0 < length sharedCards)%nat then Some sharedCards else None))
            (λ _, mret None);
  match found with
  | Some sharedCards => mret sharedCards
  | None =>
      querySnapshot ← gets (λ s,
        match topicFilter topicId with
        | Some t => queryDocs (fieldIs "topicId" t) (cards s)
        | None => queryDocs (fieldIs "userId" userId) (cards s)
        end);
      mret (withId <$> querySnapshot)
  end.

(** [updateDoc(ref, patch)]: the fields of the patch replace or extend
    those of the document. *)
Definition mergeFields (patch d : Doc) : Doc := patch ∪ d.

(** [{ ...updatedData, updatedAt, lastEditedBy, lastEditedAt }] *)
Definition sharedPatch (env : Env) (userId : string) (updatedData : Doc) : Doc :=
  <["updatedAt" := VTime (serverTime env)]>
    (<["lastEditedBy" := VStr userId]>
       (<["lastEditedAt" := VTime (serverTime env)]> updatedData)).

Definition updateSharedCard (env : Env) (sharedCardId : string) (updatedData : Doc)
  : Op unit :=
  userId ← getCurrentUserId env;
  sharedCardSnap ← gets (λ s, sharedCards s !! sharedCardId);
  match sharedCardSnap with
  | None =>
      sharedCardsSnap ← gets (λ s,
        queryDocs (fieldIs "sharedCardId" sharedCardId) (sharedCards s));
      match sharedCardsSnap with
      | [] => mret tt
      | (foundDoc, _) :: _ =>
          modify (set_sharedCards
                    (alter (mergeFields (sharedPatch env userId updatedData)) foundDoc))
      end
  | Some cardData =>
      if decide (cardData !! "recipientId" = Some (VStr userId)) then
        modify (set_sharedCards
                  (alter (mergeFields (sharedPatch env userId updatedData)) sharedCardId))
      else throw NotSharedRecipient
  end.

(** The legacy branch of [updateCard], after the [try]/[catch]. *)
Definition updateLegacyCard (env : Env) (userId cardId : string) (updatedData : Doc)
  : Op unit :=
  cardSnap ← gets (λ s, cards s !! cardId);
  match cardSnap with
  | None => throw CardNotFound
  | Some cardData =>
      if decide (cardData !! "userId" = Some (VStr userId)) then
        modify (set_cards
                  (alter (mergeFields (<["updatedAt" := VTime (dateNow env)]> updatedData))
                         cardId))
      else throw AccessDenied
  end.

(** [updateCard]: the [try] block returns from the function when
    [updateSharedCard] returns; the legacy branch runs only from the
    [catch]. *)
Definition updateCard (env : Env) (cardId : string) (updatedData : Doc) : Op unit :=
  userId ← getCurrentUserId env;
  tryCatch (updateSharedCard env cardId updatedData)
           (λ _, updateLegacyCard env userId cardId updatedData).

(** ** Reward flow of the challenge screen ([addCardToCollection],
    [handleAddCardAndXP]) *)

(** [addCardToCollection(challenge)]: the recipient id is that of the
    first entry of [challenge.recipients]. *)
Definition addCardToCollection (env : Env) (challenge : Challenge) : Op unit :=
  match JsString.truthy <$> (r_userId <$> head (ch_recipients challenge)) with
  | Some (Some recipientId) =>
      addSharedCardFromChallenge env
        {| sr_card := ch_card challenge;
           sr_senderId := ch_senderId challenge;
           sr_recipientId := recipientId;
           sr_addedFrom := "challenge" |};;
      mret tt
  | _ => throw RecipientNotFound
  end.

(** The alert a handler ends with. *)
Inductive Alert := AlertSuccess | AlertError.

(** [handleAddCardAndXP]: the 'Add Card & Get XP' button of the reward
    modal. *)
Definition handleAddCardAndXP (env : Env) (currentChallenge : Challenge) : Op Alert :=
  tryCatch
    (addCardToCollection env currentChallenge;;
     addUserXP env 100;;
     mret AlertSuccess)
    (λ _, mret AlertError).

(** ** Friendship ledger ([profile.tsx], [sendFriendRequest]) *)

(** How the handler ends: it returns at once without a signed-in user,
    shows the 'Already Sent' alert, or adds the request and shows the
    'Success' alert. *)
Inductive SendOutcome := NotSignedIn | AlreadySent | RequestSent.

#[global] Instance SendOutcome_eq_dec : EqDecision SendOutcome.
Proof. solve_decision. Defined.

(** The three [where] clauses of [existingRequestQuery]. *)
Definition pendingFromTo (fromId toId : string) (r : FriendRequest) : Prop :=
  fr_fromUserId r = fromId ∧ fr_toUserId r = toId ∧ fr_status r = req_pending.

#[global] Instance pendingFromTo_dec a b r : Decision (pendingFromTo a b r).
Proof. unfold pendingFromTo. apply _. Defined.

Definition sendFriendRequest (env : Env) (toUserId toDisplayName toEmail : string)
  : Op SendOutcome :=
  match currentUser env with
  | None => mret NotSignedIn
  | Some user =>
      existingSnapshot ← gets (λ s,
        queryDocs (pendingFromTo (uid user) toUserId) (friendRequests s));
      match existingSnapshot with
      | _ :: _ => mret AlreadySent
      | [] =>
          let requestData :=
            {| fr_fromUserId := uid user;
               fr_fromDisplayName :=
                 JsString.orElse (au_displayName user)
                                 (JsString.orElse (au_email user) "Unknown User");
               fr_fromEmail := JsString.orElse (au_email user) "";
               fr_toUserId := toUserId;
               fr_toDisplayName := toDisplayName;
               fr_toEmail := toEmail;
               fr_status := req_pending;
               fr_createdAt := serverTime env |} in
          modify (set_friendRequests (insert (autoId env) requestData));;
          mret RequestSent
      end
  end.

(** * Vocabulary of the properties

    The propositions the claims are stated with, the stores reached by
    the modelled calls and the concrete stores of the examples. *)

(** ** The match the specification asks for

    The grading rule in the words of the specification, stated on the
    code units themselves and without the string functions above: the
    answer and the vocabulary term are the same once the white space
    around each is set aside and capital letters are read as their small
    letters. *)

(** The white-space code units: TAB, LF, VT, FF, CR, SPACE and NBSP. *)
Definition blank (c : ascii) : Prop :=
  nat_of_ascii c ∈ [9; 10; 11; 12; 13; 32; 160]%nat.

(** A capital letter, A-Z or one of U+00C0..U+00DE but not the
    multiplication sign; its small letter lies 32 above it. *)
Definition capitalCode (n : nat) : Prop :=
  (65 ≤ n ≤ 90 ∨ (192 ≤ n ≤ 222 ∧ n ≠ 215))%nat.

Definition smallLetterOf (capital small : ascii) : Prop :=
  capitalCode (nat_of_ascii capital) ∧
  nat_of_ascii small = (nat_of_ascii capital + 32)%nat.

(** Two code units that differ at most in case. *)
Definition sameLetter (a b : ascii) : Prop :=
  a = b ∨ smallLetterOf a b ∨ smallLetterOf b a.

Inductive sameUpToCase : string → string → Prop :=
| sameUpToCase_empty : sameUpToCase "" ""
| sameUpToCase_letter a b s t :
    sameLetter a b → sameUpToCase s t → sameUpToCase (String a s) (String b t).

Fixpoint allBlank (s : string) : Prop :=
  match s with
  | EmptyString => True
  | String c r => blank c ∧ allBlank r
  end.

(** [core] is [s] without the white space around it: [s] is [core]
    between two runs of white space, and [core] neither starts nor ends
    with white space. *)
Definition strippedTo (s core : string) : Prop :=
  ∃ before after,
    s = before ++ core ++ after ∧ allBlank before ∧ allBlank after ∧
    (∀ c r, core = String c r → ¬ blank c) ∧
    (∀ r c, core = r ++ String c "" → ¬ blank c).

(** Case-insensitive, whitespace-trimmed exact match. *)
Definition matchesIgnoringCaseAndPadding (userAnswer vocabulary : string) : Prop :=
  ∃ a v, strippedTo userAnswer a ∧ strippedTo vocabulary v ∧ sameUpToCase a v.

(** ** Grading and the store after a completion *)

(** The grading expression of [completeChallenge], as a proposition. *)
Definition answerMatches (userAnswer vocabulary : string) : Prop :=
  JsString.trim (JsString.toLowerCase userAnswer) =
  JsString.trim (JsString.toLowerCase vocabulary).

#[global] Instance answerMatches_dec a v : Decision (answerMatches a v).
Proof. unfold answerMatches. apply _. Defined.

Definition gradeOf (userAnswer : string) (ch : Challenge) : GradeResult :=
  let ok := bool_decide (answerMatches userAnswer (cc_vocabulary (ch_card ch))) in
  {| isCorrect := ok;
     score := if ok then 100 else 0;
     correctAnswer := cc_vocabulary (ch_card ch) |}.

(** The completed-challenge document written for a graded answer. *)
Definition recordOf (env : Env) (challengeId userAnswer : string) (ch : Challenge)
  : CompletedChallenge :=
  {| cd_id := autoId env;
     cd_challengeId := challengeId;
     cd_senderName := ch_senderName ch;
     cd_senderId := ch_senderId ch;
     cd_card := completedCardOf (ch_card ch);
     cd_userAnswer := userAnswer;
     cd_userScore := score (gradeOf userAnswer ch);
     cd_isCorrect := isCorrect (gradeOf userAnswer ch);
     cd_completedAt := serverTime env;
     cd_createdAt := serverTime env |}.

(** The store left by a call that found the challenge [ch]. *)
Definition afterComplete (env : Env) (userId challengeId userAnswer : string)
    (ch : Challenge) (s : Store) : Store :=
  let recipients :=
    map (markCompleted userId (score (gradeOf userAnswer ch)) userAnswer (dateNow env))
        (ch_recipients ch) in
  let s1 := set_challenges
              (alter (updateRecipients recipients (serverTime env)) challengeId) s in
  let s2 := set_completedChallenges
              (setCompleted userId (autoId env) (recordOf env challengeId userAnswer ch))
              s1 in
  match users s !! userId with
  | Some _ => set_users (alter (settleChallengeInUser challengeId) userId) s2
  | None => s2
  end.

(** ** Recipient entries *)

(** How a completion by [userId] relates an entry [r] of the stored
    challenge to the entry [r'] at the same position afterwards. *)
Definition completedFrom (userId : string) (res : GradeResult) (userAnswer : string)
    (t : Z) (r r' : Recipient) : Prop :=
  if decide (r_userId r = userId) then
    r_userId r' = userId ∧ r_status r' = completed ∧ r_score r' = Some (score res) ∧
    r_userAnswer r' = Some userAnswer ∧ r_completedAt r' = Some t ∧
    r_notified r' = r_notified r
  else r' = r.

(** How a rejection by [userId] relates an entry to the entry at the same
    position afterwards: score and answer are carried over by the spread. *)
Definition rejectedFrom (userId : string) (t : Z) (r r' : Recipient) : Prop :=
  if decide (r_userId r = userId) then
    r_userId r' = userId ∧ r_status r' = rejected ∧ r_score r' = r_score r ∧
    r_userAnswer r' = r_userAnswer r ∧ r_completedAt r' = Some t ∧
    r_notified r' = r_notified r
  else r' = r.

Definition terminal (st : RecipientStatus) : Prop := st = completed ∨ st = rejected.

(** The property claimed of a call [op] made by [userId] on the challenge:
    every entry of that user that is already terminal is still there,
    unchanged, after the call. *)
Definition terminalEntriesKept {A} (op : Op A) (userId challengeId : string)
    (s : Store) : Prop :=
  ∀ ch i r,
    challenges s !! challengeId = Some ch →
    ch_recipients ch !! i = Some r →
    r_userId r = userId →
    terminal (r_status r) →
    ∃ ch', challenges (finalStore (op s)) !! challengeId = Some ch' ∧
           ch_recipients ch' !! i = Some r.

(** ** Completed-challenge records *)

(** The documents of [users/{userId}/completedChallenges]. *)
Definition recordsOf (s : Store) (userId : string) : gmap string CompletedChallenge :=
  default ∅ (completedChallenges s !! userId).

(** Those written for the challenge [challengeId]. *)
Definition recordsFor (s : Store) (userId challengeId : string)
  : gmap string CompletedChallenge :=
  filter (λ kv, cd_challengeId kv.2 = challengeId) (recordsOf s userId).

(** The claimed bound: at most one record per user and challenge. *)
Definition atMostOneRecord (s : Store) (userId challengeId : string) : Prop :=
  (size (recordsFor s userId challengeId) ≤ 1)%nat.

(** ** XP *)

(** The total a user document holds, as the integer stored: [0] without
    a document or without the field. *)
Definition storedXP (s : Store) (userId : string) : Z :=
  from_option (λ d, default 0 (u_totalXP d)) 0 (users s !! userId).

(** A sequence of [addUserXP] calls, each with its own environment. *)
Fixpoint awardAll (calls : list (Env * Z)) (s : Store) : Store :=
  match calls with
  | [] => s
  | (env, xpAmount) :: rest => awardAll rest (finalStore (addUserXP env xpAmount s))
  end.

(** ** Shared cards *)

(** The shared-card documents that carry the triple of a request. *)
Definition matching (challengeData : ShareRequest) (s : Store) : gmap string Doc :=
  filter (λ kv, sameTriple (cc_vocabulary (sr_card challengeData))
                           (cc_definition (sr_card challengeData))
                           (sr_recipientId challengeData) kv.2)
         (sharedCards s).

(** The claim for one request on one store: two calls in a row return
    the same id and leave exactly one document with the triple. *)
Definition materializedOnce (env1 env2 : Env) (challengeData : ShareRequest)
    (s : Store) : Prop :=
  ∃ id s1 s2,
    addSharedCardFromChallenge env1 challengeData s = Returned id s1 ∧
    addSharedCardFromChallenge env2 challengeData s1 = Returned id s2 ∧
    size (matching challengeData s2) = 1%nat.

(** The request [addCardToCollection] passes on for a challenge whose
    first recipient is [recipientId]. *)
Definition shareRequestOf (challenge : Challenge) (recipientId : string) : ShareRequest :=
  {| sr_card := ch_card challenge;
     sr_senderId := ch_senderId challenge;
     sr_recipientId := recipientId;
     sr_addedFrom := "challenge" |}.

(** ** Friend requests *)

(** A pending request between the two users, in either direction. *)
Definition pendingBetween (a b : string) (r : FriendRequest) : Prop :=
  pendingFromTo a b r ∨ pendingFromTo b a r.

(** The claim for one call: with a pending request between the caller
    and the addressee, the call ends in the conflict and adds nothing. *)
Definition conflictRefused (env : Env) (toUserId toDisplayName toEmail : string)
    (s : Store) : Prop :=
  ∀ u id r,
    currentUser env = Some u →
    friendRequests s !! id = Some r →
    pendingBetween (uid u) toUserId r →
    sendFriendRequest env toUserId toDisplayName toEmail s = Returned AlreadySent s.

(** ** Card listings *)

(** The documents of [users/{userId}/myCards]. *)
Definition myCardsOf (s : Store) (userId : string) : gmap string Doc :=
  default ∅ (myCards s !! userId).

(** The references [getUserCards] reads, after the optional topic filter. *)
Definition referencesOf (s : Store) (userId : string) (topicId : option string)
  : list (string * Doc) :=
  match topicFilter topicId with
  | Some t => queryDocs (fieldIs "topicId" t) (myCardsOf s userId)
  | None => map_to_list (myCardsOf s userId)
  end.

(** The cards it builds from them. *)
Definition referencedCards (s : Store) (userId : string) (topicId : option string)
  : list Doc :=
  omap (fetchSharedCard (sharedCards s)) (withId <$> referencesOf s userId topicId).

(** The result of the legacy query of [getCards]. *)
Definition legacyCards (s : Store) (userId : string) (topicId : option string)
  : list Doc :=
  withId <$> match topicFilter topicId with
             | Some t => queryDocs (fieldIs "topicId" t) (cards s)
             | None => queryDocs (fieldIs "userId" userId) (cards s)
             end.

(** (a) of the claim: the card [cardId] was created by the user (and is
    filed under the topic, when one is asked for). *)
Definition createdBy (s : Store) (userId : string) (topicId : option string)
    (cardId : string) : Prop :=
  ∃ d, cards s !! cardId = Some d ∧ fieldIs "userId" userId d ∧
       (∀ t, topicFilter topicId = Some t → fieldIs "topicId" t d).

(** (b) of the claim: one of the user's references points at the shared
    card [cardId], which exists. *)
Definition reachableBy (s : Store) (userId : string) (topicId : option string)
    (cardId : string) : Prop :=
  ∃ refId ref,
    myCardsOf s userId !! refId = Some ref ∧
    (∀ t, topicFilter topicId = Some t → fieldIs "topicId" t ref) ∧
    ref !! "sharedCardId" = Some (VStr cardId) ∧
    is_Some (sharedCards s !! cardId).

(** The canonical id of a returned object: the shared-card id when it has
    one, its own id otherwise. *)
Definition canonicalId (card : Doc) : option Value :=
  match card !! "sharedCardId" with
  | Some v => Some v
  | None => card !! "id"
  end.

(** The claim for one call: the canonical ids returned are exactly those
    of (a) and (b), each once. *)
Definition returnsUnion (env : Env) (userId : string) (topicId : option string)
    (s : Store) : Prop :=
  ∃ result,
    getCards env topicId s = Returned result s ∧
    (∀ cardId, Some (VStr cardId) ∈ canonicalId <$> result ↔
               createdBy s userId topicId cardId ∨ reachableBy s userId topicId cardId) ∧
    NoDup (canonicalId <$> result).

(** The list a call returned. *)
Definition listed {A} (o : Outcome (list A)) : list A :=
  match o with Returned l _ => l | Thrown _ _ => [] end.

(** ** Concrete stores used by the examples *)

Module Fixtures.

Definition alice : AuthUser :=
  {| uid := "alice"; au_email := "alice@example.org"; au_displayName := "Alice" |}.
Definition bob : AuthUser :=
  {| uid := "bob"; au_email := "bob@example.org"; au_displayName := "Bob" |}.

Definition envOf (user : AuthUser) (t : Z) (id : string) : Env :=
  {| currentUser := Some user; dateNow := t; serverTime := t + 1; autoId := id |}.

Definition pendingEntry (userId : string) : Recipient :=
  {| r_userId := userId; r_status := pending; r_score := None;
     r_userAnswer := None; r_completedAt := None; r_notified := true |}.

Definition appleCard : ChallengeCard :=
  {| cc_id := "card-1"; cc_vocabulary := "apple"; cc_definition := "a fruit";
     cc_sentence := ""; cc_imageUrl := ""; cc_pronunciation := "";
     cc_topicId := ""; cc_topicName := ""; cc_createdAt := 5 |}.

(** A challenge from alice to bob and carol, as [sendChallenge] stores it. *)
Definition appleChallenge : Challenge :=
  {| ch_senderId := "alice"; ch_senderName := "Alice"; ch_card := appleCard;
     ch_recipients := [pendingEntry "bob"; pendingEntry "carol"];
     ch_createdAt := 5; ch_expiresAt := 604805; ch_updatedAt := None |}.

Definition bobDoc : UserDoc :=
  {| u_email := "bob@example.org"; u_displayName := "Bob"; u_totalXP := Some 40;
     u_pendingChallenges := Some ["ch0"; "ch1"]; u_completedChallenges := None;
     u_friends := None; u_createdAt := Some 1; u_updatedAt := Some 1 |}.

Definition challengeStore : Store :=
  set_users (insert "bob" bobDoc)
    (set_challenges (insert "ch1" appleChallenge) emptyStore).

End Fixtures.

Module TransitionExamples.
Import Fixtures.

(** bob has answered correctly. *)
Definition completedStore : Store :=
  finalStore (completeChallenge (envOf bob 1000 "rec1") "ch1" "apple" challengeStore).

(** bob has declined. *)
Definition rejectedStore : Store :=
  finalStore (rejectChallenge (envOf bob 1000 "rec1") "ch1" challengeStore).

End TransitionExamples.

Module RecordExamples.
Import Fixtures.

Definition once : Store :=
  finalStore (completeChallenge (envOf bob 1000 "rec1") "ch1" "apple" challengeStore).

Definition twice : Store :=
  finalStore (completeChallenge (envOf bob 2000 "rec2") "ch1" "apple" once).

End RecordExamples.

Module SharedCardExamples.
Import Fixtures.

Definition pearCard : ChallengeCard :=
  {| cc_id := "card-2"; cc_vocabulary := "pear"; cc_definition := "another fruit";
     cc_sentence := ""; cc_imageUrl := ""; cc_pronunciation := "";
     cc_topicId := ""; cc_topicName := ""; cc_createdAt := 6 |}.

Definition shareWithBob (card : ChallengeCard) : ShareRequest :=
  {| sr_card := card; sr_senderId := "alice"; sr_recipientId := "bob";
     sr_addedFrom := "challenge" |}.

(** bob keeps the cards of two challenges ... *)
Definition twoCards : Store :=
  finalStore
    (addSharedCardFromChallenge (envOf bob 20 "sc2") (shareWithBob pearCard)
       (finalStore
          (addSharedCardFromChallenge (envOf bob 10 "sc1") (shareWithBob appleCard)
             emptyStore))).

(** ... and then edits the second one into the content of the first,
    with the [updateData] object of the edit form. *)
Definition edited : Store :=
  finalStore
    (updateSharedCard (envOf bob 30 "unused") "sc2"
       (list_to_map [ ("vocabulary", VStr "apple"); ("pronunciation", VStr "");
                      ("definition", VStr "a fruit"); ("sentence", VStr "") ])
       twoCards).

End SharedCardExamples.

Module EditExamples.
Import Fixtures.

Definition catCard : Doc :=
  list_to_map [ ("vocabulary", VStr "cat"); ("definition", VStr "an animal");
                ("sentence", VStr ""); ("imageUrl", VStr "");
                ("userId", VStr "alice"); ("createdAt", VTime 1);
                ("updatedAt", VTime 1) ].

(** alice owns the card [c1] she created with [addCard]; bob holds the
    shared card [sc1] materialized from a challenge. *)
Definition editStore : Store :=
  set_cards (insert "c1" catCard)
    (finalStore
       (addSharedCardFromChallenge (envOf bob 10 "sc1")
          (SharedCardExamples.shareWithBob appleCard) emptyStore)).

Definition patch : Doc := {["vocabulary" := VStr "kitten"]}.

End EditExamples.

Module FriendExamples.
Import Fixtures.

(** bob has asked alice; alice has not answered yet. *)
Definition bobAskedAlice : Store :=
  finalStore (sendFriendRequest (envOf bob 10 "fr1") "alice" "Alice"
                "alice@example.org" emptyStore).

End FriendExamples.

Module XpExamples.
Import Fixtures.

(** Bob's ledger after eight awards of [2 ^ 52] XP: a total of [2 ^ 55]. *)
Definition largeTotal : Store :=
  awardAll (repeat (envOf bob 10 "x", (2 ^ 52)%Z) 8) emptyStore.

End XpExamples.

Module ListExamples.
Import Fixtures.

Definition dogCard : Doc :=
  list_to_map [ ("vocabulary", VStr "dog"); ("definition", VStr "an animal");
                ("userId", VStr "bob") ].

Definition appleRef : Doc :=
  list_to_map [ ("sharedCardId", VStr "sc1"); ("addedAt", VTime 11) ].

(** bob created the card [c2] himself and holds a reference to the
    shared card [sc1]. *)
Definition bothKinds : Store :=
  {| cards := {["c2" := dogCard]};
     sharedCards :=
       {["sc1" := newCard (envOf bob 10 "sc1") (SharedCardExamples.shareWithBob appleCard)]};
     myCards := {["bob" := {["ref1" := appleRef]}]};
     challenges := ∅; completedChallenges := ∅; users := ∅; friendRequests := ∅ |}.

(** alice filed her card [c1] under her topic [t1]; bob has no card. *)
Definition foreignTopic : Store :=
  {| cards := {["c1" := <["topicId" := VStr "t1"]> EditExamples.catCard]};
     sharedCards := ∅; myCards := ∅; challenges := ∅; completedChallenges := ∅;
     users := ∅; friendRequests := ∅ |}.

End ListExamples.

(** * Further operations of the data layer *)

(** ** Sending and listing challenges ([sendChallenge],
    [getPendingChallenges], [getCompletedChallenges]) *)

(** The argument object of [sendChallenge]. *)
Record ChallengeInput := {
  ci_cardId : string;
  ci_vocabulary : string;
  ci_definition : string;
  ci_sentence : string;
  ci_imageUrl : string;
  ci_pronunciation : string;
  ci_topicId : string;
  ci_recipientIds : list string
}.

(** [userData.displayName || userData.name || userData.email || 'Someone']
    on the sender's user document, [{}] when there is none; no writer of
    [users] stores a [name] field. *)
Definition senderNameOf (userSnap : option UserDoc) : string :=
  match userSnap with
  | Some userData =>
      JsString.orElse (u_displayName userData)
        (JsString.orElse (u_email userData) "Someone")
  | None => "Someone"
  end.

(** One element of [challengeData.recipientIds.map(...)]. *)
Definition newRecipient (id : string) : Recipient :=
  {| r_userId := id; r_status := pending; r_score := None;
     r_userAnswer := None; r_completedAt := None; r_notified := true |}.

(** Seven days in milliseconds: [7 * 24 * 60 * 60 * 1000]. *)
Definition sevenDays : Z := 7 * 24 * 60 * 60 * 1000.

(** The document [sendChallenge] adds. Its top-level [status] is the
    constant ['active'] in every challenge and is not carried by the
    record; the snapshot has no [topicName]. *)
Definition newChallenge (env : Env) (userId senderName : string)
    (challengeData : ChallengeInput) : Challenge :=
  {| ch_senderId := userId;
     ch_senderName := senderName;
     ch_card :=
       {| cc_id := ci_cardId challengeData;
          cc_vocabulary := ci_vocabulary challengeData;
          cc_definition := ci_definition challengeData;
          cc_sentence := JsString.orElse (ci_sentence challengeData) "";
          cc_imageUrl := JsString.orElse (ci_imageUrl challengeData) "";
          cc_pronunciation := JsString.orElse (ci_pronunciation challengeData) "";
          cc_topicId := JsString.orElse (ci_topicId challengeData) "";
          cc_topicName := "";
          cc_createdAt := serverTime env |};
     ch_recipients := map newRecipient (ci_recipientIds challengeData);
     ch_createdAt := serverTime env;
     ch_expiresAt := dateNow env + sevenDays;
     ch_updatedAt := None |}.

Definition sendChallenge (env : Env) (challengeData : ChallengeInput) : Op string :=
  userId ← getCurrentUserId env;
  userSnap ← gets (λ s, users s !! userId);
  let senderName := senderNameOf userSnap in
  modify (set_challenges
            (insert (autoId env) (newChallenge env userId senderName challengeData)));;
  mret (autoId env).

(** [data.recipients?.find(r => r.userId === userId && r.status === st)] *)
Definition findRecipient (userId : string) (st : RecipientStatus) (data : Challenge)
  : option Recipient :=
  List.find (λ r, bool_decide (r_userId r = userId ∧ r_status r = st))
            (ch_recipients data).

(** [getPendingChallenges]: the scan of the whole collection, [[]] from
    the [catch] branch. Each element is [{ id: doc.id, ...data }]. *)
Definition getPendingChallenges (env : Env) : Op (list (string * Challenge)) :=
  tryCatch
    (userId ← getCurrentUserId env;
     querySnapshot ← gets (λ s, map_to_list (challenges s));
     mret (filter (λ kv, is_Some (findRecipient userId pending kv.2)) querySnapshot))
    (λ _, mret []).

(** An element of the result of [getCompletedChallenges]:
    [{ id, ...data, userScore, completedAt }]. *)
Record CompletedView := {
  cv_id : string;
  cv_data : Challenge;
  cv_userScore : option Z;
  cv_completedAt : option Z
}.

(** [a.completedAt?.toDate?.() || new Date(0)], in milliseconds. *)
Definition completionTime (a : CompletedView) : Z := default 0 (cv_completedAt a).

(** [challenges.sort((a, b) => bTime - aTime)]: newest first, elements of
    equal time in their original order. *)
Fixpoint insertNewestFirst (a : CompletedView) (l : list CompletedView)
  : list CompletedView :=
  match l with
  | [] => [a]
  | b :: rest =>
      if (completionTime b <=? completionTime a)%Z then a :: l
      else b :: insertNewestFirst a rest
  end.

Definition sortNewestFirst (l : list CompletedView) : list CompletedView :=
  foldr insertNewestFirst [] l.

(** The element pushed for a document, if the caller completed it. *)
Definition completedViewOf (userId : string) (kv : string * Challenge)
  : option CompletedView :=
  userRecipient ← findRecipient userId completed kv.2;
  Some {| cv_id := kv.1; cv_data := kv.2;
          cv_userScore := r_score userRecipient;
          cv_completedAt := r_completedAt userRecipient |}.

Definition getCompletedChallenges (env : Env) : Op (list CompletedView) :=
  tryCatch
    (userId ← getCurrentUserId env;
     querySnapshot ← gets (λ s, map_to_list (challenges s));
     mret (sortNewestFirst (omap (completedViewOf userId) querySnapshot)))
    (λ _, mret []).

(** ** The answer handler of the challenge screen ([handleSubmitAnswer]) *)



(** ** Shared cards of a recipient ([getSharedCardsForRecipient]) *)

(** [{ id: doc.id, sharedCardId: doc.id, ...doc.data(), isShared: true }] *)
Definition recipientView (kv : string * Doc) : Doc :=
  <["isShared" := VBool true]>
    (kv.2 ∪ {["id" := VStr kv.1; "sharedCardId" := VStr kv.1]}).

(** [uniqueCardsMap]: the first card of each [sharedCardId] is kept, in
    the order of first appearance. [seen] holds the keys already set. *)
Fixpoint dedupeBySharedCardId (seen : list (option Value)) (cards : list Doc)
  : list Doc :=
  match cards with
  | [] => []
  | card :: rest =>
      if decide (card !! "sharedCardId" ∈ seen) then dedupeBySharedCardId seen rest
      else card :: dedupeBySharedCardId (card !! "sharedCardId" :: seen) rest
  end.

Definition getSharedCardsForRecipient (env : Env) : Op (list Doc) :=
  userId ← getCurrentUserId env;
  sharedCardsSnapshot ← gets (λ s,
    queryDocs (fieldIs "recipientId" userId) (sharedCards s));
  mret (dedupeBySharedCardId [] (recipientView <$> sharedCardsSnapshot)).

(** ** The user document of the profile screen ([ensureUserDocument]) *)

(** [email.split('@')[0]] *)
Fixpoint beforeAt (s : string) : string :=
  match s with
  | EmptyString => EmptyString
  | String c r => if Ascii.eqb c "@"%char then EmptyString else String c (beforeAt r)
  end.

(** [currentUser.displayName || currentUser.email?.split('@')[0] || 'User'] *)
Definition displayNameToUse (currentUser : AuthUser) : string :=
  JsString.orElse (au_displayName currentUser)
    (JsString.orElse (beforeAt (au_email currentUser)) "User").

(** [updateDoc(userRef, { email, displayName, updatedAt })] *)
Definition refreshProfile (currentUser : AuthUser) (t : Z) (d : UserDoc) : UserDoc :=
  {| u_email := JsString.orElse (au_email currentUser) "";
     u_displayName := displayNameToUse currentUser;
     u_totalXP := u_totalXP d;
     u_pendingChallenges := u_pendingChallenges d;
     u_completedChallenges := u_completedChallenges d;
     u_friends := u_friends d;
     u_createdAt := u_createdAt d;
     u_updatedAt := Some t |}.

(** [ensureUserDocument(currentUser)]; its [catch] only logs. *)
Definition ensureUserDocument (env : Env) (currentUser : AuthUser) : Op unit :=
  tryCatch
    (userDoc ← gets (λ s, users s !! uid currentUser);
     match userDoc with
     | None =>
         modify (set_users
                   (insert (uid currentUser)
                      {| u_email := JsString.orElse (au_email currentUser) "";
                         u_displayName := displayNameToUse currentUser;
                         u_totalXP := None;
                         u_pendingChallenges := None;
                         u_completedChallenges := None;
                         u_friends := Some [];
                         u_createdAt := Some (serverTime env);
                         u_updatedAt := Some (serverTime env) |}))
     | Some _ =>
         modify (set_users
                   (alter (refreshProfile currentUser (serverTime env)) (uid currentUser)))
     end)
    (λ _, mret tt).

(** ** The wider store: topics

    The topic operations and the deletion of cards read and write
    documents that the challenge operations do not touch, and throw
    errors with messages of their own. *)

(** What is thrown: an [Error] with its message, a failure of a Firestore
    call with its code, or [new Error(prefix + error.message)]. *)
Inductive Failure :=
| Message (text : string)
| StoreFailure (code : string)
| Prefixed (prefix : string) (cause : Failure).

#[global] Instance Failure_eq_dec : EqDecision Failure.
Proof. solve_decision. Defined.

(** The message of each [Error] of the challenge operations. *)
Definition messageOf (e : Error) : string :=
  match e with
  | NotAuthenticated => "User must be authenticated to perform this action"
  | ChallengeNotFound => "Challenge not found"
  | CardNotFound => "Card not found"
  | AccessDenied => "Access denied: This card belongs to another user"
  | NotSharedRecipient => "You can only edit cards shared with you"
  | RecipientNotFound => "Recipient not found"
  end.

(** The store with the [topics] collection. *)
Record World := {
  store : Store;
  topics : gmap string Doc
}.

Definition set_store (f : Store → Store) (w : World) : World :=
  {| store := f (store w); topics := topics w |}.

Definition set_topics (f : gmap string Doc → gmap string Doc) (w : World) : World :=
  {| store := store w; topics := f (topics w) |}.

Inductive Ending (A : Type) :=
| Ended (a : A) (w : World)
| Failed (f : Failure) (w : World).
Arguments Ended {A} a w.
Arguments Failed {A} f w.

Definition Act (A : Type) : Type := World → Ending A.

Definition finalWorld {A} (e : Ending A) : World :=
  match e with Ended _ w | Failed _ w => w end.

#[global] Instance Act_ret : MRet Act := λ A a w, Ended a w.
#[global] Instance Act_bind : MBind Act := λ A B k m w,
  match m w with
  | Ended a w' => k a w'
  | Failed f w' => Failed f w'
  end.

Definition failWith {A} (f : Failure) : Act A := λ w, Failed f w.

(** [try { m } catch (error) { h }] *)
Definition attempt {A} (m : Act A) (h : Failure → Act A) : Act A := λ w,
  match m w with
  | Ended a w' => Ended a w'
  | Failed f w' => h f w'
  end.

Definition reads {A} (f : World → A) : Act A := λ w, Ended (f w) w.
Definition change (f : World → World) : Act unit := λ w, Ended tt (f w).

(** A challenge operation run on the wider store. *)
Definition liftOp {A} (m : Op A) : Act A := λ w,
  match m (store w) with
  | Returned a s => Ended a (set_store (λ _, s) w)
  | Thrown e s => Failed (Message (messageOf e)) (set_store (λ _, s) w)
  end.

(** ** Values as conditions and field transforms on field maps *)

(** [if (v)] on a field value. *)
Definition truthyValue (v : Value) : bool :=
  match v with
  | VStr s => negb (String.eqb s "")
  | VNum n => negb (n =? 0)%Z
  | VTime _ => true
  | VBool b => b
  | VNull => false
  end.

(** [if (data.field)], the field being possibly absent. *)
Definition truthyField (field : option Value) : bool := from_option truthyValue false field.

(** A field used as a document id in [doc(db, collection, id)], which
    throws unless the id is a non-empty string. *)
Definition asDocId (field : option Value) : option string :=
  match field with
  | Some (VStr id) => JsString.truthy id
  | _ => None
  end.

(** [{ field: increment(delta) }] in an update: a field that holds no
    number is set to [delta]. *)
Definition incrementField (field : string) (delta : Z) (d : Doc) : Doc :=
  <[field := VNum (match d !! field with
                   | Some (VNum n) => saturate (n + delta)
                   | _ => delta
                   end)]> d.

(** [{ cardCount: increment(delta), updatedAt: serverTimestamp() }] *)
Definition countBy (delta t : Z) (d : Doc) : Doc :=
  <["updatedAt" := VTime t]> (incrementField "cardCount" delta d).

(** ** Write batches ([writeBatch], [batch.commit]) *)

Inductive DocRef :=
| CardRef (id : string)
| SharedCardRef (id : string)
| TopicRef (id : string)
| MyCardRef (userId id : string).

Inductive Write :=
| WSet (r : DocRef) (d : Doc)
| WUpdate (r : DocRef) (f : Doc → Doc)
| WDelete (r : DocRef).

Definition getRef (r : DocRef) (w : World) : option Doc :=
  match r with
  | CardRef id => cards (store w) !! id
  | SharedCardRef id => sharedCards (store w) !! id
  | TopicRef id => topics w !! id
  | MyCardRef userId id => default ∅ (myCards (store w) !! userId) !! id
  end.

Definition set_myCards (f : gmap string (gmap string Doc) → gmap string (gmap string Doc))
    (s : Store) : Store :=
  {| cards := cards s; sharedCards := sharedCards s; myCards := f (myCards s);
     challenges := challenges s; completedChallenges := completedChallenges s;
     users := users s; friendRequests := friendRequests s |}.

(** The writer of a collection, applied to the map change [f]. *)
Definition onRef (r : DocRef) (f : string → gmap string Doc → gmap string Doc)
    (w : World) : World :=
  match r with
  | CardRef id => set_store (set_cards (f id)) w
  | SharedCardRef id => set_store (set_sharedCards (f id)) w
  | TopicRef id => set_topics (f id) w
  | MyCardRef userId id =>
      set_store (set_myCards (λ m, <[userId := f id (default ∅ (m !! userId))]> m)) w
  end.

Definition applyWrite (w : World) (wr : Write) : World :=
  match wr with
  | WSet r d => onRef r (λ id, insert id d) w
  | WUpdate r f => onRef r (λ id, alter f id) w
  | WDelete r => onRef r (λ id, delete id) w
  end.

(** An update needs its document to exist. *)
Definition writable (w : World) (wr : Write) : bool :=
  match wr with
  | WUpdate r _ => bool_decide (is_Some (getRef r w))
  | _ => true
  end.

(** [batch.commit()]: all writes or none; it fails with [not-found] when
    an updated document does not exist. *)
Definition commit (writes : list Write) : Act unit := λ w,
  if forallb (writable w) writes then Ended tt (foldl applyWrite w writes)
  else Failed (StoreFailure "not-found") w.

(** ** Topics ([createTopic], [getTopic], [updateTopic], [deleteTopic]) *)

Record TopicInput := {
  ti_name : string;
  ti_description : string
}.

Definition newTopic (env : Env) (userId : string) (topicData : TopicInput) : Doc :=
  list_to_map
    [ ("name", VStr (ti_name topicData));
      ("description", VStr (JsString.orElse (ti_description topicData) ""));
      ("cardCount", VNum 0);
      ("userId", VStr userId);
      ("createdAt", VTime (serverTime env));
      ("updatedAt", VTime (serverTime env)) ].

Definition createTopic (env : Env) (topicData : TopicInput) : Act string :=
  attempt
    (userId ← liftOp (getCurrentUserId env);
     change (set_topics (insert (autoId env) (newTopic env userId topicData)));;
     mret (autoId env))
    (λ error, failWith (Prefixed "Failed to create topic: " error)).

Definition getTopic (env : Env) (topicId : string) : Act Doc :=
  attempt
    (userId ← liftOp (getCurrentUserId env);
     docSnap ← reads (λ w, topics w !! topicId);
     match docSnap with
     | Some topicData =>
         if decide (topicData !! "userId" = Some (VStr userId))
         then mret (withId (topicId, topicData))
         else failWith (Message "Access denied: This topic belongs to another user")
     | None => failWith (Message "Topic not found")
     end)
    (λ error, failWith (Prefixed "Failed to load topic: " error)).

Definition updateTopic (env : Env) (topicId : string) (updateData : Doc) : Act unit :=
  attempt
    (userId ← liftOp (getCurrentUserId env);
     topic ← getTopic env topicId;
     change (set_topics
               (alter (mergeFields (<["updatedAt" := VTime (serverTime env)]> updateData))
                      topicId)))
    (λ error, failWith (Prefixed "Failed to update topic: " error)).

(** The two [where] clauses of [cardsQuery] in [deleteTopic]. *)
Definition inTopicOf (topicId userId : string) (d : Doc) : Prop :=
  fieldIs "topicId" topicId d ∧ fieldIs "userId" userId d.

#[global] Instance inTopicOf_dec t u d : Decision (inTopicOf t u d).
Proof. unfold inTopicOf. apply _. Defined.

Definition deleteTopic (env : Env) (topicId : string) : Act unit :=
  attempt
    (userId ← liftOp (getCurrentUserId env);
     topic ← getTopic env topicId;
     cardsSnapshot ← reads (λ w, queryDocs (inTopicOf topicId userId) (cards (store w)));
     commit (((λ cardDoc, WDelete (CardRef cardDoc.1)) <$> cardsSnapshot)
             ++ [WDelete (TopicRef topicId)]))
    (λ error, failWith (Prefixed "Failed to delete topic: " error)).

(** ** Cards ([addCardWithTopic], [removeCardFromCollection],
    [deleteCard], [moveCardToTopic]) *)

(** The fields every new card has. *)
Definition newLegacyCard (env : Env) (userId vocabulary definition sentence imageUrl : string)
  : Doc :=
  list_to_map
    [ ("vocabulary", VStr vocabulary);
      ("definition", VStr definition);
      ("sentence", VStr sentence);
      ("imageUrl", VStr imageUrl);
      ("userId", VStr userId);
      ("createdAt", VTime (dateNow env));
      ("updatedAt", VTime (dateNow env)) ].

Definition addCardWithTopic (env : Env)
    (vocabulary definition sentence imageUrl : string) (topicId : option string)
  : Act string :=
  userId ← liftOp (getCurrentUserId env);
  match topicFilter topicId with
  | Some t => getTopic env t;; mret tt
  | None => mret tt
  end;;
  let cardRef := autoId env in
  let cardData := newLegacyCard env userId vocabulary definition sentence imageUrl in
  match topicFilter topicId with
  | Some t =>
      commit [ WSet (CardRef cardRef) (<["topicId" := VStr t]> cardData);
               WUpdate (TopicRef t) (countBy 1 (serverTime env)) ]
  | None => commit [ WSet (CardRef cardRef) cardData ]
  end;;
  mret cardRef.

(** The update of a counter document named by a field of the card, made
    only when the field is truthy and the document exists; naming a
    document by a value that is not a non-empty string throws. *)
Definition counterUpdate (field : option Value) (ref : string → DocRef)
    (f : Doc → Doc) : Act (list Write) :=
  if truthyField field then
    match asDocId field with
    | Some id =>
        snap ← reads (getRef (ref id));
        mret (match snap with Some _ => [WUpdate (ref id) f] | None => [] end)
    | None => failWith (StoreFailure "invalid-argument")
    end
  else mret [].

Definition removeCardFromCollection (env : Env) (cardId : string) : Act unit :=
  userId ← liftOp (getCurrentUserId env);
  userCardSnap ← reads (getRef (MyCardRef userId cardId));
  mainCardSnap ← reads (getRef (CardRef cardId));
  let userCardWrites :=
    match userCardSnap with Some _ => [WDelete (MyCardRef userId cardId)] | None => [] end in
  let mainCardWrites :=
    match userCardSnap, mainCardSnap with
    | None, Some cardData =>
        if decide (cardData !! "userId" = Some (VStr userId))
        then [WDelete (CardRef cardId)] else []
    | _, _ => []
    end in
  match (match userCardSnap with Some d => Some d | None => mainCardSnap end) with
  | None => mret tt
  | Some cardData =>
      sharedWrites ← counterUpdate (cardData !! "sharedCardId") SharedCardRef
                        (incrementField "userCount" (-1));
      topicWrites ← counterUpdate (cardData !! "topicId") TopicRef
                        (countBy (-1) (serverTime env));
      commit (userCardWrites ++ mainCardWrites ++ sharedWrites ++ topicWrites)
  end.

(** The legacy branch of [deleteCard], after the [try]/[catch]. *)
Definition deleteLegacyCard (env : Env) (userId cardId : string) : Act unit :=
  cardSnap ← reads (getRef (CardRef cardId));
  match cardSnap with
  | None => failWith (Message "Card not found")
  | Some cardData =>
      if decide (cardData !! "userId" = Some (VStr userId)) then
        if truthyField (cardData !! "topicId") then
          match asDocId (cardData !! "topicId") with
          | Some t => commit [ WDelete (CardRef cardId);
                               WUpdate (TopicRef t) (countBy (-1) (serverTime env)) ]
          | None => failWith (StoreFailure "invalid-argument")
          end
        else commit [ WDelete (CardRef cardId) ]
      else failWith (Message "Access denied: This card belongs to another user")
  end.

(** [deleteCard]: as in [updateCard], the [try] block returns from the
    function when [removeCardFromCollection] returns. *)
Definition deleteCard (env : Env) (cardId : string) : Act unit :=
  userId ← liftOp (getCurrentUserId env);
  attempt (removeCardFromCollection env cardId)
          (λ _, deleteLegacyCard env userId cardId).



(** ** Migration ([migrateUserData]) *)

(** The object [migrateUserData] returns. *)
Record MigrationReport := {
  mr_migratedCards : nat;
  mr_migratedTopics : nat;
  mr_userId : string
}.

(** The updates queued for the documents without a truthy [userId]. *)
Definition claimWrites (ref : string → DocRef) (userId : string) (stamp : Value)
    (docs : list (string * Doc)) : list Write :=
  (λ kv, WUpdate (ref kv.1)
           (mergeFields {[ "userId" := VStr userId; "updatedAt" := stamp ]}))
  <$> filter (λ kv, truthyField (kv.2 !! "userId") = false) docs.

Definition migrateUserData (env : Env) : Act MigrationReport :=
  match currentUser env with
  | None => failWith (Message "Authentication required. Please sign in first.")
  | Some user =>
      let userId := uid user in
      cardsSnapshot ← reads (λ w, map_to_list (cards (store w)));
      topicsSnapshot ← reads (λ w, map_to_list (topics w));
      let cardWrites := claimWrites CardRef userId (VTime (dateNow env)) cardsSnapshot in
      let topicWrites := claimWrites TopicRef userId (VTime (serverTime env)) topicsSnapshot in
      (if decide (0 < length cardWrites ∨ 0 < length topicWrites)%nat
       then commit (cardWrites ++ topicWrites) else mret tt);;
      mret {| mr_migratedCards := length cardWrites;
              mr_migratedTopics := length topicWrites;
              mr_userId := userId |}
  end.

(** ** Vocabulary of the further properties *)

(** Newest first: each element is at least as recent as the next one. *)
Definition newestFirst (l : list CompletedView) : Prop :=
  Sorted (λ a b, (completionTime b ≤ completionTime a)%Z) l.

(** ** Vocabulary of the properties of topics and cards *)

(** The number of cards filed under a topic. *)
Definition cardsIn (w : World) (topicId : string) : nat :=
  size (filter (λ kv, fieldIs "topicId" topicId kv.2) (cards (store w))).

(** The count a topic document holds is the number of cards filed under
    it. *)
Definition countConsistent (w : World) (topicId : string) : Prop :=
  ∀ d, topics w !! topicId = Some d →
       d !! "cardCount" = Some (VNum (Z.of_nat (cardsIn w topicId))).

(** A card as the card writers leave it: no [sharedCardId], and a
    [topicId] that is absent, [null] or a string. *)
Definition plainCard (c : Doc) : Prop :=
  c !! "sharedCardId" = None ∧
  (c !! "topicId" = None ∨ c !! "topicId" = Some VNull ∨
   ∃ t, c !! "topicId" = Some (VStr t)).

(** The topic a card is filed under, as [moveCardToTopic] and the delete
    paths read it: the [topicId] field when it is truthy and names a
    document. *)
Definition filedUnder (c : Doc) : option string :=
  if truthyField (c !! "topicId") then asDocId (c !! "topicId") else None.



(** A field that [doc(db, collection, field)] refuses: truthy, and not a
    string. *)
Definition malformedId (field : option Value) : Prop :=
  truthyField field = true ∧ asDocId field = None.

(** The document [removeCardFromCollection] takes its [cardData] from:
    the caller's reference under the id, or else the card under it. *)
Definition cardDataOf (userId cardId : string) (w : World) : option Doc :=
  match getRef (MyCardRef userId cardId) w with
  | Some d => Some d
  | None => getRef (CardRef cardId) w
  end.

(** A document as [migrateUserData] leaves it: one without a truthy
    [userId] gets the caller's and a new [updatedAt]. *)
Definition claimed (userId : string) (stamp : Value) (d : Doc) : Doc :=
  if truthyField (d !! "userId") then d
  else mergeFields {[ "userId" := VStr userId; "updatedAt" := stamp ]} d.

(** The number of documents of a collection without a truthy [userId]. *)
Definition unowned (docs : gmap string Doc) : nat :=
  size (filter (λ kv, truthyField (kv.2 !! "userId") = false) docs).


(** ** Concrete worlds used by the further examples *)

Module CatalogExamples.
Import Fixtures.

Definition fruitTopic : Doc :=
  list_to_map
    [ ("name", VStr "Fruit"); ("description", VStr ""); ("cardCount", VNum 1);
      ("userId", VStr "alice"); ("createdAt", VTime 1); ("updatedAt", VTime 1) ].

Definition animalTopic : Doc :=
  list_to_map
    [ ("name", VStr "Animals"); ("description", VStr ""); ("cardCount", VNum 0);
      ("userId", VStr "alice"); ("createdAt", VTime 2); ("updatedAt", VTime 2) ].

(** A card of alice filed under her topic [t1]. *)
Definition appleDoc : Doc :=
  list_to_map
    [ ("vocabulary", VStr "apple"); ("definition", VStr "a fruit");
      ("sentence", VStr ""); ("imageUrl", VStr ""); ("userId", VStr "alice");
      ("topicId", VStr "t1"); ("createdAt", VTime 1); ("updatedAt", VTime 1) ].

(** A card stored before cards had owners. *)
Definition pearDoc : Doc :=
  list_to_map [ ("vocabulary", VStr "pear"); ("definition", VStr "a fruit") ].

(** A card whose [topicId] is a number. *)
Definition oddDoc : Doc :=
  list_to_map
    [ ("vocabulary", VStr "plum"); ("definition", VStr "a fruit");
      ("userId", VStr "alice"); ("topicId", VNum 5) ].

Definition catalog : World :=
  {| store := set_cards (insert "c1" appleDoc) emptyStore;
     topics := {[ "t1" := fruitTopic; "t2" := animalTopic ]} |}.

Definition legacyCatalog : World := set_store (set_cards (insert "c0" pearDoc)) catalog.

Definition oddCatalog : World := set_store (set_cards (insert "c9" oddDoc)) catalog.

Definition appleInput : ChallengeInput :=
  {| ci_cardId := "card-1"; ci_vocabulary := "apple"; ci_definition := "a fruit";
     ci_sentence := ""; ci_imageUrl := ""; ci_pronunciation := ""; ci_topicId := "";
     ci_recipientIds := ["bob"; "carol"] |}.

Definition appleRequest : ShareRequest :=
  {| sr_card := appleCard; sr_senderId := "alice"; sr_recipientId := "bob";
     sr_addedFrom := "challenge" |}.

End CatalogExamples.

(** ** Tactics *)

(** Unfolds the monad of store operations in a goal. *)
Ltac run_op :=
  unfold mbind, Op_bind, mret, Op_ret, gets, modify, throw, tryCatch,
    getCurrentUserId; simpl.

(** Unfolds the monad of the wider store in a goal. *)
Ltac run_act :=
  unfold mbind, Act_bind, mret, Act_ret, reads, change, failWith, attempt; simpl.

(** * Properties *)

(** ** Running [completeChallenge] *)

Lemma eqb_bool_decide (a b : string) `{Hdec : !Decision (a = b)} :
  String.eqb a b = bool_decide (a = b).
Proof.
  destruct (String.eqb_spec a b) as [->|Hne].
  - by rewrite bool_decide_eq_true_2.
  - by rewrite bool_decide_eq_false_2.
Qed.

Lemma completeChallenge_found env u challengeId userAnswer s ch :
  currentUser env = Some u →
  challenges s !! challengeId = Some ch →
  completeChallenge env challengeId userAnswer s =
    Returned (gradeOf userAnswer ch)
             (afterComplete env (uid u) challengeId userAnswer ch s).
Proof.
  intros Hu Hch. unfold completeChallenge, afterComplete, gradeOf, recordOf, answerMatches.
  run_op. rewrite Hu. simpl. rewrite Hch. simpl.
  rewrite (eqb_bool_decide _ _ (Hdec := answerMatches_dec _ _)).
  destruct (users s !! uid u); reflexivity.
Qed.

Lemma completeChallenge_absent env u challengeId userAnswer s :
  currentUser env = Some u →
  challenges s !! challengeId = None →
  completeChallenge env challengeId userAnswer s = Thrown ChallengeNotFound s.
Proof.
  intros Hu Hch. unfold completeChallenge. run_op. rewrite Hu. simpl.
  by rewrite Hch.
Qed.

Lemma completeChallenge_unauthenticated env challengeId userAnswer s :
  currentUser env = None →
  completeChallenge env challengeId userAnswer s = Thrown NotAuthenticated s.
Proof. intros Hu. unfold completeChallenge. run_op. by rewrite Hu. Qed.

Lemma afterComplete_challenges env userId challengeId userAnswer ch s :
  challenges s !! challengeId = Some ch →
  challenges (afterComplete env userId challengeId userAnswer ch s) =
    <[challengeId :=
        updateRecipients
          (map (markCompleted userId (score (gradeOf userAnswer ch)) userAnswer
                  (dateNow env)) (ch_recipients ch))
          (serverTime env) ch]> (challenges s).
Proof.
  intros Hch. unfold afterComplete.
  assert (∀ f, alter f challengeId (challenges s) = <[challengeId := f ch]> (challenges s))
    as Halter.
  { intros f. apply map_eq. intros j. rewrite lookup_alter, lookup_insert.
    destruct (decide (challengeId = j)) as [<-|]; [by rewrite Hch | done]. }
  destruct (users s !! userId); simpl; apply Halter.
Qed.

Lemma afterComplete_completed env userId challengeId userAnswer ch s :
  completedChallenges (afterComplete env userId challengeId userAnswer ch s) =
    setCompleted userId (autoId env) (recordOf env challengeId userAnswer ch)
      (completedChallenges s).
Proof. unfold afterComplete. by destruct (users s !! userId). Qed.

Lemma afterComplete_users env userId challengeId userAnswer ch s :
  users (afterComplete env userId challengeId userAnswer ch s) =
    alter (settleChallengeInUser challengeId) userId (users s).
Proof.
  unfold afterComplete. destruct (users s !! userId) eqn:Hu; simpl; [done|].
  apply map_eq. intros j. rewrite lookup_alter.
  destruct (decide (userId = j)) as [<-|]; [by rewrite Hu | done].
Qed.

Lemma afterComplete_frame env userId challengeId userAnswer ch s :
  let s' := afterComplete env userId challengeId userAnswer ch s in
  cards s' = cards s ∧ sharedCards s' = sharedCards s ∧ myCards s' = myCards s ∧
  friendRequests s' = friendRequests s.
Proof. unfold afterComplete. by destruct (users s !! userId). Qed.

(** ** Grading and completion *)

Example grade_apple :
  gradeOf "  Apple  " Fixtures.appleChallenge =
    {| isCorrect := true; score := 100; correctAnswer := "apple" |}.
Proof. reflexivity. Qed.

Example grade_banana :
  gradeOf "banana" Fixtures.appleChallenge =
    {| isCorrect := false; score := 0; correctAnswer := "apple" |}.
Proof. reflexivity. Qed.

Lemma lowerCodeUnit_idemp c :
  JsString.lowerCodeUnit (JsString.lowerCodeUnit c) = JsString.lowerCodeUnit c.
Proof. destruct c as [[] [] [] [] [] [] [] []]; reflexivity. Qed.

Lemma toLowerCase_idemp s :
  JsString.toLowerCase (JsString.toLowerCase s) = JsString.toLowerCase s.
Proof. induction s as [|c r IH]; simpl; [done|]. by rewrite lowerCodeUnit_idemp, IH. Qed.

(** The grade does not depend on the case of the answer. *)
Lemma answerMatches_case userAnswer vocabulary :
  answerMatches (JsString.toLowerCase userAnswer) vocabulary ↔
  answerMatches userAnswer vocabulary.
Proof. unfold answerMatches. by rewrite toLowerCase_idemp. Qed.

Lemma isWhiteSpace_lower c :
  JsString.isWhiteSpace (JsString.lowerCodeUnit c) = JsString.isWhiteSpace c.
Proof. destruct c as [[] [] [] [] [] [] [] []]; reflexivity. Qed.

Lemma toLowerCase_app a b :
  JsString.toLowerCase (a ++ b) = JsString.toLowerCase a ++ JsString.toLowerCase b.
Proof. induction a as [|c a IH]; simpl; [done|]. by rewrite IH. Qed.

Lemma trimEnd_app_ws s c :
  JsString.isWhiteSpace c = true →
  JsString.trimEnd (s ++ String c "") = JsString.trimEnd s.
Proof.
  intros Hc. induction s as [|a s IH]; simpl.
  - by rewrite Hc.
  - by rewrite IH.
Qed.

Lemma trim_app_ws s c :
  JsString.isWhiteSpace c = true →
  JsString.trim (s ++ String c "") = JsString.trim s.
Proof.
  intros Hc. unfold JsString.trim. induction s as [|a s IH]; simpl.
  - by rewrite Hc.
  - destruct (JsString.isWhiteSpace a); [done|].
    change (String a (s ++ String c "")) with (String a s ++ String c "").
    by apply trimEnd_app_ws.
Qed.

(** The grade does not depend on white space before the answer ... *)
Lemma answerMatches_leading_ws c userAnswer vocabulary :
  JsString.isWhiteSpace c = true →
  answerMatches (String c userAnswer) vocabulary ↔ answerMatches userAnswer vocabulary.
Proof.
  intros Hc. unfold answerMatches, JsString.trim. simpl.
  by rewrite isWhiteSpace_lower, Hc.
Qed.

(** ... nor on white space after it. *)
Lemma answerMatches_trailing_ws c userAnswer vocabulary :
  JsString.isWhiteSpace c = true →
  answerMatches (userAnswer ++ String c "") vocabulary ↔
  answerMatches userAnswer vocabulary.
Proof.
  intros Hc. unfold answerMatches. rewrite toLowerCase_app. simpl.
  rewrite trim_app_ws; [done|]. by rewrite isWhiteSpace_lower.
Qed.

(** ** The grading expression is the match of the specification *)

Lemma isWhiteSpace_blank c : JsString.isWhiteSpace c = true ↔ blank c.
Proof.
  assert (bool_decide (blank c) = JsString.isWhiteSpace c) as <-
    by (destruct c as [[] [] [] [] [] [] [] []]; reflexivity).
  apply bool_decide_eq_true.
Qed.

Lemma not_blank c : JsString.isWhiteSpace c = false ↔ ¬ blank c.
Proof. rewrite <- isWhiteSpace_blank. by destruct (JsString.isWhiteSpace c). Qed.

Lemma nat_of_ascii_inj a b : nat_of_ascii a = nat_of_ascii b → a = b.
Proof. intros H. by rewrite <- (ascii_nat_embedding a), H, ascii_nat_embedding. Qed.

Lemma nat_of_lowerCodeUnit c :
  (capitalCode (nat_of_ascii c) ∧
   nat_of_ascii (JsString.lowerCodeUnit c) = (nat_of_ascii c + 32)%nat) ∨
  (¬ capitalCode (nat_of_ascii c) ∧
   nat_of_ascii (JsString.lowerCodeUnit c) = nat_of_ascii c).
Proof.
  unfold capitalCode.
  destruct c as [[] [] [] [] [] [] [] []]; vm_compute; first [left; lia | right; lia].
Qed.

Lemma lowerCodeUnit_sameLetter a b :
  JsString.lowerCodeUnit a = JsString.lowerCodeUnit b ↔ sameLetter a b.
Proof.
  assert (JsString.lowerCodeUnit a = JsString.lowerCodeUnit b ↔
          nat_of_ascii (JsString.lowerCodeUnit a) =
          nat_of_ascii (JsString.lowerCodeUnit b)) as ->
    by (split; [by intros ->|apply nat_of_ascii_inj]).
  unfold sameLetter, smallLetterOf.
  assert (a = b ↔ nat_of_ascii a = nat_of_ascii b) as ->
    by (split; [by intros ->|apply nat_of_ascii_inj]).
  destruct (nat_of_lowerCodeUnit a) as [[Ha ->]|[Ha ->]],
           (nat_of_lowerCodeUnit b) as [[Hb ->]|[Hb ->]];
    unfold capitalCode in *; lia.
Qed.

Lemma toLowerCase_sameUpToCase s t :
  JsString.toLowerCase s = JsString.toLowerCase t ↔ sameUpToCase s t.
Proof.
  split.
  - revert t. induction s as [|a s IH]; intros [|b t]; simpl; try done.
    + constructor.
    + intros [= Hab Hst]. constructor; [by apply lowerCodeUnit_sameLetter|by apply IH].
  - induction 1 as [|a b s t Hab _ IH]; simpl; [done|].
    apply lowerCodeUnit_sameLetter in Hab. by rewrite Hab, IH.
Qed.

Lemma trimStart_lower s :
  JsString.trimStart (JsString.toLowerCase s) = JsString.toLowerCase (JsString.trimStart s).
Proof.
  induction s as [|c r IH]; simpl; [done|].
  rewrite isWhiteSpace_lower. by destruct (JsString.isWhiteSpace c).
Qed.

Lemma trimEnd_lower s :
  JsString.trimEnd (JsString.toLowerCase s) = JsString.toLowerCase (JsString.trimEnd s).
Proof.
  induction s as [|c r IH]; simpl; [done|].
  rewrite IH, isWhiteSpace_lower.
  destruct (JsString.trimEnd r); simpl; [|done].
  by destruct (JsString.isWhiteSpace c).
Qed.

Lemma trim_lower s :
  JsString.trim (JsString.toLowerCase s) = JsString.toLowerCase (JsString.trim s).
Proof. unfold JsString.trim. by rewrite trimStart_lower, trimEnd_lower. Qed.

Lemma append_cons c s t : String c s ++ t = String c (s ++ t).
Proof. reflexivity. Qed.

Lemma append_nil_l t : "" ++ t = t.
Proof. reflexivity. Qed.

Lemma trimStart_split s :
  ∃ before, s = before ++ JsString.trimStart s ∧ allBlank before.
Proof.
  induction s as [|c r (before & Hr & Hb)]; simpl.
  - by exists "".
  - destruct (JsString.isWhiteSpace c) eqn:Hc.
    + exists (String c before). split; [rewrite append_cons; congruence|].
      split; [by apply isWhiteSpace_blank|done].
    + by exists "".
Qed.

Lemma trimEnd_split s :
  ∃ after, s = JsString.trimEnd s ++ after ∧ allBlank after.
Proof.
  induction s as [|c r (after & Hr & Hb)]; simpl.
  - by exists "".
  - destruct (JsString.trimEnd r) as [|c' r'] eqn:Ht.
    + rewrite append_nil_l in Hr. subst after.
      destruct (JsString.isWhiteSpace c) eqn:Hc.
      * exists (String c r). split; [done|]. split; [by apply isWhiteSpace_blank|done].
      * by exists r.
    + exists after. rewrite append_cons. by rewrite <- Hr.
Qed.

Lemma trimStart_head s c r : JsString.trimStart s = String c r → ¬ blank c.
Proof.
  induction s as [|a s IH]; simpl; [done|].
  destruct (JsString.isWhiteSpace a) eqn:Ha; [done|].
  intros [= -> _]. by apply not_blank.
Qed.

Lemma trimEnd_head s c r :
  JsString.trimEnd s = String c r → ∃ r', s = String c r'.
Proof.
  destruct s as [|a s]; simpl; [done|].
  destruct (JsString.trimEnd s).
  - destruct (JsString.isWhiteSpace a); [done|]. intros [= -> _]. eauto.
  - intros [= -> _]. eauto.
Qed.

Lemma trimEnd_last s r c : JsString.trimEnd s = r ++ String c "" → ¬ blank c.
Proof.
  revert r. induction s as [|a s IH]; intros r; simpl.
  - by destruct r.
  - destruct (JsString.trimEnd s) as [|c' r'] eqn:Ht.
    + destruct (JsString.isWhiteSpace a) eqn:Ha; [by destruct r|].
      destruct r as [|b [|b' r]]; simpl; try done.
      intros [= ->]. by apply not_blank.
    + destruct r as [|b r]; simpl; [done|].
      intros [= _ Hr]. by apply (IH r).
Qed.

Lemma trimStart_blank s t : allBlank s → JsString.trimStart (s ++ t) = JsString.trimStart t.
Proof.
  induction s as [|c r IH]; simpl; [done|].
  intros [Hc Hr]. apply isWhiteSpace_blank in Hc. rewrite Hc. by apply IH.
Qed.

Lemma trimStart_all_blank t : allBlank t → JsString.trimStart t = "".
Proof.
  induction t as [|c r IH]; simpl; [done|].
  intros [Hc Hr]. apply isWhiteSpace_blank in Hc. rewrite Hc. by apply IH.
Qed.

Lemma trimEnd_blank t : allBlank t → JsString.trimEnd t = "".
Proof.
  induction t as [|c r IH]; simpl; [done|].
  intros [Hc Hr]. apply isWhiteSpace_blank in Hc. by rewrite IH, Hc.
Qed.

Lemma trimEnd_app_blank s t : allBlank t → JsString.trimEnd (s ++ t) = JsString.trimEnd s.
Proof.
  intros Ht. induction s as [|c r IH]; simpl.
  - by apply trimEnd_blank.
  - by rewrite IH.
Qed.

Lemma trimEnd_unpadded s :
  (∀ r c, s = r ++ String c "" → ¬ blank c) → JsString.trimEnd s = s.
Proof.
  induction s as [|a s IH]; simpl; [done|].
  intros Hlast. destruct s as [|b s].
  - simpl. destruct (JsString.isWhiteSpace a) eqn:Ha; [|done].
    exfalso. apply (Hlast "" a); [done|]. by apply isWhiteSpace_blank.
  - rewrite IH; [done|].
    intros r c Hr. apply (Hlast (String a r) c). rewrite append_cons. by rewrite <- Hr.
Qed.

(** The string functions of the code strip a string to its core, and to
    nothing else. *)
Lemma trim_strippedTo s core : strippedTo s core ↔ JsString.trim s = core.
Proof.
  split.
  - intros (before & after & -> & Hb & Ha & Hhead & Hlast).
    unfold JsString.trim. rewrite trimStart_blank by done.
    destruct core as [|c r].
    + rewrite append_nil_l. by rewrite trimStart_all_blank.
    + rewrite append_cons. cbn [JsString.trimStart].
      assert (JsString.isWhiteSpace c = false) as ->
        by (apply not_blank; by eapply Hhead).
      rewrite <- append_cons.
      rewrite trimEnd_app_blank by done. by apply trimEnd_unpadded.
  - intros <-. unfold JsString.trim.
    destruct (trimStart_split s) as (before & Hs & Hb).
    destruct (trimEnd_split (JsString.trimStart s)) as (after & Ht & Ha).
    exists before, after. split; [by rewrite <- Ht|]. split; [done|]. split; [done|].
    split.
    + intros c r Hcore. apply trimEnd_head in Hcore as (r' & Hcore).
      by eapply trimStart_head.
    + intros r c Hcore. by eapply trimEnd_last.
Qed.

(** The comparison [completeChallenge] computes is the match of the
    specification. *)
Lemma answerMatches_spec userAnswer vocabulary :
  answerMatches userAnswer vocabulary ↔
  matchesIgnoringCaseAndPadding userAnswer vocabulary.
Proof.
  unfold answerMatches, matchesIgnoringCaseAndPadding.
  rewrite !trim_lower, toLowerCase_sameUpToCase. split.
  - intros Hsame. exists (JsString.trim userAnswer), (JsString.trim vocabulary).
    split; [by apply trim_strippedTo|]. split; [by apply trim_strippedTo|done].
  - intros (a & v & Ha & Hv & Hsame).
    apply trim_strippedTo in Ha, Hv. by rewrite Ha, Hv.
Qed.

Lemma markCompleted_completedFrom userId res userAnswer t (l : list Recipient) :
  Forall2 (completedFrom userId res userAnswer t) l
          (map (markCompleted userId (score res) userAnswer t) l).
Proof.
  induction l as [|r l IH]; simpl; constructor; [|done].
  unfold completedFrom, markCompleted. destruct (decide (r_userId r = userId)); naive_solver.
Qed.

(** C1. For a stored challenge, [completeChallenge] grades the answer by
    case-insensitive, whitespace-trimmed exact match with the embedded
    vocabulary: the answer is correct exactly when the two, without the
    white space around them, are the same up to the case of their
    letters. It scores 100 or 0, returns the triple with the vocabulary
    as correct answer, and sets every entry of the caller to [completed]
    with the score, the answer and the completion time, whether or not
    the answer was correct; entries of other recipients are unchanged.
    When the challenge is absent it throws 'Challenge not found', a
    NotFoundError. *)
Theorem completeChallenge_grades_and_marks env u challengeId userAnswer s :
  currentUser env = Some u →
  (∀ ch, challenges s !! challengeId = Some ch →
     ∃ res s' ch',
       completeChallenge env challengeId userAnswer s = Returned res s' ∧
       (isCorrect res = true ↔
        matchesIgnoringCaseAndPadding userAnswer (cc_vocabulary (ch_card ch))) ∧
       score res = (if isCorrect res then 100 else 0) ∧
       correctAnswer res = cc_vocabulary (ch_card ch) ∧
       challenges s' !! challengeId = Some ch' ∧
       Forall2 (completedFrom (uid u) res userAnswer (dateNow env))
               (ch_recipients ch) (ch_recipients ch')) ∧
  (challenges s !! challengeId = None →
     completeChallenge env challengeId userAnswer s = Thrown ChallengeNotFound s ∧
     errorKind ChallengeNotFound = NotFoundError).
Proof.
  intros Hu. split.
  - intros ch Hch. eexists _, _, _. split; [by apply completeChallenge_found|].
    split.
    { rewrite <- answerMatches_spec. unfold gradeOf. simpl. apply bool_decide_eq_true. }
    split; [done|]. split; [done|].
    rewrite afterComplete_challenges by done. rewrite lookup_insert_eq.
    split; [done|]. simpl. apply markCompleted_completedFrom.
  - intros Hch. split; [by eapply completeChallenge_absent | done].
Qed.

Lemma completeChallenge_grades_and_marks_witness :
  (∃ s' ch',
     completeChallenge (Fixtures.envOf Fixtures.bob 1000 "rec1") "ch1" "  Apple  "
         Fixtures.challengeStore =
       Returned {| isCorrect := true; score := 100; correctAnswer := "apple" |} s' ∧
     challenges s' !! "ch1" = Some ch' ∧
     r_status <$> ch_recipients ch' = [completed; pending]) ∧
  (∃ s' ch',
     completeChallenge (Fixtures.envOf Fixtures.bob 1000 "rec1") "ch1" "banana"
         Fixtures.challengeStore =
       Returned {| isCorrect := false; score := 0; correctAnswer := "apple" |} s' ∧
     challenges s' !! "ch1" = Some ch' ∧
     r_status <$> ch_recipients ch' = [completed; pending]).
Proof.
  split.
  - destruct (proj1 (completeChallenge_grades_and_marks
                       (Fixtures.envOf Fixtures.bob 1000 "rec1") Fixtures.bob "ch1"
                       "  Apple  " Fixtures.challengeStore eq_refl)
                    Fixtures.appleChallenge eq_refl)
      as (res & s' & ch' & Hrun & Hok & Hscore & Hans & Hch' & Hall).
    exists s', ch'. split; [|split; [exact Hch'|]].
    + rewrite Hrun. f_equal. destruct res as [ok sc ans]. simpl in *.
      assert (ok = true) as ->.
      { apply Hok. apply answerMatches_spec. reflexivity. }
      by rewrite Hscore, Hans.
    + simpl in Hall.
      apply Forall2_cons_inv_l in Hall as (r1 & l1 & H1 & Hall & ->).
      apply Forall2_cons_inv_l in Hall as (r2 & l2 & H2 & Hall & ->).
      apply Forall2_nil_inv_l in Hall as ->.
      unfold completedFrom in H1, H2. simpl in H1, H2.
      destruct H1 as (_ & Hst & _). rewrite H2. simpl. by rewrite Hst.
  - destruct (proj1 (completeChallenge_grades_and_marks
                       (Fixtures.envOf Fixtures.bob 1000 "rec1") Fixtures.bob "ch1"
                       "banana" Fixtures.challengeStore eq_refl)
                    Fixtures.appleChallenge eq_refl)
      as (res & s' & ch' & Hrun & Hok & Hscore & Hans & Hch' & Hall).
    exists s', ch'. split; [|split; [exact Hch'|]].
    + rewrite Hrun. f_equal. destruct res as [ok sc ans]. simpl in *.
      assert (ok = false) as ->.
      { destruct ok; [|done]. exfalso.
        assert (answerMatches "banana" "apple") as Hm
          by (apply answerMatches_spec; by apply Hok).
        vm_compute in Hm. discriminate Hm. }
      by rewrite Hscore, Hans.
    + simpl in Hall.
      apply Forall2_cons_inv_l in Hall as (r1 & l1 & H1 & Hall & ->).
      apply Forall2_cons_inv_l in Hall as (r2 & l2 & H2 & Hall & ->).
      apply Forall2_nil_inv_l in Hall as ->.
      unfold completedFrom in H1, H2. simpl in H1, H2.
      destruct H1 as (_ & Hst & _). rewrite H2. simpl. by rewrite Hst.
Defined.

(** ** Recipient-entry transitions *)

Lemma rejectChallenge_found env u challengeId s ch :
  currentUser env = Some u →
  challenges s !! challengeId = Some ch →
  rejectChallenge env challengeId s =
    Returned tt
      (set_challenges
         (alter (updateRecipients
                   (map (markRejected (uid u) (dateNow env)) (ch_recipients ch))
                   (serverTime env)) challengeId) s).
Proof.
  intros Hu Hch. unfold rejectChallenge. run_op. rewrite Hu. simpl. by rewrite Hch.
Qed.

Lemma rejectChallenge_absent env u challengeId s :
  currentUser env = Some u →
  challenges s !! challengeId = None →
  rejectChallenge env challengeId s = Thrown ChallengeNotFound s.
Proof.
  intros Hu Hch. unfold rejectChallenge. run_op. rewrite Hu. simpl. by rewrite Hch.
Qed.

Lemma markRejected_rejectedFrom userId t (l : list Recipient) :
  Forall2 (rejectedFrom userId t) l (map (markRejected userId t) l).
Proof.
  induction l as [|r l IH]; simpl; constructor; [|done].
  unfold rejectedFrom, markRejected. destruct (decide (r_userId r = userId)); naive_solver.
Qed.

Section TransitionChecks.
Import Fixtures TransitionExamples.

Example completedStore_entry :
  ch_recipients <$> challenges completedStore !! "ch1" =
    Some [ {| r_userId := "bob"; r_status := completed; r_score := Some 100;
              r_userAnswer := Some "apple"; r_completedAt := Some 1000;
              r_notified := true |};
           pendingEntry "carol" ].
Proof. vm_compute. reflexivity. Qed.

Example reject_after_complete :
  ch_recipients <$>
    challenges (finalStore (rejectChallenge (envOf bob 2000 "rec2") "ch1" completedStore))
      !! "ch1" =
    Some [ {| r_userId := "bob"; r_status := rejected; r_score := Some 100;
              r_userAnswer := Some "apple"; r_completedAt := Some 2000;
              r_notified := true |};
           pendingEntry "carol" ].
Proof. vm_compute. reflexivity. Qed.

End TransitionChecks.

(** C3, as claimed, fails: a [rejectChallenge] by bob after his completion
    turns his [completed] entry into [rejected], and a [completeChallenge]
    by bob after his rejection turns his [rejected] entry into [completed]. *)
Lemma terminal_entries_overwritten :
  ¬ terminalEntriesKept
      (rejectChallenge (Fixtures.envOf Fixtures.bob 2000 "rec2") "ch1")
      "bob" "ch1" TransitionExamples.completedStore ∧
  ¬ terminalEntriesKept
      (completeChallenge (Fixtures.envOf Fixtures.bob 2000 "rec2") "ch1" "pear")
      "bob" "ch1" TransitionExamples.rejectedStore.
Proof.
  split; intros Hkept.
  - destruct (Hkept _ 0%nat _ eq_refl eq_refl eq_refl (or_introl eq_refl))
      as (ch' & Hch' & Hr).
    vm_compute in Hch'. injection Hch' as <-. discriminate Hr.
  - destruct (Hkept _ 0%nat _ eq_refl eq_refl eq_refl (or_intror eq_refl))
      as (ch' & Hch' & Hr).
    vm_compute in Hch'. injection Hch' as <-. discriminate Hr.
Qed.

(** C3, amended. On a stored challenge, [rejectChallenge] returns and sets
    every entry of the caller to [rejected], and [completeChallenge]
    returns and sets every entry of the caller to [completed], whatever
    the status of the entry was before, pending or terminal; the entries
    of the other recipients are unchanged. [rejectChallenge] throws
    'Challenge not found' exactly when the challenge is absent. *)
Theorem challenge_calls_set_status env u challengeId s :
  currentUser env = Some u →
  (∀ ch, challenges s !! challengeId = Some ch →
     (∃ s' ch',
        rejectChallenge env challengeId s = Returned tt s' ∧
        challenges s' !! challengeId = Some ch' ∧
        Forall2 (rejectedFrom (uid u) (dateNow env))
                (ch_recipients ch) (ch_recipients ch')) ∧
     (∀ userAnswer, ∃ res s' ch',
        completeChallenge env challengeId userAnswer s = Returned res s' ∧
        challenges s' !! challengeId = Some ch' ∧
        Forall2 (completedFrom (uid u) res userAnswer (dateNow env))
                (ch_recipients ch) (ch_recipients ch'))) ∧
  (challenges s !! challengeId = None ↔
   rejectChallenge env challengeId s = Thrown ChallengeNotFound s).
Proof.
  intros Hu. split.
  - intros ch Hch. split.
    + eexists _, _. split; [by apply rejectChallenge_found|]. simpl.
      rewrite lookup_alter, decide_True, Hch by done. simpl.
      split; [done|]. simpl. apply markRejected_rejectedFrom.
    + intros userAnswer. eexists _, _, _.
      split; [by apply completeChallenge_found|].
      rewrite afterComplete_challenges by done. rewrite lookup_insert_eq.
      split; [done|]. simpl. apply markCompleted_completedFrom.
  - split; [by eapply rejectChallenge_absent|].
    intros Hthrown. destruct (challenges s !! challengeId) as [ch|] eqn:Hch; [|done].
    by rewrite (rejectChallenge_found _ _ _ _ _ Hu Hch) in Hthrown.
Qed.

Lemma challenge_calls_set_status_witness :
  ∃ s' ch',
    rejectChallenge (Fixtures.envOf Fixtures.bob 2000 "rec2") "ch1"
        TransitionExamples.completedStore = Returned tt s' ∧
    challenges s' !! "ch1" = Some ch' ∧
    r_status <$> ch_recipients ch' = [rejected; pending].
Proof.
  destruct (challenges TransitionExamples.completedStore !! "ch1") as [ch|] eqn:Hch;
    [|vm_compute in Hch; discriminate Hch].
  destruct (proj1 (proj1 (challenge_calls_set_status
                     (Fixtures.envOf Fixtures.bob 2000 "rec2") Fixtures.bob "ch1"
                     TransitionExamples.completedStore eq_refl) ch Hch))
    as (s' & ch' & Hrun & Hch' & Hall).
  exists s', ch'. split; [exact Hrun|]. split; [exact Hch'|].
  vm_compute in Hch. injection Hch as <-. simpl in Hall.
  apply Forall2_cons_inv_l in Hall as (r1 & l1 & H1 & Hall & ->).
  apply Forall2_cons_inv_l in Hall as (r2 & l2 & H2 & Hall & ->).
  apply Forall2_nil_inv_l in Hall as ->.
  unfold rejectedFrom in H1, H2. simpl in H1, H2.
  destruct H1 as (_ & Hst & _). rewrite H2. simpl. by rewrite Hst.
Defined.

(** ** Frame of [completeChallenge] *)

(** C4. Whatever the outcome of a [completeChallenge] call, the
    [sharedCards] collection, the [myCards] references of every user and
    the [cards] collection are exactly what they were before the call. *)
Theorem completeChallenge_creates_no_card env challengeId userAnswer s :
  let s' := finalStore (completeChallenge env challengeId userAnswer s) in
  sharedCards s' = sharedCards s ∧ myCards s' = myCards s ∧ cards s' = cards s.
Proof.
  destruct (currentUser env) as [u|] eqn:Hu.
  - destruct (challenges s !! challengeId) as [ch|] eqn:Hch.
    + rewrite (completeChallenge_found _ _ _ _ _ _ Hu Hch). simpl.
      pose proof (afterComplete_frame env (uid u) challengeId userAnswer ch s) as Hf.
      simpl in Hf. destruct Hf as (Hc & Hs & Hm & _). done.
    + by rewrite (completeChallenge_absent _ _ _ _ _ Hu Hch).
  - by rewrite (completeChallenge_unauthenticated _ _ _ _ Hu).
Qed.

(** ** The caller's user document *)

(** C10. A [completeChallenge] call that finds the challenge returns, and
    when the caller's user document exists it is rewritten with the
    challenge id removed from [pendingChallenges] and present in
    [completedChallenges], every other id of the two arrays and every
    other field being kept; when the caller has no user document the call
    returns all the same and the [users] collection is unchanged. *)
Theorem completeChallenge_settles_user_document env u challengeId userAnswer s ch :
  currentUser env = Some u →
  challenges s !! challengeId = Some ch →
  ∃ res s',
    completeChallenge env challengeId userAnswer s = Returned res s' ∧
    (∀ d, users s !! uid u = Some d →
       ∃ d' pend fin,
         users s' = <[uid u := d']> (users s) ∧
         u_pendingChallenges d' = Some pend ∧
         u_completedChallenges d' = Some fin ∧
         (challengeId ∉ pend) ∧
         (∀ x, x ≠ challengeId →
               (x ∈ pend ↔ x ∈ default [] (u_pendingChallenges d))) ∧
         challengeId ∈ fin ∧
         (∀ x, x ≠ challengeId →
               (x ∈ fin ↔ x ∈ default [] (u_completedChallenges d))) ∧
         u_email d' = u_email d ∧ u_displayName d' = u_displayName d ∧
         u_totalXP d' = u_totalXP d ∧ u_friends d' = u_friends d ∧
         u_createdAt d' = u_createdAt d ∧ u_updatedAt d' = u_updatedAt d) ∧
    (users s !! uid u = None → users s' = users s).
Proof.
  intros Hu Hch. eexists _, _. split; [by apply completeChallenge_found|].
  rewrite afterComplete_users. split.
  - intros d Hd. eexists (settleChallengeInUser challengeId d), _, _.
    split.
    { apply map_eq. intros j. rewrite lookup_alter, lookup_insert.
      destruct (decide (uid u = j)) as [<-|]; [by rewrite Hd | done]. }
    simpl. unfold arrayRemove, arrayUnion.
    split; [done|]. split; [done|].
    split. { rewrite list_elem_of_filter. intros [Hne _]. by apply Hne. }
    split. { intros x Hx. rewrite list_elem_of_filter. split; [by intros [_ ?] | done]. }
    split. { case_decide; [done|]. rewrite elem_of_app, list_elem_of_singleton. by right. }
    split; [|done].
    intros x Hx. case_decide; [done|].
    rewrite elem_of_app, list_elem_of_singleton.
    split; [by intros [?| ->] | by left].
  - intros Hd. apply map_eq. intros j. rewrite lookup_alter.
    destruct (decide (uid u = j)) as [<-|]; [by rewrite Hd | done].
Qed.

Lemma completeChallenge_settles_user_document_witness :
  ∃ res s' d',
    completeChallenge (Fixtures.envOf Fixtures.bob 1000 "rec1") "ch1" "apple"
        Fixtures.challengeStore = Returned res s' ∧
    users s' = <["bob" := d']> (users Fixtures.challengeStore) ∧
    ¬ "ch1" ∈ default [] (u_pendingChallenges d') ∧
    "ch0" ∈ default [] (u_pendingChallenges d') ∧
    "ch1" ∈ default [] (u_completedChallenges d').
Proof.
  destruct (completeChallenge_settles_user_document
              (Fixtures.envOf Fixtures.bob 1000 "rec1") Fixtures.bob "ch1" "apple"
              Fixtures.challengeStore Fixtures.appleChallenge eq_refl eq_refl)
    as (res & s' & Hrun & Hsome & _).
  destruct (Hsome Fixtures.bobDoc eq_refl)
    as (d' & pend & fin & Hus & Hp & Hc & Hnot & Hkeep & Hin & _).
  exists res, s', d'. split; [exact Hrun|]. split; [exact Hus|].
  rewrite Hp, Hc. simpl. split; [exact Hnot|]. split; [|exact Hin].
  apply Hkeep; [discriminate|]. simpl. apply list_elem_of_here.
Defined.

(** ** Completed-challenge records *)

Section RecordChecks.
Import Fixtures RecordExamples.

Example twice_records :
  (cd_challengeId <$> recordsOf twice "bob") = {["rec1" := "ch1"; "rec2" := "ch1"]}.
Proof. vm_compute. reflexivity. Qed.

End RecordChecks.

(** C7, as claimed, fails: bob completes the same challenge twice, both
    calls return, and his [completedChallenges] then hold two records of
    that challenge. *)
Lemma repeated_completion_adds_record :
  (∃ res s', completeChallenge (Fixtures.envOf Fixtures.bob 2000 "rec2") "ch1" "apple"
               RecordExamples.once = Returned res s') ∧
  atMostOneRecord RecordExamples.once "bob" "ch1" ∧
  ¬ atMostOneRecord RecordExamples.twice "bob" "ch1".
Proof.
  split; [|split].
  - eexists _, _. vm_compute. reflexivity.
  - unfold atMostOneRecord. vm_compute. lia.
  - unfold atMostOneRecord.
    assert (size (recordsFor RecordExamples.twice "bob" "ch1") = 2%nat) as ->
      by (vm_compute; reflexivity).
    lia.
Qed.

(** C7, amended. Every [completeChallenge] call that finds the challenge
    writes one new record under the identifier drawn for it, with the
    score and correctness of that answer whether right or wrong; the
    records already stored for the caller are kept as they are, those of
    other users are untouched, and the number of the caller's records of
    that challenge grows by one with each such call. *)
Theorem completeChallenge_appends_record env u challengeId userAnswer s ch :
  currentUser env = Some u →
  challenges s !! challengeId = Some ch →
  recordsOf s (uid u) !! autoId env = None →
  ∃ res s' rec,
    completeChallenge env challengeId userAnswer s = Returned res s' ∧
    recordsOf s' (uid u) = <[autoId env := rec]> (recordsOf s (uid u)) ∧
    cd_challengeId rec = challengeId ∧
    cd_userAnswer rec = userAnswer ∧
    cd_userScore rec = score res ∧
    cd_isCorrect rec = isCorrect res ∧
    (∀ id r, recordsOf s (uid u) !! id = Some r → recordsOf s' (uid u) !! id = Some r) ∧
    (∀ v, v ≠ uid u → recordsOf s' v = recordsOf s v) ∧
    size (recordsFor s' (uid u) challengeId) =
      S (size (recordsFor s (uid u) challengeId)).
Proof.
  intros Hu Hch Hfresh.
  eexists _, _, (recordOf env challengeId userAnswer ch).
  split; [by apply completeChallenge_found|].
  assert (∀ v, recordsOf (afterComplete env (uid u) challengeId userAnswer ch s) v =
               if decide (uid u = v)
               then <[autoId env := recordOf env challengeId userAnswer ch]>
                      (recordsOf s (uid u))
               else recordsOf s v) as Hrec.
  { intros v. unfold recordsOf. rewrite afterComplete_completed. unfold setCompleted.
    rewrite lookup_insert. by destruct (decide (uid u = v)). }
  split. { rewrite Hrec. by rewrite decide_True. }
  do 4 (split; [done|]).
  split.
  { intros id r Hr. rewrite Hrec, decide_True by done.
    rewrite lookup_insert_ne; [done|]. intros <-. congruence. }
  split. { intros v Hv. rewrite Hrec. by rewrite decide_False. }
  unfold recordsFor. rewrite Hrec, decide_True by done.
  rewrite map_filter_insert_True by done.
  apply map_size_insert_None. by apply map_lookup_filter_None_2; left.
Qed.

Lemma completeChallenge_appends_record_witness :
  ∃ res s',
    completeChallenge (Fixtures.envOf Fixtures.bob 2000 "rec2") "ch1" "pear"
        RecordExamples.once = Returned res s' ∧
    isCorrect res = false ∧
    size (recordsFor s' "bob" "ch1") = 2%nat.
Proof.
  destruct (challenges RecordExamples.once !! "ch1") as [ch|] eqn:Hch;
    [|vm_compute in Hch; discriminate Hch].
  destruct (completeChallenge_appends_record
              (Fixtures.envOf Fixtures.bob 2000 "rec2") Fixtures.bob "ch1" "pear"
              RecordExamples.once ch eq_refl Hch)
    as (res & s' & rec & Hrun & _ & _ & _ & _ & _ & _ & _ & Hsize).
  { vm_compute. reflexivity. }
  exists res, s'. split; [exact Hrun|]. split.
  - rewrite (completeChallenge_found (Fixtures.envOf Fixtures.bob 2000 "rec2")
               Fixtures.bob _ _ _ ch eq_refl Hch) in Hrun.
    injection Hrun as <- _. vm_compute in Hch. injection Hch as <-. reflexivity.
  - simpl in Hsize. rewrite Hsize. vm_compute. reflexivity.
Defined.

(** ** XP ledger *)

Lemma Returned_inj {A} (a b : A) (s t : Store) :
  Returned a s = Returned b t → a = b ∧ s = t.
Proof. intros H. by injection H. Qed.

Lemma binary64_safe n : (- 2 ^ 53 ≤ n ≤ 2 ^ 53)%Z → binary64 n = n.
Proof.
  intros Hn. unfold binary64.
  destruct (Z.ltb_spec (Z.abs n) (2 ^ 53)) as [|Hge]; [done|].
  assert (n = 2 ^ 53 ∨ n = - 2 ^ 53) as [-> | ->] by lia; reflexivity.
Qed.

Lemma binary64_opp n : binary64 (- n) = - binary64 n.
Proof.
  unfold binary64. rewrite Z.abs_opp, Z.sgn_opp.
  destruct (Z.abs n <? 2 ^ 53)%Z; lia.
Qed.

Lemma nearestEven_bounds unit a :
  (0 < unit)%Z → (a / unit ≤ nearestEven unit a ≤ a / unit + 1)%Z.
Proof.
  intros Hu. unfold nearestEven.
  destruct (2 * (a mod unit) <? unit)%Z, (unit <? 2 * (a mod unit))%Z, (Z.even (a / unit)); lia.
Qed.

Lemma nearestEven_monotone unit a b :
  (0 < unit)%Z → (a ≤ b)%Z → (nearestEven unit a ≤ nearestEven unit b)%Z.
Proof.
  intros Hu Hab.
  pose proof (Z.div_le_mono a b unit Hu Hab) as Hq.
  destruct (decide (a / unit = b / unit)) as [Heq|Hne].
  - pose proof (Z.div_mod a unit ltac:(lia)) as Ha.
    pose proof (Z.div_mod b unit ltac:(lia)) as Hb.
    assert (a mod unit ≤ b mod unit)%Z as Hr by (rewrite Heq in Ha; nia).
    unfold nearestEven. rewrite Heq.
    destruct (Z.ltb_spec (2 * (a mod unit)) unit), (Z.ltb_spec unit (2 * (a mod unit))),
      (Z.ltb_spec (2 * (b mod unit)) unit), (Z.ltb_spec unit (2 * (b mod unit))),
      (Z.even (b / unit)); lia.
  - pose proof (nearestEven_bounds unit a Hu). pose proof (nearestEven_bounds unit b Hu).
    lia.
Qed.

(** The magnitudes from [2 ^ 53] on. *)
Lemma binary64_large a :
  (2 ^ 53 ≤ a)%Z →
  binary64 a = nearestEven (2 ^ (Z.log2 a - 52)) a * 2 ^ (Z.log2 a - 52) ∧
  (2 ^ Z.log2 a ≤ binary64 a ≤ 2 ^ (Z.log2 a + 1))%Z.
Proof.
  intros Ha. assert (0 < a)%Z as Hpos by lia.
  assert (53 ≤ Z.log2 a)%Z as Hlog by (apply Z.log2_le_pow2; lia).
  destruct (Z.log2_spec a Hpos) as [Hlo Hhi].
  set (e := Z.log2 a) in *. set (unit := 2 ^ (e - 52)).
  assert (0 < unit)%Z as Hu by (apply Z.pow_pos_nonneg; lia).
  assert (2 ^ e = 2 ^ 52 * unit) as He
    by (unfold unit; rewrite <- Z.pow_add_r by lia; f_equal; lia).
  assert (2 ^ (e + 1) = 2 ^ 53 * unit) as He'
    by (unfold unit; rewrite <- Z.pow_add_r by lia; f_equal; lia).
  assert (binary64 a = nearestEven unit a * unit) as Hval.
  { unfold binary64. rewrite Z.abs_eq by lia.
    destruct (Z.ltb_spec a (2 ^ 53)); [lia|].
    fold e. fold unit. rewrite Z.sgn_pos by done. lia. }
  split; [done|]. rewrite Hval, He, He'.
  pose proof (nearestEven_bounds unit a Hu) as [Hq Hq'].
  assert (2 ^ 52 ≤ a / unit)%Z by (apply Z.div_le_lower_bound; lia).
  assert (a / unit < 2 ^ 53)%Z by (apply Z.div_lt_upper_bound; lia).
  split; apply Z.mul_le_mono_nonneg_r; lia.
Qed.

Lemma binary64_monotone_nonneg a b : (0 ≤ a ≤ b)%Z → (binary64 a ≤ binary64 b)%Z.
Proof.
  intros [Ha Hab].
  destruct (Z.lt_ge_cases b (2 ^ 53)) as [Hb|Hb].
  { rewrite !binary64_safe by lia. done. }
  destruct (binary64_large b Hb) as [Hvb [Hlob _]].
  assert (53 ≤ Z.log2 b)%Z as Hlogb by (apply Z.log2_le_pow2; lia).
  destruct (Z.lt_ge_cases a (2 ^ 53)) as [Ha'|Ha'].
  { rewrite (binary64_safe a) by lia.
    assert (2 ^ 53 ≤ 2 ^ Z.log2 b)%Z by (apply Z.pow_le_mono_r; lia). lia. }
  destruct (binary64_large a Ha') as [Hva [_ Hhia]].
  pose proof (Z.log2_le_mono a b Hab) as Hlog.
  destruct (decide (Z.log2 a = Z.log2 b)) as [Heq|Hne].
  - rewrite Hva, Hvb, Heq.
    assert (0 < 2 ^ (Z.log2 b - 52))%Z as Hu by (apply Z.pow_pos_nonneg; lia).
    apply Z.mul_le_mono_nonneg_r; [lia|]. by apply nearestEven_monotone.
  - assert (2 ^ (Z.log2 a + 1) ≤ 2 ^ Z.log2 b)%Z by (apply Z.pow_le_mono_r; lia).
    lia.
Qed.

Lemma binary64_nonneg a : (0 ≤ a)%Z → (0 ≤ binary64 a)%Z.
Proof.
  intros Ha. rewrite <- (binary64_safe 0) by lia. by apply binary64_monotone_nonneg.
Qed.

(** Rounding keeps the order. *)
Lemma binary64_monotone a b : (a ≤ b)%Z → (binary64 a ≤ binary64 b)%Z.
Proof.
  intros Hab. destruct (Z.le_gt_cases 0 a) as [Ha|Ha].
  - by apply binary64_monotone_nonneg.
  - destruct (Z.le_gt_cases 0 b) as [Hb|Hb].
    + pose proof (binary64_nonneg b Hb).
      pose proof (binary64_nonneg (- a) ltac:(lia)) as Hna.
      rewrite binary64_opp in Hna. lia.
    + pose proof (binary64_monotone_nonneg (- b) (- a) ltac:(lia)) as Hm.
      rewrite !binary64_opp in Hm. lia.
Qed.

Example binary64_at_2_55 : binary64 (2 ^ 55 + 100) = 2 ^ 55 + 96.
Proof. reflexivity. Qed.

Lemma saturate_int64 n : isInt64 n → saturate n = n.
Proof. unfold isInt64, saturate. lia. Qed.

Lemma getUserXP_reads env u s :
  currentUser env = Some u →
  getUserXP env s = Returned (binary64 (storedXP s (uid u))) s.
Proof.
  intros Hu. unfold getUserXP, storedXP. run_op. rewrite Hu. simpl.
  by destruct (users s !! uid u).
Qed.

Lemma getUserXP_total env s : ∃ x, getUserXP env s = Returned x s.
Proof.
  destruct (currentUser env) as [u|] eqn:Hu.
  - eexists. by apply getUserXP_reads.
  - exists 0. unfold getUserXP. run_op. by rewrite Hu.
Qed.

(** The total [addUserXP] leaves: the amount, or the old total and the
    amount added to within the 64-bit range. *)
Lemma addUserXP_stores env u xpAmount s :
  currentUser env = Some u →
  ∃ s', addUserXP env xpAmount s = Returned tt s' ∧
        storedXP s' (uid u) =
          match users s !! uid u ≫= u_totalXP with
          | Some x => saturate (x + xpAmount)
          | None => xpAmount
          end ∧
        (∀ v, v ≠ uid u → users s' !! v = users s !! v).
Proof.
  intros Hu. unfold addUserXP, storedXP. run_op. rewrite Hu. simpl.
  destruct (users s !! uid u) as [d|] eqn:Hd; simpl; eexists; (split; [done|]); simpl.
  - split.
    + rewrite lookup_alter, decide_True, Hd by done. simpl. by destruct (u_totalXP d).
    + intros v Hv. by rewrite lookup_alter, decide_False.
  - split.
    + by rewrite lookup_insert_eq.
    + intros v Hv. by rewrite lookup_insert_ne.
Qed.

Lemma storedXP_field s userId :
  storedXP s userId = default 0 (users s !! userId ≫= u_totalXP).
Proof. unfold storedXP. by destruct (users s !! userId). Qed.

Lemma addUserXP_grows env u xpAmount s :
  currentUser env = Some u →
  (0 ≤ xpAmount ≤ maxSafeInteger)%Z →
  (storedXP s (uid u) ≤ maxInt64)%Z →
  (storedXP s (uid u) ≤ storedXP (finalStore (addUserXP env xpAmount s)) (uid u)
     ≤ maxInt64)%Z.
Proof.
  intros Hu Ha Hs.
  destruct (addUserXP_stores env u xpAmount s Hu) as (s' & Hrun & Hxp & _).
  rewrite Hrun. simpl. rewrite Hxp. rewrite storedXP_field in *.
  destruct (users s !! uid u ≫= u_totalXP) as [x|]; simpl in *;
    unfold saturate, maxSafeInteger, maxInt64, minInt64 in *; lia.
Qed.

Lemma awardAll_monotone u (calls : list (Env * Z)) s :
  Forall (λ c, currentUser c.1 = Some u ∧ (0 ≤ c.2 ≤ maxSafeInteger)%Z) calls →
  (storedXP s (uid u) ≤ maxInt64)%Z →
  (storedXP s (uid u) ≤ storedXP (awardAll calls s) (uid u) ≤ maxInt64)%Z.
Proof.
  intros Hall. revert s. induction Hall as [|[env a] rest [Hu Ha] _ IH]; intros s Hs; simpl.
  - lia.
  - simpl in Hu, Ha. pose proof (addUserXP_grows env u a s Hu Ha Hs) as Hstep.
    specialize (IH (finalStore (addUserXP env a s)) ltac:(lia)). lia.
Qed.

Lemma awardAll_app (before after : list (Env * Z)) s :
  awardAll (before ++ after) s = awardAll after (awardAll before s).
Proof. revert s. induction before as [|[env a] rest IH]; intros s; simpl; [done|apply IH]. Qed.

Section XpChecks.
Import Fixtures XpExamples.

Example largeTotal_stored : storedXP largeTotal "bob" = (2 ^ 55)%Z.
Proof. vm_compute. reflexivity. Qed.

End XpChecks.

(** C9, as claimed, fails: after eight awards of [2 ^ 52] XP bob's total
    is [2 ^ 55], and [addUserXP(100)] followed by [getUserXP] then reads
    96 more than before, the step to the nearest double, not 100. *)
Lemma large_total_gains_96 :
  getUserXP (Fixtures.envOf Fixtures.bob 3000 "x") XpExamples.largeTotal =
    Returned (2 ^ 55)%Z XpExamples.largeTotal ∧
  ∃ s', addUserXP (Fixtures.envOf Fixtures.bob 3000 "x") 100 XpExamples.largeTotal =
          Returned tt s' ∧
        getUserXP (Fixtures.envOf Fixtures.bob 3000 "x") s' =
          Returned (2 ^ 55 + 96)%Z s' ∧
        getUserXP (Fixtures.envOf Fixtures.bob 3000 "x") s' ≠
          Returned (2 ^ 55 + 100)%Z s'.
Proof.
  split; [vm_compute; reflexivity|].
  exists (finalStore (addUserXP (Fixtures.envOf Fixtures.bob 3000 "x") 100
                        XpExamples.largeTotal)).
  split; [vm_compute; reflexivity|].
  assert (getUserXP (Fixtures.envOf Fixtures.bob 3000 "x")
            (finalStore (addUserXP (Fixtures.envOf Fixtures.bob 3000 "x") 100
                           XpExamples.largeTotal)) =
          Returned (2 ^ 55 + 96)%Z
            (finalStore (addUserXP (Fixtures.envOf Fixtures.bob 3000 "x") 100
                           XpExamples.largeTotal))) as Hread.
  { rewrite (getUserXP_reads _ Fixtures.bob) by reflexivity. f_equal. }
  split; [exact Hread|].
  intros Hclaim. rewrite Hread in Hclaim. apply Returned_inj in Hclaim as [Hx _].
  vm_compute in Hx. discriminate Hx.
Qed.

(** C9, amended. For a signed-in user whose stored total is a 64-bit
    integer, the value read by [getUserXP] never decreases along a
    sequence of [addUserXP] calls with non-negative whole amounts up to
    [Number.MAX_SAFE_INTEGER]; when the value read is above [- 2 ^ 53] and
    at most [2 ^ 53 - 100], [addUserXP(100)] followed by [getUserXP] reads
    exactly 100 more; and without a user document [getUserXP] returns 0
    and [addUserXP] creates the document with the awarded amount. *)
Theorem xp_is_monotone_and_exact_while_safe env u s :
  currentUser env = Some u →
  isInt64 (storedXP s (uid u)) →
  (∀ before after : list (Env * Z),
     Forall (λ c, currentUser c.1 = Some u ∧ (0 ≤ c.2 ≤ maxSafeInteger)%Z)
            (before ++ after) →
     ∃ x x',
       getUserXP env (awardAll before s) = Returned x (awardAll before s) ∧
       getUserXP env (awardAll (before ++ after) s) =
         Returned x' (awardAll (before ++ after) s) ∧
       (x ≤ x')%Z) ∧
  (∀ x, getUserXP env s = Returned x s →
     (- 2 ^ 53 < x ≤ 2 ^ 53 - 100)%Z →
     ∃ s',
       addUserXP env 100 s = Returned tt s' ∧
       getUserXP env s' = Returned (x + 100) s') ∧
  (users s !! uid u = None →
     getUserXP env s = Returned 0 s ∧
     ∀ xpAmount, isSafeInteger xpAmount → ∃ s' d,
       addUserXP env xpAmount s = Returned tt s' ∧
       users s' !! uid u = Some d ∧ u_totalXP d = Some xpAmount).
Proof.
  intros Hu Hs. split; [|split].
  - intros before after Hall. eexists _, _.
    split; [by apply getUserXP_reads|]. split; [by apply getUserXP_reads|].
    apply binary64_monotone. rewrite awardAll_app.
    apply Forall_app in Hall as [Hbefore Hafter].
    destruct Hs as [_ Hs].
    pose proof (awardAll_monotone u before s Hbefore Hs) as [_ Hs'].
    by apply awardAll_monotone.
  - intros x Hget Hx.
    rewrite (getUserXP_reads _ _ _ Hu) in Hget. apply Returned_inj in Hget as [Hget _].
    assert (storedXP s (uid u) = x) as Hstored.
    { destruct (Z.lt_ge_cases (storedXP s (uid u)) (2 ^ 53)) as [Hlt|Hge].
      - destruct (Z.lt_ge_cases (- 2 ^ 53) (storedXP s (uid u))) as [Hgt|Hle].
        + by rewrite binary64_safe in Hget by lia.
        + pose proof (binary64_monotone _ _ Hle) as Hm.
          rewrite (binary64_safe (- 2 ^ 53)) in Hm by lia. lia.
      - pose proof (binary64_monotone _ _ Hge) as Hm.
        rewrite (binary64_safe (2 ^ 53)) in Hm by lia. lia. }
    destruct (addUserXP_stores env u 100 s Hu) as (s' & Hrun & Hxp & _).
    exists s'. split; [done|].
    rewrite (getUserXP_reads _ _ _ Hu). f_equal. rewrite Hxp.
    rewrite storedXP_field in Hstored.
    destruct (users s !! uid u ≫= u_totalXP) as [t|]; simpl in Hstored;
      rewrite <- Hstored in *.
    + rewrite saturate_int64 by (unfold isInt64, minInt64, maxInt64; lia).
      apply binary64_safe. lia.
    + reflexivity.
  - intros Hnone. split.
    + rewrite (getUserXP_reads _ _ _ Hu). unfold storedXP. by rewrite Hnone.
    + intros xpAmount _. unfold addUserXP. run_op. rewrite Hu. simpl. rewrite Hnone. simpl.
      eexists _, _. split; [done|]. simpl. by rewrite lookup_insert_eq.
Qed.

Lemma xp_is_monotone_and_exact_while_safe_witness :
  getUserXP (Fixtures.envOf Fixtures.bob 3000 "x") Fixtures.challengeStore =
    Returned 40 Fixtures.challengeStore ∧
  ∃ s', addUserXP (Fixtures.envOf Fixtures.bob 3000 "x") 100 Fixtures.challengeStore =
          Returned tt s' ∧
        getUserXP (Fixtures.envOf Fixtures.bob 3000 "x") s' = Returned 140 s'.
Proof.
  assert (getUserXP (Fixtures.envOf Fixtures.bob 3000 "x") Fixtures.challengeStore =
          Returned 40 Fixtures.challengeStore) as Hget by reflexivity.
  assert (isInt64 (storedXP Fixtures.challengeStore (uid Fixtures.bob))) as Hs
    by (vm_compute; split; discriminate).
  split; [exact Hget|].
  apply (proj1 (proj2 (xp_is_monotone_and_exact_while_safe
                         (Fixtures.envOf Fixtures.bob 3000 "x") Fixtures.bob
                         Fixtures.challengeStore eq_refl Hs)) 40 Hget).
  lia.
Defined.

(** ** Shared-card materialization *)

Lemma newCard_sameTriple env challengeData :
  sameTriple (cc_vocabulary (sr_card challengeData))
             (cc_definition (sr_card challengeData))
             (sr_recipientId challengeData) (newCard env challengeData).
Proof. repeat split. Qed.

Lemma addSharedCardFromChallenge_existing env challengeData s :
  matching challengeData s ≠ ∅ →
  ∃ id d, addSharedCardFromChallenge env challengeData s = Returned id s ∧
          matching challengeData s !! id = Some d ∧
          head (map_to_list (matching challengeData s)) = Some (id, d).
Proof.
  intros Hne. unfold addSharedCardFromChallenge. run_op. unfold queryDocs.
  fold (matching challengeData s).
  destruct (map_to_list (matching challengeData s)) as [|[id d] rest] eqn:Hl.
  - by apply map_to_list_empty_iff in Hl.
  - exists id, d. split; [done|]. split; [|done].
    apply elem_of_map_to_list. rewrite Hl. apply list_elem_of_here.
Qed.

Lemma addSharedCardFromChallenge_new env challengeData s :
  matching challengeData s = ∅ →
  addSharedCardFromChallenge env challengeData s =
    Returned (autoId env)
             (set_sharedCards (insert (autoId env) (newCard env challengeData)) s).
Proof.
  intros He. unfold addSharedCardFromChallenge. run_op. unfold queryDocs.
  fold (matching challengeData s). by rewrite He, map_to_list_empty.
Qed.

Lemma matching_after_new env challengeData s :
  matching challengeData s = ∅ →
  matching challengeData
    (set_sharedCards (insert (autoId env) (newCard env challengeData)) s) =
    {[autoId env := newCard env challengeData]}.
Proof.
  intros He. unfold matching in *. simpl.
  rewrite map_filter_insert_True by apply newCard_sameTriple.
  by rewrite He.
Qed.

Section SharedCardChecks.
Import Fixtures SharedCardExamples.

Example twoCards_distinct :
  size (matching (shareWithBob appleCard) twoCards) = 1%nat ∧
  size (matching (shareWithBob pearCard) twoCards) = 1%nat.
Proof. split; vm_compute; reflexivity. Qed.

Example edited_duplicates :
  dom (matching (shareWithBob appleCard) edited) = {["sc1"; "sc2"]}.
Proof. vm_compute. reflexivity. Qed.

End SharedCardChecks.

(** C2, as claimed, fails: after bob has edited one of his shared cards
    into the content of another, two documents carry the same triple; two
    calls for that triple return the same id, but two documents with the
    triple exist afterwards, not one. *)
Lemma materialization_keeps_duplicates :
  ¬ materializedOnce (Fixtures.envOf Fixtures.bob 40 "sc3")
      (Fixtures.envOf Fixtures.bob 50 "sc4")
      (SharedCardExamples.shareWithBob Fixtures.appleCard)
      SharedCardExamples.edited.
Proof.
  intros (id & s1 & s2 & H1 & H2 & Hsize).
  assert (matching (SharedCardExamples.shareWithBob Fixtures.appleCard)
            SharedCardExamples.edited ≠ ∅) as Hne.
  { intros He. apply (f_equal size) in He. vm_compute in He. discriminate He. }
  destruct (addSharedCardFromChallenge_existing (Fixtures.envOf Fixtures.bob 40 "sc3")
              _ _ Hne) as (id1 & d1 & Hr1 & _).
  rewrite Hr1 in H1. apply Returned_inj in H1 as [<- <-].
  destruct (addSharedCardFromChallenge_existing (Fixtures.envOf Fixtures.bob 50 "sc4")
              _ _ Hne) as (id2 & d2 & Hr2 & _).
  rewrite Hr2 in H2. apply Returned_inj in H2 as [_ <-].
  vm_compute in Hsize. discriminate Hsize.
Qed.

(** C2, amended. Two calls in a row with the same vocabulary, definition
    and recipient return the same id, an id of a stored document with that
    triple; the second call writes nothing, and the first writes a
    document only when none with the triple is stored. The number of
    documents with the triple afterwards is therefore one when the store
    held at most one before, and otherwise what it was: documents that
    already share the triple are left in place. *)
Theorem materialization_is_idempotent env1 env2 challengeData s :
  ∃ id s1 d,
    addSharedCardFromChallenge env1 challengeData s = Returned id s1 ∧
    addSharedCardFromChallenge env2 challengeData s1 = Returned id s1 ∧
    sharedCards s1 !! id = Some d ∧
    sameTriple (cc_vocabulary (sr_card challengeData))
               (cc_definition (sr_card challengeData))
               (sr_recipientId challengeData) d ∧
    s1 = (if decide (matching challengeData s = ∅)
          then set_sharedCards (insert (autoId env1) (newCard env1 challengeData)) s
          else s) ∧
    size (matching challengeData s1) = Nat.max 1 (size (matching challengeData s)).
Proof.
  destruct (decide (matching challengeData s = ∅)) as [He|Hne].
  - eexists (autoId env1), _, (newCard env1 challengeData).
    split; [by apply addSharedCardFromChallenge_new|].
    pose proof (matching_after_new env1 challengeData s He) as Hm.
    split.
    { destruct (addSharedCardFromChallenge_existing env2 challengeData
                  (set_sharedCards (insert (autoId env1) (newCard env1 challengeData)) s))
        as (id & d & Hrun & Hid & _).
      { rewrite Hm. apply insert_non_empty. }
      rewrite Hm in Hid. apply lookup_singleton_Some in Hid as [<- _]. exact Hrun. }
    split; [simpl; apply lookup_insert_eq|].
    split; [apply newCard_sameTriple|]. split; [done|].
    by rewrite Hm, He, map_size_singleton, map_size_empty.
  - destruct (addSharedCardFromChallenge_existing env1 challengeData s Hne)
      as (id & d & Hrun & Hid & Hhd).
    destruct (addSharedCardFromChallenge_existing env2 challengeData s Hne)
      as (id' & d' & Hrun' & _ & Hhd').
    rewrite Hhd in Hhd'. injection Hhd' as <- <-.
    exists id, s, d. split; [done|]. split; [done|].
    unfold matching in Hid. apply map_lookup_filter_Some in Hid as [Hd Htriple].
    split; [done|]. split; [done|]. split; [done|].
    apply map_size_non_empty_iff in Hne. lia.
Qed.

(** ** Editing a card *)

Lemma updateSharedCard_not_shared env u sharedCardId updatedData s :
  currentUser env = Some u →
  sharedCards s !! sharedCardId = None →
  queryDocs (fieldIs "sharedCardId" sharedCardId) (sharedCards s) = [] →
  updateSharedCard env sharedCardId updatedData s = Returned tt s.
Proof.
  intros Hu Hid Hfield. unfold updateSharedCard. run_op. rewrite Hu. simpl.
  rewrite Hid. simpl. by rewrite Hfield.
Qed.

(** When the id names no shared card, by document id or by field,
    [updateCard] returns from its [try] block: the legacy branch is not
    run, whatever the [cards] collection holds under that id. *)
Lemma updateCard_not_shared env u cardId updatedData s :
  currentUser env = Some u →
  sharedCards s !! cardId = None →
  queryDocs (fieldIs "sharedCardId" cardId) (sharedCards s) = [] →
  updateCard env cardId updatedData s = Returned tt s.
Proof.
  intros Hu Hid Hfield. unfold updateCard. run_op. rewrite Hu. simpl.
  by rewrite (updateSharedCard_not_shared env u cardId updatedData s Hu Hid Hfield).
Qed.

(** The recipient of a shared card edits it through [updateCard]. *)
Lemma updateCard_shared_recipient env u cardId updatedData s d :
  currentUser env = Some u →
  sharedCards s !! cardId = Some d →
  d !! "recipientId" = Some (VStr (uid u)) →
  updateCard env cardId updatedData s =
    Returned tt
      (set_sharedCards
         (alter (mergeFields (sharedPatch env (uid u) updatedData)) cardId) s).
Proof.
  intros Hu Hid Hrec. unfold updateCard, updateSharedCard. run_op. rewrite Hu. simpl.
  rewrite Hid. simpl. by rewrite decide_True.
Qed.

(** Anyone else gets the error of the legacy branch, which the [catch]
    falls into: 'Card not found' unless [cards] holds the same id. *)
Lemma updateCard_shared_other env u cardId updatedData s recipient :
  currentUser env = Some u →
  (.!! "recipientId") <$> sharedCards s !! cardId = Some recipient →
  recipient ≠ Some (VStr (uid u)) →
  cards s !! cardId = None →
  updateCard env cardId updatedData s = Thrown CardNotFound s.
Proof.
  intros Hu Hid Hrec Hlegacy. unfold updateCard, updateSharedCard, updateLegacyCard.
  run_op. rewrite Hu. simpl.
  destruct (sharedCards s !! cardId) as [d|]; [|done]. simpl in *.
  apply (inj Some) in Hid. subst recipient. rewrite decide_False by done.
  simpl. by rewrite Hlegacy.
Qed.

Section EditChecks.
Import Fixtures EditExamples.

Example legacy_branch_would_update :
  (cards (finalStore
            (updateLegacyCard (envOf alice 50 "unused") "alice" "c1" patch editStore))
     !! "c1") ≫= (.!! "vocabulary") = Some (VStr "kitten").
Proof. vm_compute. reflexivity. Qed.

Example recipient_edits_shared_card :
  (sharedCards (finalStore (updateCard (envOf bob 50 "unused") "sc1" patch editStore))
     !! "sc1") ≫= (.!! "vocabulary") = Some (VStr "kitten").
Proof. vm_compute. reflexivity. Qed.

End EditChecks.

(** C6, on the code. [updateCard] does not fall back to the owned-card
    lookup when the shared lookup misses: the creator's edit of her owned
    card returns with the store unchanged, another user's edit of that
    card returns with no error, an id absent from both collections
    returns with no error, and a shared card edited by someone who is not
    its recipient yields 'Card not found', a NotFoundError, not an
    AuthorizationError. *)
Theorem updateCard_never_falls_back :
  updateCard (Fixtures.envOf Fixtures.alice 50 "unused") "c1" EditExamples.patch
      EditExamples.editStore = Returned tt EditExamples.editStore ∧
  updateCard (Fixtures.envOf Fixtures.bob 50 "unused") "c1" EditExamples.patch
      EditExamples.editStore = Returned tt EditExamples.editStore ∧
  updateCard (Fixtures.envOf Fixtures.alice 50 "unused") "missing" EditExamples.patch
      EditExamples.editStore = Returned tt EditExamples.editStore ∧
  updateCard (Fixtures.envOf Fixtures.alice 50 "unused") "sc1" EditExamples.patch
      EditExamples.editStore = Thrown CardNotFound EditExamples.editStore ∧
  errorKind CardNotFound = NotFoundError.
Proof.
  split; [|split; [|split; [|split]]].
  - apply (updateCard_not_shared _ Fixtures.alice); vm_compute; reflexivity.
  - apply (updateCard_not_shared _ Fixtures.bob); vm_compute; reflexivity.
  - apply (updateCard_not_shared _ Fixtures.alice); vm_compute; reflexivity.
  - apply (updateCard_shared_other _ Fixtures.alice _ _ _ (Some (VStr "bob"))).
    + reflexivity.
    + vm_compute. reflexivity.
    + discriminate.
    + vm_compute. reflexivity.
  - reflexivity.
Qed.

(** ** Friend requests *)

Section FriendChecks.
Import Fixtures FriendExamples.

Example bobAskedAlice_requests :
  (λ r, (fr_fromUserId r, fr_toUserId r, fr_status r)) <$> friendRequests bobAskedAlice =
    {["fr1" := ("bob", "alice", req_pending)]}.
Proof. vm_compute. reflexivity. Qed.

End FriendChecks.

(** C8, as claimed, fails: with bob's request to alice still pending,
    alice's request to bob is not refused; it is stored as a second
    pending request. *)
Lemma reverse_pending_request_is_accepted :
  ¬ conflictRefused (Fixtures.envOf Fixtures.alice 20 "fr2") "bob" "Bob"
      "bob@example.org" FriendExamples.bobAskedAlice.
Proof.
  intros Hclaim.
  assert (∃ r, friendRequests FriendExamples.bobAskedAlice !! "fr1" = Some r ∧
               pendingBetween "alice" "bob" r) as (r & Hr & Hp).
  { eexists. split; [vm_compute; reflexivity|]. right. by repeat split. }
  specialize (Hclaim Fixtures.alice "fr1" r eq_refl Hr Hp).
  vm_compute in Hclaim. discriminate Hclaim.
Qed.

Lemma sendFriendRequest_existing env u toUserId toDisplayName toEmail s id r :
  currentUser env = Some u →
  friendRequests s !! id = Some r →
  pendingFromTo (uid u) toUserId r →
  sendFriendRequest env toUserId toDisplayName toEmail s = Returned AlreadySent s.
Proof.
  intros Hu Hr Hp. unfold sendFriendRequest. run_op. rewrite Hu. unfold queryDocs.
  destruct (map_to_list _) as [|kv rest] eqn:Hl; [|done].
  apply map_to_list_empty_iff in Hl.
  by eapply (map_filter_empty_not_lookup _ _ id r) in Hl.
Qed.

Lemma no_pending_from_query (a b : string) (s : Store) :
  queryDocs (pendingFromTo a b) (friendRequests s) = [] →
  ∀ id r, friendRequests s !! id = Some r → ¬ pendingFromTo a b r.
Proof.
  unfold queryDocs. intros Hl id r Hr Hp. apply map_to_list_empty_iff in Hl.
  by eapply (map_filter_empty_not_lookup _ _ id r) in Hl.
Qed.

(** C8, amended. [sendFriendRequest] ends in the 'Already Sent' conflict,
    adding nothing, when a pending request from the caller to the
    addressee is stored; when none is stored it adds a new pending request
    from the caller to the addressee, whether or not a pending request
    from the addressee to the caller exists. *)
Theorem sendFriendRequest_checks_own_direction env u toUserId toDisplayName toEmail s :
  currentUser env = Some u →
  ((∃ id r, friendRequests s !! id = Some r ∧ pendingFromTo (uid u) toUserId r) →
   sendFriendRequest env toUserId toDisplayName toEmail s = Returned AlreadySent s) ∧
  ((∀ id r, friendRequests s !! id = Some r → ¬ pendingFromTo (uid u) toUserId r) →
   ∃ req,
     sendFriendRequest env toUserId toDisplayName toEmail s =
       Returned RequestSent (set_friendRequests (insert (autoId env) req) s) ∧
     fr_fromUserId req = uid u ∧ fr_toUserId req = toUserId ∧
     fr_status req = req_pending).
Proof.
  intros Hu. split.
  - intros (id & r & Hr & Hp). by eapply sendFriendRequest_existing.
  - intros Hnone. unfold sendFriendRequest. run_op. rewrite Hu. unfold queryDocs.
    destruct (map_to_list _) as [|[id r] rest] eqn:Hl.
    + eexists. split; [done|]. done.
    + exfalso. assert ((id, r) ∈ (id, r) :: rest) as Hin by apply list_elem_of_here.
      rewrite <- Hl in Hin. apply elem_of_map_to_list in Hin.
      apply map_lookup_filter_Some in Hin as [Hr Hp]. by eapply Hnone.
Qed.

Lemma sendFriendRequest_checks_own_direction_witness :
  ∃ req,
    sendFriendRequest (Fixtures.envOf Fixtures.alice 20 "fr2") "bob" "Bob"
        "bob@example.org" FriendExamples.bobAskedAlice =
      Returned RequestSent
        (set_friendRequests (insert "fr2" req) FriendExamples.bobAskedAlice) ∧
    fr_fromUserId req = "alice" ∧ fr_toUserId req = "bob" ∧ fr_status req = req_pending.
Proof.
  apply (proj2 (sendFriendRequest_checks_own_direction
                  (Fixtures.envOf Fixtures.alice 20 "fr2") Fixtures.alice "bob" "Bob"
                  "bob@example.org" FriendExamples.bobAskedAlice eq_refl)).
  apply no_pending_from_query. vm_compute. reflexivity.
Defined.

(** ** Listing a user's cards *)

Lemma getUserCards_run env u topicId s :
  currentUser env = Some u →
  getUserCards env topicId s = Returned (referencedCards s (uid u) topicId) s.
Proof.
  intros Hu. unfold getUserCards, referencedCards, referencesOf, myCardsOf.
  run_op. rewrite Hu. simpl. reflexivity.
Qed.

Lemma getCards_run env u topicId s :
  currentUser env = Some u →
  getCards env topicId s =
    Returned (match referencedCards s (uid u) topicId with
              | [] => legacyCards s (uid u) topicId
              | found => found
              end) s.
Proof.
  intros Hu. unfold getCards.
  unfold mbind at 1. unfold Op_bind at 1. unfold getCurrentUserId. rewrite Hu.
  unfold mret at 1. unfold Op_ret at 1.
  unfold mbind at 1. unfold Op_bind at 1. unfold tryCatch at 1.
  unfold mbind at 1. unfold Op_bind at 1.
  rewrite (getUserCards_run env u topicId s Hu).
  unfold legacyCards.
  destruct (referencedCards s (uid u) topicId) as [|card rest]; simpl.
  - run_op. reflexivity.
  - run_op. reflexivity.
Qed.

Lemma queryDocs_elem {A} (P : A → Prop) `{!∀ d, Decision (P d)}
    (coll : gmap string A) id d :
  (id, d) ∈ queryDocs P coll ↔ coll !! id = Some d ∧ P d.
Proof. unfold queryDocs. by rewrite elem_of_map_to_list, map_lookup_filter_Some. Qed.

Lemma referencesOf_elem s userId topicId id ref :
  (id, ref) ∈ referencesOf s userId topicId ↔
  myCardsOf s userId !! id = Some ref ∧
  (∀ t, topicFilter topicId = Some t → fieldIs "topicId" t ref).
Proof.
  unfold referencesOf. destruct (topicFilter topicId) as [t|].
  - rewrite queryDocs_elem. split.
    + intros [Hr Ht]. split; [done|]. by intros t' [= <-].
    + intros [Hr Ht]. split; [done|]. by apply Ht.
  - rewrite elem_of_map_to_list. split; [by intros ?; split | by intros [? _]].
Qed.

Lemma withId_other (kv : string * Doc) (field : string) :
  field ≠ "id" → withId kv !! field = kv.2 !! field.
Proof.
  intros Hf. unfold withId. rewrite lookup_union, lookup_singleton_ne by done.
  by destruct (kv.2 !! field).
Qed.

Lemma referencedCards_elem s userId topicId card :
  card ∈ referencedCards s userId topicId ↔
  ∃ refId ref sharedId shared,
    myCardsOf s userId !! refId = Some ref ∧
    (∀ t, topicFilter topicId = Some t → fieldIs "topicId" t ref) ∧
    ref !! "sharedCardId" = Some (VStr sharedId) ∧
    sharedCards s !! sharedId = Some shared ∧
    card = referencedCard (withId (refId, ref)) shared.
Proof.
  unfold referencedCards. rewrite list_elem_of_omap. split.
  - intros (userCard & Hin & Hfetch).
    apply list_elem_of_fmap in Hin as ([refId ref] & -> & Hin).
    apply referencesOf_elem in Hin as [Hr Ht].
    unfold fetchSharedCard in Hfetch. rewrite withId_other in Hfetch by done.
    simpl in Hfetch.
    destruct (ref !! "sharedCardId") as [[sharedId| | | |]|] eqn:Hsid; try done.
    destruct (sharedCards s !! sharedId) as [shared|] eqn:Hsh; [|done].
    simpl in Hfetch. injection Hfetch as <-.
    by exists refId, ref, sharedId, shared.
  - intros (refId & ref & sharedId & shared & Hr & Ht & Hsid & Hsh & ->).
    exists (withId (refId, ref)). split.
    + apply list_elem_of_fmap. exists (refId, ref). split; [done|].
      by apply referencesOf_elem.
    + unfold fetchSharedCard. rewrite withId_other by done. simpl.
      by rewrite Hsid, Hsh.
Qed.

Lemma legacyCards_elem s userId card :
  card ∈ legacyCards s userId None ↔
  ∃ id d, cards s !! id = Some d ∧ fieldIs "userId" userId d ∧ card = withId (id, d).
Proof.
  unfold legacyCards. simpl. rewrite list_elem_of_fmap. split.
  - intros ([id d] & -> & Hin). apply queryDocs_elem in Hin as [Hd Hu].
    by exists id, d.
  - intros (id & d & Hd & Hu & ->). exists (id, d). split; [done|].
    by apply queryDocs_elem.
Qed.

Section ListChecks.
Import Fixtures ListExamples.

Example bothKinds_listing :
  canonicalId <$> listed (getCards (envOf bob 60 "unused") None bothKinds) =
    [Some (VStr "sc1")].
Proof. vm_compute. reflexivity. Qed.

Example foreignTopic_listing :
  canonicalId <$> listed (getCards (envOf bob 60 "unused") (Some "t1") foreignTopic) =
    [Some (VStr "c1")].
Proof. vm_compute. reflexivity. Qed.

End ListChecks.

(** C5, as claimed, fails: bob, who created [c2] and holds a reference to
    [sc1], is returned the referenced card only, without the card he
    created. *)
Lemma getCards_omits_created_cards :
  ¬ returnsUnion (Fixtures.envOf Fixtures.bob 60 "unused") "bob" None
      ListExamples.bothKinds.
Proof.
  intros (result & Hrun & Hiff & _).
  rewrite (getCards_run (Fixtures.envOf Fixtures.bob 60 "unused") Fixtures.bob
             _ _ eq_refl) in Hrun.
  apply Returned_inj in Hrun as [<- _].
  assert (createdBy ListExamples.bothKinds "bob" None "c2") as Hc.
  { exists ListExamples.dogCard. split; [apply lookup_singleton_eq|].
    split; [reflexivity|]. intros t Ht. discriminate Ht. }
  apply (or_introl (B := reachableBy ListExamples.bothKinds "bob" None "c2")) in Hc.
  apply Hiff in Hc. vm_compute in Hc.
  apply list_elem_of_singleton in Hc. discriminate Hc.
Qed.

(** C5, amended. [getCards] returns the cards built from the caller's
    references, filtered by the topic and restricted to those whose shared
    card exists, whenever there is at least one; only when there is none
    does it read the [cards] collection, and without a topic filter it
    then returns exactly the caller's own cards there. The two sources
    are never merged. *)
Theorem getCards_prefers_references env u topicId s :
  currentUser env = Some u →
  ∃ result,
    getCards env topicId s = Returned result s ∧
    (referencedCards s (uid u) topicId ≠ [] →
     result = referencedCards s (uid u) topicId) ∧
    (referencedCards s (uid u) topicId = [] → topicFilter topicId = None →
     ∀ card, card ∈ result ↔
             ∃ id d, cards s !! id = Some d ∧ fieldIs "userId" (uid u) d ∧
                     card = withId (id, d)) ∧
    (∀ card, card ∈ referencedCards s (uid u) topicId ↔
       ∃ refId ref sharedId shared,
         myCardsOf s (uid u) !! refId = Some ref ∧
         (∀ t, topicFilter topicId = Some t → fieldIs "topicId" t ref) ∧
         ref !! "sharedCardId" = Some (VStr sharedId) ∧
         sharedCards s !! sharedId = Some shared ∧
         card = referencedCard (withId (refId, ref)) shared).
Proof.
  intros Hu. eexists. split; [by apply getCards_run|].
  split; [|split].
  - by destruct (referencedCards s (uid u) topicId).
  - intros -> Hnone card. rewrite <- legacyCards_elem.
    unfold legacyCards. by rewrite Hnone.
  - apply referencedCards_elem.
Qed.

Lemma getCards_prefers_references_witness :
  ∃ result,
    getCards (Fixtures.envOf Fixtures.bob 60 "unused") None ListExamples.bothKinds =
      Returned result ListExamples.bothKinds ∧
    canonicalId <$> result = [Some (VStr "sc1")].
Proof.
  destruct (getCards_prefers_references (Fixtures.envOf Fixtures.bob 60 "unused")
              Fixtures.bob None ListExamples.bothKinds eq_refl)
    as (result & Hrun & Href & _).
  exists result. split; [exact Hrun|].
  rewrite Href.
  - vm_compute. reflexivity.
  - intros Hnil. apply (f_equal length) in Hnil. vm_compute in Hnil. discriminate Hnil.
Defined.

(** ** Where shared cards come from *)

(** The reward handler is the step that materializes the card: with no
    document of that content stored for the first recipient, it adds one
    and credits 100 XP to the caller, to within the 64-bit range. *)
Lemma handleAddCardAndXP_materializes env u challenge r rest s :
  currentUser env = Some u →
  ch_recipients challenge = r :: rest →
  r_userId r ≠ "" →
  matching (shareRequestOf challenge (r_userId r)) s = ∅ →
  ∃ s',
    handleAddCardAndXP env challenge s = Returned AlertSuccess s' ∧
    sharedCards s' =
      <[autoId env := newCard env (shareRequestOf challenge (r_userId r))]>
        (sharedCards s) ∧
    storedXP s' (uid u) = saturate (storedXP s (uid u) + 100).
Proof.
  intros Hu Hrs Hid Hnew.
  unfold handleAddCardAndXP, addCardToCollection. rewrite Hrs. simpl.
  destruct (r_userId r) as [|c rid] eqn:Hr; [done|]. simpl.
  fold (shareRequestOf challenge (String c rid)).
  unfold tryCatch, mbind, Op_bind.
  rewrite (addSharedCardFromChallenge_new env _ s Hnew).
  unfold mret at 1. unfold Op_ret at 1.
  destruct (addUserXP_stores env u 100
              (set_sharedCards
                 (insert (autoId env)
                    (newCard env (shareRequestOf challenge (String c rid)))) s) Hu)
    as (s' & Hrun & Hxp & _).
  rewrite Hrun. unfold mret, Op_ret. exists s'. split; [done|]. split.
  2:{ rewrite Hxp, storedXP_field. simpl.
      by destruct (users s !! uid u ≫= u_totalXP). }
  unfold addUserXP in Hrun. revert Hrun. run_op. rewrite Hu. simpl.
  destruct (users s !! uid u); simpl; intros [= <-]; done.
Qed.

(** The other modelled writers add no document to [sharedCards]. *)
Lemma other_calls_add_no_shared_card env s :
  (∀ challengeId,
     sharedCards (finalStore (rejectChallenge env challengeId s)) = sharedCards s) ∧
  (∀ xpAmount, sharedCards (finalStore (addUserXP env xpAmount s)) = sharedCards s) ∧
  (∀ toUserId toDisplayName toEmail,
     sharedCards (finalStore (sendFriendRequest env toUserId toDisplayName toEmail s)) =
       sharedCards s) ∧
  (∀ cardId updatedData,
     dom (sharedCards (finalStore (updateCard env cardId updatedData s))) =
       dom (sharedCards s)).
Proof.
  split; [|split; [|split]].
  - intros challengeId. unfold rejectChallenge. run_op.
    destruct (currentUser env); simpl; [|done].
    by destruct (challenges s !! challengeId).
  - intros xpAmount. unfold addUserXP. run_op.
    destruct (currentUser env) as [u|]; simpl; [|done].
    by destruct (users s !! uid u).
  - intros toUserId toDisplayName toEmail. unfold sendFriendRequest. run_op.
    destruct (currentUser env) as [u|]; simpl; [|done].
    by destruct (queryDocs _ _).
  - intros cardId updatedData.
    unfold updateCard, updateSharedCard, updateLegacyCard. run_op.
    destruct (currentUser env) as [u|]; simpl; [|done].
    destruct (sharedCards s !! cardId) as [d|]; simpl.
    + destruct (decide (d !! "recipientId" = Some (VStr (uid u)))); simpl.
      * apply dom_alter_L.
      * destruct (cards s !! cardId) as [c|]; simpl; [|done].
        by destruct (decide (c !! "userId" = Some (VStr (uid u)))).
    + destruct (queryDocs _ _) as [|[foundDoc x] l]; simpl; [done|].
      apply dom_alter_L.
Qed.

(** * Properties of the further operations *)

(** * Properties of the further operations *)

(** ** Sending and listing challenges *)

Lemma findRecipient_is_Some userId st data :
  is_Some (findRecipient userId st data) ↔
  ∃ r, r ∈ ch_recipients data ∧ r_userId r = userId ∧ r_status r = st.
Proof.
  unfold findRecipient. split.
  - intros [r Hr]. apply find_some in Hr as [Hin Hp].
    apply bool_decide_eq_true in Hp. exists r. by rewrite list_elem_of_In.
  - intros (r & Hin & Hu & Hs).
    destruct (find _ _) as [r'|] eqn:Hf; [by eexists|].
    apply list_elem_of_In in Hin.
    pose proof (find_none _ _ Hf r Hin) as Hnone. simpl in Hnone.
    by rewrite bool_decide_eq_true_2 in Hnone.
Qed.

Lemma findRecipient_Some userId st data r :
  findRecipient userId st data = Some r →
  r ∈ ch_recipients data ∧ r_userId r = userId ∧ r_status r = st.
Proof.
  unfold findRecipient. intros Hr. apply find_some in Hr as [Hin Hp].
  apply bool_decide_eq_true in Hp. by rewrite list_elem_of_In.
Qed.

Lemma getPendingChallenges_run env u s :
  currentUser env = Some u →
  getPendingChallenges env s =
    Returned (filter (λ kv, is_Some (findRecipient (uid u) pending kv.2))
                     (map_to_list (challenges s))) s.
Proof. intros Hu. unfold getPendingChallenges. run_op. by rewrite Hu. Qed.

Lemma getCompletedChallenges_run env u s :
  currentUser env = Some u →
  getCompletedChallenges env s =
    Returned (sortNewestFirst
                (omap (completedViewOf (uid u)) (map_to_list (challenges s)))) s.
Proof. intros Hu. unfold getCompletedChallenges. run_op. by rewrite Hu. Qed.

(** What [getPendingChallenges] lists for a signed-in user. *)
Lemma pending_listed env u s id data :
  currentUser env = Some u →
  (id, data) ∈ listed (getPendingChallenges env s) ↔
  challenges s !! id = Some data ∧
  ∃ r, r ∈ ch_recipients data ∧ r_userId r = uid u ∧ r_status r = pending.
Proof.
  intros Hu. rewrite (getPendingChallenges_run env u s Hu). simpl.
  rewrite list_elem_of_filter, elem_of_map_to_list. simpl.
  rewrite findRecipient_is_Some. tauto.
Qed.

Lemma insertNewestFirst_perm a l : insertNewestFirst a l ≡ₚ a :: l.
Proof.
  induction l as [|b rest IH]; simpl; [done|].
  destruct (completionTime b <=? completionTime a)%Z; [done|].
  rewrite IH. apply Permutation_swap.
Qed.

Lemma sortNewestFirst_perm l : sortNewestFirst l ≡ₚ l.
Proof.
  induction l as [|a rest IH]; simpl; [done|].
  by rewrite insertNewestFirst_perm, IH.
Qed.

Lemma insertNewestFirst_sorted a l : newestFirst l → newestFirst (insertNewestFirst a l).
Proof.
  unfold newestFirst. induction l as [|b rest IH]; simpl; intros Hs.
  - repeat constructor.
  - destruct (Z.leb_spec (completionTime b) (completionTime a)) as [Hle|Hlt].
    + constructor; [done|]. by constructor.
    + apply Sorted_inv in Hs as [Hrest Hhd]. constructor; [by apply IH|].
      destruct rest as [|c rest']; simpl.
      * constructor. lia.
      * destruct (Z.leb_spec (completionTime c) (completionTime a)).
        -- constructor. lia.
        -- constructor. by apply HdRel_inv in Hhd.
Qed.

Lemma sortNewestFirst_sorted l : newestFirst (sortNewestFirst l).
Proof.
  induction l as [|a rest IH]; simpl; [constructor|].
  by apply insertNewestFirst_sorted.
Qed.

Lemma completed_listed env u s v :
  currentUser env = Some u →
  v ∈ listed (getCompletedChallenges env s) ↔
  ∃ r, challenges s !! cv_id v = Some (cv_data v) ∧
       findRecipient (uid u) completed (cv_data v) = Some r ∧
       cv_userScore v = r_score r ∧ cv_completedAt v = r_completedAt r.
Proof.
  intros Hu. rewrite (getCompletedChallenges_run env u s Hu). simpl.
  rewrite sortNewestFirst_perm, list_elem_of_omap. split.
  - intros ([id data] & Hin & Hv). apply elem_of_map_to_list in Hin.
    unfold completedViewOf in Hv. simpl in Hv.
    destruct (findRecipient (uid u) completed data) as [r|] eqn:Hr; [|done].
    simpl in Hv. injection Hv as <-. by exists r.
  - intros (r & Hd & Hr & Hsc & Ht). exists (cv_id v, cv_data v).
    split; [by apply elem_of_map_to_list|].
    unfold completedViewOf. simpl. rewrite Hr. simpl.
    destruct v; simpl in *. by subst.
Qed.

Lemma markCompleted_userId userId sc userAnswer t r :
  r_userId (markCompleted userId sc userAnswer t r) = r_userId r.
Proof. unfold markCompleted. by destruct (decide _). Qed.

Lemma markRejected_userId userId t r : r_userId (markRejected userId t r) = r_userId r.
Proof. unfold markRejected. by destruct (decide _). Qed.

(** Entries rewritten by a map that only touches the entries of
    [userId]: those of any other user are found before and after alike. *)
Lemma entries_of_others (f : Recipient → Recipient) userId other st l :
  (∀ r, r_userId (f r) = r_userId r) →
  (∀ r, r_userId r ≠ userId → f r = r) →
  other ≠ userId →
  (∃ r, r ∈ map f l ∧ r_userId r = other ∧ r_status r = st) ↔
  (∃ r, r ∈ l ∧ r_userId r = other ∧ r_status r = st).
Proof.
  intros Hid Hfix Hne. split.
  - intros (r' & Hin & Hu & Hs). apply list_elem_of_fmap in Hin as (r & -> & Hin).
    rewrite Hid in Hu. rewrite Hfix in Hs by congruence. by exists r.
  - intros (r & Hin & Hu & Hs). exists r. split; [|done].
    apply list_elem_of_fmap. exists r. split; [|done].
    symmetry. apply Hfix. congruence.
Qed.

(** After the rewrite, the entries of [userId] all carry the new status. *)
Lemma entries_of_caller (f : Recipient → Recipient) userId st l r' :
  (∀ r, r_userId (f r) = r_userId r) →
  (∀ r, r_userId r = userId → r_status (f r) = st) →
  r' ∈ map f l → r_userId r' = userId → r_status r' = st.
Proof.
  intros Hid Hst Hin Hu. apply list_elem_of_fmap in Hin as (r & -> & Hin).
  rewrite Hid in Hu. by apply Hst.
Qed.

Lemma markCompleted_status userId sc userAnswer t r :
  r_userId r = userId → r_status (markCompleted userId sc userAnswer t r) = completed.
Proof. intros Hu. unfold markCompleted. by rewrite decide_True. Qed.

Lemma markRejected_status userId t r :
  r_userId r = userId → r_status (markRejected userId t r) = rejected.
Proof. intros Hu. unfold markRejected. by rewrite decide_True. Qed.

Lemma markCompleted_other userId sc userAnswer t r :
  r_userId r ≠ userId → markCompleted userId sc userAnswer t r = r.
Proof. intros Hu. unfold markCompleted. by rewrite decide_False. Qed.

Lemma markRejected_other userId t r :
  r_userId r ≠ userId → markRejected userId t r = r.
Proof. intros Hu. unfold markRejected. by rewrite decide_False. Qed.

(** X1. A challenge sent to a list of recipients is stored under the id
    drawn for it, with the sender, the card content and an expiry seven
    days after the client clock, and it is pending for exactly the users
    of the list: [getPendingChallenges] lists it for a user if and only if
    the user is in [recipientIds]. No check is made on the list, so an
    empty list stores a challenge that nobody sees. *)
Theorem sendChallenge_reaches_recipients env u challengeData s :
  currentUser env = Some u →
  ∃ s' sent,
    sendChallenge env challengeData s = Returned (autoId env) s' ∧
    challenges s' !! autoId env = Some sent ∧
    ch_senderId sent = uid u ∧
    cc_vocabulary (ch_card sent) = ci_vocabulary challengeData ∧
    cc_definition (ch_card sent) = ci_definition challengeData ∧
    ch_expiresAt sent = dateNow env + 604800000 ∧
    (∀ env' v, currentUser env' = Some v →
       (autoId env, sent) ∈ listed (getPendingChallenges env' s') ↔
       uid v ∈ ci_recipientIds challengeData).
Proof.
  intros Hu. unfold sendChallenge. run_op. rewrite Hu. simpl.
  eexists _, _. split; [done|]. simpl. rewrite lookup_insert_eq.
  split; [done|]. do 4 (split; [done|]).
  intros env' v Hv. rewrite (pending_listed env' v _ _ _ Hv). simpl.
  rewrite lookup_insert_eq. split.
  - intros (_ & r & Hin & Hr & _).
    apply list_elem_of_fmap in Hin as (id & -> & Hin). simpl in Hr. by subst.
  - intros Hin. split; [done|]. exists (newRecipient (uid v)).
    split; [|done]. apply list_elem_of_fmap. by exists (uid v).
Qed.

(** X2. After a recipient's [completeChallenge], the challenge is no
    longer listed as pending for that recipient and is listed by
    [getCompletedChallenges] with the score just given and the completion
    time of the call; whether it is pending for any other user is
    unchanged. *)
Theorem completion_moves_challenge env u challengeId userAnswer s ch :
  currentUser env = Some u →
  challenges s !! challengeId = Some ch →
  (∃ r, r ∈ ch_recipients ch ∧ r_userId r = uid u) →
  ∃ res s',
    completeChallenge env challengeId userAnswer s = Returned res s' ∧
    (∀ env' u' data, currentUser env' = Some u' → uid u' = uid u →
       (challengeId, data) ∉ listed (getPendingChallenges env' s')) ∧
    (∀ env' u', currentUser env' = Some u' → uid u' = uid u →
       ∃ v, v ∈ listed (getCompletedChallenges env' s') ∧ cv_id v = challengeId ∧
            cv_userScore v = Some (score res) ∧
            cv_completedAt v = Some (dateNow env)) ∧
    (∀ env' w, currentUser env' = Some w → uid w ≠ uid u →
       (∃ data, (challengeId, data) ∈ listed (getPendingChallenges env' s')) ↔
       (∃ data, (challengeId, data) ∈ listed (getPendingChallenges env' s))).
Proof.
  intros Hu Hch (r0 & Hin0 & Hr0).
  eexists _, _. split; [by apply completeChallenge_found|].
  set (s' := afterComplete env (uid u) challengeId userAnswer ch s).
  set (sc := score (gradeOf userAnswer ch)).
  pose proof (afterComplete_challenges env (uid u) challengeId userAnswer ch s Hch)
    as Hchs. fold s' sc in Hchs.
  split; [|split].
  - intros env' u' data Hu' Huid. rewrite (pending_listed env' u' _ _ _ Hu').
    rewrite Hchs, lookup_insert_eq. intros ([= <-] & r & Hin & Hr & Hst).
    simpl in Hin.
    assert (r_status r = completed) as Hc.
    { eapply (entries_of_caller _ (uid u)); [..|exact Hin|congruence].
      - intros. apply markCompleted_userId.
      - intros. by apply markCompleted_status. }
    congruence.
  - intros env' u' Hu' Huid.
    destruct (findRecipient (uid u') completed
                (updateRecipients
                   (map (markCompleted (uid u) sc userAnswer (dateNow env))
                        (ch_recipients ch)) (serverTime env) ch)) as [r|] eqn:Hf.
    + exists {| cv_id := challengeId;
                cv_data := updateRecipients
                   (map (markCompleted (uid u) sc userAnswer (dateNow env))
                        (ch_recipients ch)) (serverTime env) ch;
                cv_userScore := r_score r; cv_completedAt := r_completedAt r |}.
      split.
      { apply (completed_listed env' u' _ _ Hu'). exists r. simpl.
        by rewrite Hchs, lookup_insert_eq. }
      simpl. split; [done|].
      apply findRecipient_Some in Hf as (Hin & Hr & _). simpl in Hin.
      apply list_elem_of_fmap in Hin as (r1 & -> & Hin1).
      rewrite markCompleted_userId in Hr.
      unfold markCompleted. rewrite decide_True by congruence. done.
    + exfalso.
      assert (is_Some (findRecipient (uid u') completed
                (updateRecipients
                   (map (markCompleted (uid u) sc userAnswer (dateNow env))
                        (ch_recipients ch)) (serverTime env) ch))) as [? Hs];
        [|congruence].
      apply findRecipient_is_Some. simpl.
      exists (markCompleted (uid u) sc userAnswer (dateNow env) r0).
      split; [by apply list_elem_of_fmap_2|].
      rewrite markCompleted_userId. split; [congruence|].
      by apply markCompleted_status.
  - intros env' w Hw Hne.
    assert (∀ st data, (challengeId, data) ∈ listed (getPendingChallenges env' st) ↔
              challenges st !! challengeId = Some data ∧
              ∃ r, r ∈ ch_recipients data ∧ r_userId r = uid w ∧ r_status r = pending)
      as Hl by (intros; by apply pending_listed).
    split.
    + intros (data & Hd). apply Hl in Hd as [Hd Hex].
      rewrite Hchs, lookup_insert_eq in Hd. injection Hd as <-. simpl in Hex.
      exists ch. apply Hl. split; [done|].
      eapply (entries_of_others _ (uid u)); [..|exact Hex]; [|intros|done].
      * intros. apply markCompleted_userId.
      * by apply markCompleted_other.
    + intros (data & Hd). apply Hl in Hd as [Hd Hex].
      assert (data = ch) as -> by congruence.
      eexists. apply Hl. rewrite Hchs, lookup_insert_eq. split; [done|]. simpl.
      eapply (entries_of_others _ (uid u)); [..|exact Hex]; [|intros|done].
      * intros. apply markCompleted_userId.
      * by apply markCompleted_other.
Qed.

(** X3. After a recipient's [rejectChallenge], the challenge is listed
    for that recipient neither as pending nor as completed, also when it
    had been completed before; whether it is pending for any other user
    is unchanged. *)
Theorem rejection_removes_challenge env u challengeId s ch :
  currentUser env = Some u →
  challenges s !! challengeId = Some ch →
  ∃ s',
    rejectChallenge env challengeId s = Returned tt s' ∧
    (∀ env' u' data, currentUser env' = Some u' → uid u' = uid u →
       (challengeId, data) ∉ listed (getPendingChallenges env' s')) ∧
    (∀ env' u' v, currentUser env' = Some u' → uid u' = uid u →
       v ∈ listed (getCompletedChallenges env' s') → cv_id v ≠ challengeId) ∧
    (∀ env' w, currentUser env' = Some w → uid w ≠ uid u →
       (∃ data, (challengeId, data) ∈ listed (getPendingChallenges env' s')) ↔
       (∃ data, (challengeId, data) ∈ listed (getPendingChallenges env' s))).
Proof.
  intros Hu Hch. eexists. split; [by apply rejectChallenge_found|].
  set (ch' := updateRecipients
                (map (markRejected (uid u) (dateNow env)) (ch_recipients ch))
                (serverTime env) ch).
  assert (∀ A (f : gmap string Challenge → A),
            f (challenges (set_challenges
                 (alter (updateRecipients
                           (map (markRejected (uid u) (dateNow env)) (ch_recipients ch))
                           (serverTime env)) challengeId) s)) =
            f (<[challengeId := ch']> (challenges s))) as Hchs.
  { intros A f. f_equal. simpl. apply map_eq. intros j.
    rewrite lookup_alter, lookup_insert.
    destruct (decide (challengeId = j)) as [<-|]; [by rewrite Hch | done]. }
  assert (∀ r, r ∈ ch_recipients ch' → r_userId r = uid u → r_status r = rejected)
    as Hrej.
  { intros r Hin Hr. eapply (entries_of_caller _ (uid u)); [..|exact Hin|done].
    - intros. apply markRejected_userId.
    - intros. by apply markRejected_status. }
  split; [|split].
  - intros env' u' data Hu' Huid. rewrite (pending_listed env' u' _ _ _ Hu').
    rewrite (Hchs _ (λ m, m !! challengeId)), lookup_insert_eq.
    intros ([= <-] & r & Hin & Hr & Hst).
    rewrite Hrej in Hst; [done|done|congruence].
  - intros env' u' v Hu' Huid Hv Hid.
    apply (completed_listed env' u' _ _ Hu') in Hv as (r & Hd & Hf & _).
    rewrite Hid, (Hchs _ (λ m, m !! challengeId)), lookup_insert_eq in Hd.
    injection Hd as Hd. rewrite <- Hd in Hf.
    apply findRecipient_Some in Hf as (Hin & Hr & Hst).
    rewrite Hrej in Hst; [done|done|congruence].
  - intros env' w Hw Hne.
    assert (∀ st data, (challengeId, data) ∈ listed (getPendingChallenges env' st) ↔
              challenges st !! challengeId = Some data ∧
              ∃ r, r ∈ ch_recipients data ∧ r_userId r = uid w ∧ r_status r = pending)
      as Hl by (intros; by apply pending_listed).
    split.
    + intros (data & Hd). apply Hl in Hd as [Hd Hex].
      rewrite (Hchs _ (λ m, m !! challengeId)), lookup_insert_eq in Hd.
      injection Hd as <-. simpl in Hex.
      exists ch. apply Hl. split; [done|].
      eapply (entries_of_others _ (uid u)); [..|exact Hex]; [|intros|done].
      * intros. apply markRejected_userId.
      * by apply markRejected_other.
    + intros (data & Hd). apply Hl in Hd as [Hd Hex].
      assert (data = ch) as -> by congruence.
      exists ch'. apply Hl.
      rewrite (Hchs _ (λ m, m !! challengeId)), lookup_insert_eq. split; [done|]. simpl.
      eapply (entries_of_others _ (uid u)); [..|exact Hex]; [|intros|done].
      * intros. apply markRejected_userId.
      * by apply markRejected_other.
Qed.

Lemma completedViewOf_id userId kv v : completedViewOf userId kv = Some v → cv_id v = kv.1.
Proof.
  unfold completedViewOf. destruct (findRecipient _ _ _); simpl; [|done].
  by intros [= <-].
Qed.

Lemma completed_ids_NoDup userId (l : list (string * Challenge)) :
  NoDup (l.*1) → NoDup (cv_id <$> omap (completedViewOf userId) l).
Proof.
  induction l as [|kv l IH]; simpl; [constructor|].
  intros Hnd. apply NoDup_cons in Hnd as [Hnotin Hnd].
  destruct (completedViewOf userId kv) as [v|] eqn:Hv; simpl; [|by apply IH].
  apply NoDup_cons. split; [|by apply IH].
  intros Hin. apply Hnotin.
  apply list_elem_of_fmap in Hin as (v' & Hid & Hin).
  apply list_elem_of_omap in Hin as (kv' & Hin & Hv').
  apply completedViewOf_id in Hv, Hv'. apply list_elem_of_fmap.
  exists kv'. split; [congruence|done].
Qed.

(** X4. [getCompletedChallenges] never throws and leaves the store as it
    is; its result is ordered newest completion first and holds each
    challenge at most once. Signed out, it returns the empty list. *)
Theorem getCompletedChallenges_newest_first env s :
  ∃ l, getCompletedChallenges env s = Returned l s ∧
       newestFirst l ∧ NoDup (cv_id <$> l) ∧
       (currentUser env = None → l = []).
Proof.
  destruct (currentUser env) as [u|] eqn:Hu.
  - eexists. split; [by apply getCompletedChallenges_run|].
    split; [apply sortNewestFirst_sorted|]. split; [|done].
    rewrite sortNewestFirst_perm. apply completed_ids_NoDup.
    apply NoDup_fst_map_to_list.
  - exists []. unfold getCompletedChallenges. run_op. rewrite Hu.
    split; [done|]. split; [constructor|]. split; [constructor|done].
Qed.

(** ** The challenge screen *)









(** ** The user document *)

Lemma alter_fixed {A} (f : A → A) (k : string) (m : gmap string A) x :
  m !! k = Some x → f x = x → alter f k m = m.
Proof.
  intros Hx Hf. apply map_eq. intros j. rewrite lookup_alter.
  destruct (decide (k = j)) as [<-|]; [|done]. rewrite Hx. simpl. by rewrite Hf.
Qed.

(** X6. [ensureUserDocument] never throws. It creates the user's document
    with an empty friends list when there is none, and otherwise rewrites
    only email, display name and update time: the XP total, the friends
    and the challenge arrays of an existing document are kept, other
    users' documents are untouched, and a second call with the same user
    and clock changes nothing. *)
Theorem ensureUserDocument_keeps_progress env currentUser s :
  ∃ s' d',
    ensureUserDocument env currentUser s = Returned tt s' ∧
    users s' !! uid currentUser = Some d' ∧
    u_displayName d' = displayNameToUse currentUser ∧
    match users s !! uid currentUser with
    | Some d =>
        u_totalXP d' = u_totalXP d ∧ u_friends d' = u_friends d ∧
        u_pendingChallenges d' = u_pendingChallenges d ∧
        u_completedChallenges d' = u_completedChallenges d ∧
        u_createdAt d' = u_createdAt d
    | None => u_totalXP d' = None ∧ u_friends d' = Some []
    end ∧
    (∀ v, v ≠ uid currentUser → users s' !! v = users s !! v) ∧
    (∀ v, storedXP s' v = storedXP s v) ∧
    ensureUserDocument env currentUser s' = Returned tt s'.
Proof.
  unfold ensureUserDocument. run_op.
  destruct (users s !! uid currentUser) as [d|] eqn:Hd; simpl.
  - eexists _, (refreshProfile currentUser (serverTime env) d).
    split; [done|]. simpl.
    rewrite !lookup_alter, !decide_True, Hd by done. simpl.
    split; [done|]. split; [done|]. split; [done|].
    split. { intros v Hv. by rewrite lookup_alter, decide_False. }
    split.
    { intros v. unfold storedXP. simpl. rewrite lookup_alter.
      destruct (decide (uid currentUser = v)) as [<-|]; [|done]. by rewrite Hd. }
    f_equal. destruct s as [c sc mc chs cc us fr]. unfold set_users. simpl in *.
    f_equal. apply (alter_fixed _ _ _ (refreshProfile currentUser (serverTime env) d));
      [|done].
    by rewrite lookup_alter, decide_True, Hd.
  - eexists _, _. split; [done|]. simpl.
    rewrite !lookup_insert_eq. simpl.
    split; [done|]. split; [done|]. split; [done|].
    split. { intros v Hv. by rewrite lookup_insert_ne. }
    split.
    { intros v. unfold storedXP. simpl. rewrite lookup_insert.
      destruct (decide (uid currentUser = v)) as [<-|]; [|done]. by rewrite Hd. }
    f_equal. destruct s as [c sc mc chs cc us fr]. unfold set_users. simpl in *.
    f_equal. eapply alter_fixed; [apply lookup_insert_eq|done].
Qed.

(** ** Shared cards of a recipient *)

Lemma dedupe_elem seen cards card :
  card ∈ dedupeBySharedCardId seen cards → card ∈ cards.
Proof.
  revert seen. induction cards as [|c rest IH]; intros seen; simpl; [done|].
  destruct (decide (c !! "sharedCardId" ∈ seen)).
  - intros Hin. right. by eapply IH.
  - intros [->|Hin]%elem_of_cons; [left|right; by eapply IH].
Qed.

Lemma dedupe_keys seen cards :
  NoDup ((.!! "sharedCardId") <$> dedupeBySharedCardId seen cards) ∧
  ∀ card, card ∈ dedupeBySharedCardId seen cards → card !! "sharedCardId" ∉ seen.
Proof.
  revert seen. induction cards as [|c rest IH]; intros seen; simpl.
  - split; [constructor|]. intros card Hin. by apply elem_of_nil in Hin.
  - destruct (decide (c !! "sharedCardId" ∈ seen)) as [Hs|Hs]; [apply IH|].
    destruct (IH (c !! "sharedCardId" :: seen)) as [Hnd Hout]. split.
    + simpl. apply NoDup_cons. split; [|done].
      intros Hin. apply list_elem_of_fmap in Hin as (card & Hk & Hin).
      apply (Hout card Hin). rewrite <- Hk. apply list_elem_of_here.
    + intros card [->|Hin]%elem_of_cons; [done|].
      intros Hseen. apply (Hout card Hin). by right.
Qed.

Lemma dedupe_distinct seen (cards : list Doc) :
  NoDup ((.!! "sharedCardId") <$> cards) →
  (∀ card, card ∈ cards → card !! "sharedCardId" ∉ seen) →
  dedupeBySharedCardId seen cards = cards.
Proof.
  revert seen. induction cards as [|c rest IH]; intros seen; simpl; [done|].
  intros [Hnotin Hnd]%NoDup_cons Hout.
  rewrite decide_False by (apply Hout; apply list_elem_of_here).
  f_equal. apply IH; [done|].
  intros card Hin [Heq|Hs]%elem_of_cons.
  - apply Hnotin. apply list_elem_of_fmap. by exists card.
  - apply (Hout card); [by right|done].
Qed.

Lemma recipientView_other (kv : string * Doc) (field : string) :
  field ≠ "isShared" → field ≠ "id" → field ≠ "sharedCardId" →
  recipientView kv !! field = kv.2 !! field.
Proof.
  intros H1 H2 H3. unfold recipientView.
  rewrite lookup_insert_ne by done. rewrite lookup_union.
  rewrite lookup_insert_ne by done. rewrite lookup_singleton_ne by done.
  by destruct (kv.2 !! field).
Qed.

Lemma recipientView_sharedCardId (kv : string * Doc) :
  kv.2 !! "sharedCardId" = None →
  recipientView kv !! "sharedCardId" = Some (VStr kv.1).
Proof.
  intros Hnone. unfold recipientView.
  rewrite lookup_insert_ne by done. rewrite lookup_union, Hnone.
  rewrite lookup_insert_ne by done. by rewrite lookup_singleton_eq.
Qed.

Lemma getSharedCardsForRecipient_run env u s :
  currentUser env = Some u →
  getSharedCardsForRecipient env s =
    Returned (dedupeBySharedCardId []
                (recipientView <$>
                   queryDocs (fieldIs "recipientId" (uid u)) (sharedCards s))) s.
Proof. intros Hu. unfold getSharedCardsForRecipient. run_op. by rewrite Hu. Qed.

(** X7. [getSharedCardsForRecipient] returns only cards stored for the
    caller as recipient, each marked [isShared], and no two of them with
    the same [sharedCardId]; signed out, it throws. *)
Theorem recipient_listing_is_own_and_distinct env s :
  match currentUser env with
  | Some u =>
      ∃ l, getSharedCardsForRecipient env s = Returned l s ∧
           (∀ card, card ∈ l →
              card !! "recipientId" = Some (VStr (uid u)) ∧
              card !! "isShared" = Some (VBool true) ∧
              ∃ id d, sharedCards s !! id = Some d ∧ card = recipientView (id, d)) ∧
           NoDup ((.!! "sharedCardId") <$> l)
  | None => getSharedCardsForRecipient env s = Thrown NotAuthenticated s
  end.
Proof.
  destruct (currentUser env) as [u|] eqn:Hu.
  - eexists. split; [by apply getSharedCardsForRecipient_run|]. split.
    + intros card Hin. apply dedupe_elem in Hin.
      apply list_elem_of_fmap in Hin as ([id d] & -> & Hin).
      apply queryDocs_elem in Hin as [Hd Hr].
      rewrite recipientView_other by done. split; [done|].
      split; [apply lookup_insert_eq|]. by exists id, d.
    + apply dedupe_keys.
  - unfold getSharedCardsForRecipient. run_op. by rewrite Hu.
Qed.

Lemma materialization_is_idempotent_core env challengeData s :
  ∃ id s1 d,
    addSharedCardFromChallenge env challengeData s = Returned id s1 ∧
    sharedCards s1 !! id = Some d ∧
    sameTriple (cc_vocabulary (sr_card challengeData))
               (cc_definition (sr_card challengeData))
               (sr_recipientId challengeData) d ∧
    s1 = (if decide (matching challengeData s = ∅)
          then set_sharedCards (insert (autoId env) (newCard env challengeData)) s
          else s).
Proof.
  destruct (decide (matching challengeData s = ∅)) as [He|Hne].
  - eexists (autoId env), _, (newCard env challengeData).
    split; [by apply addSharedCardFromChallenge_new|].
    split; [simpl; apply lookup_insert_eq|].
    split; [apply newCard_sameTriple|done].
  - destruct (addSharedCardFromChallenge_existing env challengeData s Hne)
      as (id & d & Hrun & Hid & _).
    exists id, s, d. split; [done|].
    unfold matching in Hid. by apply map_lookup_filter_Some in Hid as [Hd Htriple].
Qed.

(** X8. A card materialized for a recipient shows up in that recipient's
    listing: in a store whose shared-card documents carry no
    [sharedCardId] field of their own (none written by
    [addSharedCardFromChallenge] does), after the call the recipient's
    [getSharedCardsForRecipient] holds a card under the returned id with
    the vocabulary and definition of the request. *)
Theorem materialized_card_is_listed env env' u challengeData s :
  currentUser env' = Some u →
  sr_recipientId challengeData = uid u →
  (∀ id d, sharedCards s !! id = Some d → d !! "sharedCardId" = None) →
  ∃ id s' card,
    addSharedCardFromChallenge env challengeData s = Returned id s' ∧
    card ∈ listed (getSharedCardsForRecipient env' s') ∧
    card !! "sharedCardId" = Some (VStr id) ∧
    card !! "vocabulary" = Some (VStr (cc_vocabulary (sr_card challengeData))) ∧
    card !! "definition" = Some (VStr (cc_definition (sr_card challengeData))).
Proof.
  intros Hu Hrec Hplain.
  destruct (materialization_is_idempotent_core env challengeData s)
    as (id & s' & d & Hrun & Hd & (Hv & Hdef & Hr) & Hs').
  exists id, s', (recipientView (id, d)). split; [done|].
  assert (∀ j x, sharedCards s' !! j = Some x → x !! "sharedCardId" = None) as Hplain'.
  { intros j x. rewrite Hs'. destruct (decide (matching challengeData s = ∅)); [|apply Hplain].
    simpl. rewrite lookup_insert. destruct (decide (autoId env = j)); [|apply Hplain].
    by intros [= <-]. }
  split.
  - rewrite (getSharedCardsForRecipient_run env' u s' Hu). simpl.
    rewrite dedupe_distinct.
    + apply list_elem_of_fmap. exists (id, d). split; [done|].
      apply queryDocs_elem. split; [done|]. by rewrite <- Hrec.
    + rewrite <- list_fmap_compose.
      apply (NoDup_fmap_2_strong _).
      * intros [j x] [j' x'] Hin Hin' Heq.
        apply queryDocs_elem in Hin as [Hx _]. apply queryDocs_elem in Hin' as [Hx' _].
        simpl in Heq.
        rewrite !recipientView_sharedCardId in Heq by (simpl; eauto).
        simpl in Heq. injection Heq as <-. congruence.
      * apply NoDup_map_to_list.
    + intros card Hin. apply not_elem_of_nil.
  - rewrite recipientView_sharedCardId by (simpl; eauto).
    rewrite !recipientView_other by done. done.
Qed.

(** ** Topics *)

Lemma set_store_same (w : World) : set_store (λ _, store w) w = w.
Proof. by destruct w. Qed.

Lemma liftOp_userId env u w :
  currentUser env = Some u → liftOp (getCurrentUserId env) w = Ended (uid u) w.
Proof.
  intros Hu. unfold liftOp, getCurrentUserId. rewrite Hu. simpl.
  by rewrite set_store_same.
Qed.


Lemma getTopic_owned env u topicId w d :
  currentUser env = Some u →
  topics w !! topicId = Some d →
  d !! "userId" = Some (VStr (uid u)) →
  getTopic env topicId w = Ended (withId (topicId, d)) w.
Proof.
  intros Hu Hd Ho. unfold getTopic. run_act. rewrite (liftOp_userId env u w Hu).
  rewrite Hd. by rewrite decide_True.
Qed.

Lemma getTopic_foreign env u topicId w d :
  currentUser env = Some u →
  topics w !! topicId = Some d →
  d !! "userId" ≠ Some (VStr (uid u)) →
  getTopic env topicId w =
    Failed (Prefixed "Failed to load topic: "
              (Message "Access denied: This topic belongs to another user")) w.
Proof.
  intros Hu Hd Ho. unfold getTopic. run_act. rewrite (liftOp_userId env u w Hu).
  rewrite Hd. by rewrite decide_False.
Qed.

Lemma getTopic_missing env u topicId w :
  currentUser env = Some u →
  topics w !! topicId = None →
  getTopic env topicId w =
    Failed (Prefixed "Failed to load topic: " (Message "Topic not found")) w.
Proof.
  intros Hu Hd. unfold getTopic. run_act. rewrite (liftOp_userId env u w Hu).
  by rewrite Hd.
Qed.

(** A topic the caller cannot load: absent, or owned by someone else. *)
Lemma getTopic_refused env u topicId w :
  currentUser env = Some u →
  (∀ d, topics w !! topicId = Some d → d !! "userId" ≠ Some (VStr (uid u))) →
  ∃ f, getTopic env topicId w = Failed f w.
Proof.
  intros Hu Hno. destruct (topics w !! topicId) as [d|] eqn:Hd.
  - eexists. eapply getTopic_foreign; eauto.
  - eexists. by eapply getTopic_missing.
Qed.

(** X9. A topic created by a user is stored under the id drawn for it
    with a card count of zero; its owner loads it back with [getTopic],
    and any other signed-in user is refused with 'Access denied'. The name
    is not checked: an empty name is stored like any other. *)
Theorem createTopic_then_getTopic env u topicData w :
  currentUser env = Some u →
  ∃ w',
    createTopic env topicData w = Ended (autoId env) w' ∧
    store w' = store w ∧
    (∀ env' u', currentUser env' = Some u' → uid u' = uid u →
       ∃ topic, getTopic env' (autoId env) w' = Ended topic w' ∧
                topic !! "name" = Some (VStr (ti_name topicData)) ∧
                topic !! "cardCount" = Some (VNum 0) ∧
                topic !! "userId" = Some (VStr (uid u))) ∧
    (∀ env' v, currentUser env' = Some v → uid v ≠ uid u →
       getTopic env' (autoId env) w' =
         Failed (Prefixed "Failed to load topic: "
                   (Message "Access denied: This topic belongs to another user")) w').
Proof.
  intros Hu. unfold createTopic. run_act. rewrite (liftOp_userId env u w Hu).
  eexists. split; [done|]. split; [done|]. split.
  - intros env' u' Hu' Huid. eexists. split.
    + eapply getTopic_owned; [done|apply lookup_insert_eq|]. by rewrite Huid.
    + rewrite !withId_other by done. done.
  - intros env' v Hv Hne. eapply getTopic_foreign; [done|apply lookup_insert_eq|].
    intros [= Heq]. by apply Hne.
Qed.

(** X10. [updateTopic] writes only for the owner: it merges the fields of
    the patch into the topic, stamps [updatedAt] and keeps every other
    field and every other topic; for anyone else, or for a missing topic,
    it throws and nothing is written. *)
Theorem updateTopic_only_by_owner env u topicId updateData w :
  currentUser env = Some u →
  match topics w !! topicId with
  | Some d =>
      if decide (d !! "userId" = Some (VStr (uid u))) then
        ∃ w' d',
          updateTopic env topicId updateData w = Ended tt w' ∧
          topics w' = <[topicId := d']> (topics w) ∧ store w' = store w ∧
          d' !! "updatedAt" = Some (VTime (serverTime env)) ∧
          (∀ field, field ≠ "updatedAt" →
             d' !! field = match updateData !! field with
                           | Some v => Some v
                           | None => d !! field
                           end)
      else ∃ f, updateTopic env topicId updateData w = Failed f w
  | None => ∃ f, updateTopic env topicId updateData w = Failed f w
  end.
Proof.
  intros Hu. unfold updateTopic. run_act. rewrite (liftOp_userId env u w Hu).
  destruct (topics w !! topicId) as [d|] eqn:Hd.
  - destruct (decide (d !! "userId" = Some (VStr (uid u)))) as [Ho|Ho].
    + rewrite (getTopic_owned env u topicId w d Hu Hd Ho).
      eexists _, _. split; [done|]. simpl. split.
      { apply map_eq. intros j. rewrite lookup_alter, lookup_insert.
        destruct (decide (topicId = j)) as [<-|]; [by rewrite Hd|done]. }
      split; [done|]. unfold mergeFields. split.
      * apply lookup_union_Some_l, lookup_insert_eq.
      * intros field Hf. rewrite lookup_union, lookup_insert_ne by done.
        destruct (updateData !! field), (d !! field); done.
    + rewrite (getTopic_foreign env u topicId w d Hu Hd Ho). by eexists.
  - rewrite (getTopic_missing env u topicId w Hu Hd). by eexists.
Qed.

(** ** Cards and topic counts *)

Section filter_size.
Context {A : Type} (P : string * A → Prop) `{!∀ x, Decision (P x)}.

Lemma size_filter_insert (m : gmap string A) k y :
    size (filter P (<[k := y]> m)) =
      (size (filter P (delete k m)) + if decide (P (k, y)) then 1 else 0)%nat.
Proof.
    rewrite <- (insert_delete_eq m). rewrite map_filter_insert.
    destruct (decide (P (k, y))).
    - rewrite map_size_insert_None; [lia|].
      apply map_lookup_filter_None_2. left. apply lookup_delete_eq.
    - rewrite delete_delete_eq. lia.
Qed.

Lemma size_filter_lookup (m : gmap string A) k x :
    m !! k = Some x →
    size (filter P m) =
      (size (filter P (delete k m)) + if decide (P (k, x)) then 1 else 0)%nat.
Proof. intros Hx. rewrite <- (insert_id m k x Hx) at 1. apply size_filter_insert. Qed.

Lemma size_filter_fresh (m : gmap string A) k y :
    m !! k = None →
    size (filter P (<[k := y]> m)) =
      (size (filter P m) + if decide (P (k, y)) then 1 else 0)%nat.
Proof. intros Hx. rewrite size_filter_insert. by rewrite delete_id. Qed.
End filter_size.

Lemma commit_run writes w :
  forallb (writable w) writes = true →
  commit writes w = Ended tt (foldl applyWrite w writes).
Proof. intros Hw. unfold commit. by rewrite Hw. Qed.

Lemma countBy_cardCount delta t d n :
  d !! "cardCount" = Some (VNum n) →
  isInt64 (n + delta) →
  countBy delta t d !! "cardCount" = Some (VNum (n + delta)).
Proof.
  intros Hn Hrange. unfold countBy, incrementField.
  rewrite lookup_insert_ne by done. rewrite lookup_insert_eq, Hn.
  by rewrite saturate_int64.
Qed.

Lemma count_isInt64 (k : nat) delta :
  (Z.of_nat k < maxInt64)%Z → (-1 ≤ delta ≤ 1)%Z → isInt64 (Z.of_nat k + delta).
Proof. unfold isInt64, minInt64, maxInt64. lia. Qed.

Lemma newLegacyCard_no_topic env userId v d s i :
  newLegacyCard env userId v d s i !! "topicId" = None.
Proof. reflexivity. Qed.

Lemma addCardWithTopic_unfiled env u v d s i topicId w :
  currentUser env = Some u →
  topicFilter topicId = None →
  addCardWithTopic env v d s i topicId w =
    Ended (autoId env)
      (set_store (set_cards (insert (autoId env) (newLegacyCard env (uid u) v d s i))) w).
Proof.
  intros Hu Ht. unfold addCardWithTopic. rewrite Ht. run_act.
  by rewrite (liftOp_userId env u w Hu).
Qed.

Lemma addCardWithTopic_filed env u v d s i topicId t w topic :
  currentUser env = Some u →
  topicFilter topicId = Some t →
  topics w !! t = Some topic →
  topic !! "userId" = Some (VStr (uid u)) →
  addCardWithTopic env v d s i topicId w =
    Ended (autoId env)
      (set_topics (alter (countBy 1 (serverTime env)) t)
         (set_store
            (set_cards (insert (autoId env)
                          (<["topicId" := VStr t]>
                             (newLegacyCard env (uid u) v d s i)))) w)).
Proof.
  intros Hu Ht Htopic Ho. unfold addCardWithTopic. rewrite Ht. run_act.
  rewrite (liftOp_userId env u w Hu).
  rewrite (getTopic_owned env u t w topic Hu Htopic Ho).
  unfold commit. simpl. rewrite Htopic. simpl.
  rewrite ?bool_decide_eq_true_2 by eauto. done.
Qed.

Lemma addCardWithTopic_refused env u v d s i topicId t w :
  currentUser env = Some u →
  topicFilter topicId = Some t →
  (∀ topic, topics w !! t = Some topic → topic !! "userId" ≠ Some (VStr (uid u))) →
  ∃ f, addCardWithTopic env v d s i topicId w = Failed f w.
Proof.
  intros Hu Ht Hno. unfold addCardWithTopic. rewrite Ht. run_act.
  rewrite (liftOp_userId env u w Hu).
  destruct (getTopic_refused env u t w Hu Hno) as [f Hf]. rewrite Hf. by eexists.
Qed.

(** X11. [addCardWithTopic] is all or nothing. Asked to file the card
    under a topic that is missing or belongs to someone else, it throws
    and writes nothing; otherwise it stores the card under the id drawn
    for it, owned by the caller and carrying the topic id, and raises that
    topic's [cardCount] by exactly one in the same batch (a count short
    of the largest 64-bit integer), leaving every other topic as it
    was. *)
Theorem addCardWithTopic_all_or_nothing env u v d s i topicId t w :
  currentUser env = Some u →
  topicFilter topicId = Some t →
  match topics w !! t with
  | Some topic =>
      if decide (topic !! "userId" = Some (VStr (uid u))) then
        ∃ w' card topic',
          addCardWithTopic env v d s i topicId w = Ended (autoId env) w' ∧
          cards (store w') = <[autoId env := card]> (cards (store w)) ∧
          card !! "userId" = Some (VStr (uid u)) ∧
          card !! "topicId" = Some (VStr t) ∧
          card !! "vocabulary" = Some (VStr v) ∧
          topics w' = <[t := topic']> (topics w) ∧
          (∀ n, topic !! "cardCount" = Some (VNum n) → isInt64 (n + 1) →
                topic' !! "cardCount" = Some (VNum (n + 1))) ∧
          topic' !! "userId" = topic !! "userId"
      else ∃ f, addCardWithTopic env v d s i topicId w = Failed f w
  | None => ∃ f, addCardWithTopic env v d s i topicId w = Failed f w
  end.
Proof.
  intros Hu Ht. destruct (topics w !! t) as [topic|] eqn:Htopic.
  - destruct (decide (topic !! "userId" = Some (VStr (uid u)))) as [Ho|Ho].
    + eexists _, _, (countBy 1 (serverTime env) topic).
      split; [by eapply addCardWithTopic_filed|]. simpl.
      split; [done|]. split; [done|]. split; [done|]. split; [done|].
      split.
      { apply map_eq. intros j. rewrite lookup_alter, lookup_insert.
        destruct (decide (t = j)) as [<-|]; [by rewrite Htopic|done]. }
      split; [intros n Hn Hrange; by apply countBy_cardCount|].
      unfold countBy, incrementField. by rewrite !lookup_insert_ne.
    + eapply addCardWithTopic_refused; [done..|].
      intros topic' Ht'. rewrite Htopic in Ht'. by injection Ht' as <-.
  - eapply addCardWithTopic_refused; [done..|].
    intros topic' Ht'. by rewrite Htopic in Ht'.
Qed.

Lemma cardsIn_insert_fresh w id c t :
  cards (store w) !! id = None →
  cardsIn (set_store (set_cards (insert id c)) w) t =
    (cardsIn w t + if decide (fieldIs "topicId" t c) then 1 else 0)%nat.
Proof.
  intros Hfresh. unfold cardsIn. simpl.
  rewrite (size_filter_fresh (λ kv, fieldIs "topicId" t kv.2)) by done. done.
Qed.

Lemma cardsIn_set_topics f w t : cardsIn (set_topics f w) t = cardsIn w t.
Proof. reflexivity. Qed.

(** X12. [addCardWithTopic] keeps the topic counts right: when the id
    drawn for the card is new, every topic whose [cardCount] equalled the
    number of cards filed under it before the call still does after it
    (the number being short of the largest 64-bit integer). *)
Theorem addCardWithTopic_keeps_counts env u v d s i topicId w w' id :
  currentUser env = Some u →
  cards (store w) !! autoId env = None →
  addCardWithTopic env v d s i topicId w = Ended id w' →
  ∀ t, (Z.of_nat (cardsIn w t) < maxInt64)%Z →
       countConsistent w t → countConsistent w' t.
Proof.
  intros Hu Hfresh Hrun t Hroom Hcons.
  destruct (topicFilter topicId) as [t0|] eqn:Ht.
  - destruct (topics w !! t0) as [topic|] eqn:Htopic.
    + destruct (decide (topic !! "userId" = Some (VStr (uid u)))) as [Ho|Ho].
      * rewrite (addCardWithTopic_filed env u v d s i topicId t0 w topic Hu Ht Htopic Ho)
          in Hrun.
        injection Hrun as _ <-. intros d' Hd'. simpl in Hd'.
        rewrite cardsIn_set_topics, cardsIn_insert_fresh by done.
        rewrite lookup_alter in Hd'. destruct (decide (t0 = t)) as [<-|Hne].
        -- rewrite Htopic in Hd'. simpl in Hd'. injection Hd' as <-.
           rewrite decide_True by (unfold fieldIs; apply lookup_insert_eq).
           rewrite (countBy_cardCount 1 _ topic (Z.of_nat (cardsIn w t0)))
             by (by apply Hcons || (apply count_isInt64; [done|lia])).
           do 2 f_equal. lia.
        -- rewrite decide_False.
           ++ rewrite Nat.add_0_r. by apply Hcons.
           ++ unfold fieldIs. rewrite lookup_insert_eq. intros [= ->]. done.
      * destruct (addCardWithTopic_refused env u v d s i topicId t0 w Hu Ht) as [f Hf].
        { intros topic' Ht'. rewrite Htopic in Ht'. by injection Ht' as <-. }
        congruence.
    + destruct (addCardWithTopic_refused env u v d s i topicId t0 w Hu Ht) as [f Hf].
      { intros topic' Ht'. by rewrite Htopic in Ht'. }
      congruence.
  - rewrite (addCardWithTopic_unfiled env u v d s i topicId w Hu Ht) in Hrun.
    injection Hrun as _ <-. intros d' Hd'. simpl in Hd'.
    rewrite cardsIn_insert_fresh by done.
    rewrite decide_False by (unfold fieldIs; by rewrite newLegacyCard_no_topic).
    rewrite Nat.add_0_r. by apply Hcons.
Qed.

Lemma filedUnder_Some c t : filedUnder c = Some t → c !! "topicId" = Some (VStr t) ∧ t ≠ "".
Proof.
  unfold filedUnder, truthyField, asDocId.
  destruct (c !! "topicId") as [[x| | | |]|]; simpl; try done.
  - destruct x; simpl; [done|]. by intros [= <-].
  - by destruct (negb _).
  - by destruct b.
Qed.

Lemma filedUnder_of_field c t : c !! "topicId" = Some (VStr t) → t ≠ "" → filedUnder c = Some t.
Proof.
  intros Hc Ht. unfold filedUnder, truthyField, asDocId. rewrite Hc. simpl.
  destruct t; [done|]. done.
Qed.




Lemma lookup_optional_alter {A} (f : A → A) (o : option string) (m : gmap string A) t :
  from_option (alter f) id o m !! t =
    (if decide (o = Some t) then f else id) <$> m !! t.
Proof.
  destruct o as [k|]; simpl.
  - rewrite lookup_alter. destruct (decide (k = t)) as [->|Hne].
    + by rewrite decide_True.
    + rewrite decide_False by congruence. by destruct (m !! t).
  - by destruct (m !! t).
Qed.





Lemma counterUpdate_run field ref f w :
  counterUpdate field ref f w =
    if truthyField field then
      match asDocId field with
      | Some id => Ended (match getRef (ref id) w with
                          | Some _ => [WUpdate (ref id) f]
                          | None => []
                          end) w
      | None => Failed (StoreFailure "invalid-argument") w
      end
    else Ended [] w.
Proof.
  unfold counterUpdate. destruct (truthyField field); [|done].
  destruct (asDocId field); [|done]. done.
Qed.

Lemma counterUpdate_writable field ref f w ws w' :
  counterUpdate field ref f w = Ended ws w' →
  w' = w ∧ forallb (writable w) ws = true.
Proof.
  rewrite counterUpdate_run. destruct (truthyField field).
  - destruct (asDocId field) as [id|]; [|done].
    intros [= <- <-]. split; [done|].
    destruct (getRef (ref id) w) eqn:Hr; simpl; [|done].
    rewrite Hr. by rewrite bool_decide_eq_true_2 by eauto.
  - by intros [= <- <-].
Qed.

Lemma counterUpdate_fails field ref f w e w' :
  counterUpdate field ref f w = Failed e w' → malformedId field.
Proof.
  rewrite counterUpdate_run. unfold malformedId.
  destruct (truthyField field); [|done].
  destruct (asDocId field); done.
Qed.

Lemma forallb_app_true {A} (p : A → bool) l1 l2 :
  forallb p l1 = true → forallb p l2 = true → forallb p (l1 ++ l2) = true.
Proof. intros H1 H2. rewrite forallb_app. by rewrite H1, H2. Qed.

(** [removeCardFromCollection] fails only where a field names no
    document. *)
Lemma removeCardFromCollection_fails env u cardId w e w' :
  currentUser env = Some u →
  removeCardFromCollection env cardId w = Failed e w' →
  ∃ d, cardDataOf (uid u) cardId w = Some d ∧
       (malformedId (d !! "sharedCardId") ∨ malformedId (d !! "topicId")).
Proof.
  intros Hu. unfold removeCardFromCollection, cardDataOf.
  unfold mbind at 1, Act_bind at 1. rewrite (liftOp_userId _ _ _ Hu).
  run_act.
  set (userCardSnap := default ∅ (myCards (store w) !! uid u) !! cardId).
  set (mainCardSnap := cards (store w) !! cardId).
  set (cardData := match userCardSnap with Some d => Some d | None => mainCardSnap end).
  destruct cardData as [d|] eqn:Hd; [|done].
  destruct (counterUpdate (d !! "sharedCardId") SharedCardRef
              (incrementField "userCount" (-1)) w) as [ws1 w1|e1 w1] eqn:H1.
  2:{ intros _. exists d. split; [done|]. left. by eapply counterUpdate_fails. }
  apply counterUpdate_writable in H1 as [-> Hw1].
  destruct (counterUpdate (d !! "topicId") TopicRef
              (countBy (-1) (serverTime env)) w) as [ws2 w2|e2 w2] eqn:H2.
  2:{ intros _. exists d. split; [done|]. right. by eapply counterUpdate_fails. }
  apply counterUpdate_writable in H2 as [-> Hw2].
  rewrite commit_run; [done|].
  repeat apply forallb_app_true; try done.
  - by destruct userCardSnap.
  - destruct userCardSnap; [done|]. destruct mainCardSnap; [|done].
    by destruct (decide _).
Qed.

(** X14. [deleteCard] of a signed-in caller fails only on a malformed
    document: when it throws, the document it read under the id (the
    caller's reference, or else the card) has a [sharedCardId] or a
    [topicId] that is truthy and not a string.  For every other document,
    and for an id that names nothing, it returns: the errors
    [Card not found] and [Access denied] of its second part are not
    reached. *)
Theorem deleteCard_fails_only_on_malformed_ids env u cardId w e w' :
  currentUser env = Some u →
  deleteCard env cardId w = Failed e w' →
  ∃ d, cardDataOf (uid u) cardId w = Some d ∧
       (malformedId (d !! "sharedCardId") ∨ malformedId (d !! "topicId")).
Proof.
  intros Hu. unfold deleteCard.
  unfold mbind at 1, Act_bind at 1. rewrite (liftOp_userId _ _ _ Hu).
  unfold attempt.
  destruct (removeCardFromCollection env cardId w) as [[] w1|e1 w1] eqn:Hrem; [done|].
  intros _. by eapply removeCardFromCollection_fails.
Qed.

Lemma alter_absent {A} (f : A → A) (m : gmap string A) k :
  m !! k = None → alter f k m = m.
Proof.
  intros Hk. apply map_eq. intros j. rewrite lookup_alter.
  destruct (decide (k = j)) as [<-|]; [by rewrite Hk|done].
Qed.

Lemma filedUnder_plain c :
  plainCard c → truthyField (c !! "topicId") = true → is_Some (filedUnder c).
Proof.
  intros [_ [Ht|[Ht|[t Ht]]]]; unfold filedUnder; rewrite Ht; simpl; try done.
  destruct t; simpl; [done|]. eauto.
Qed.

(** What [removeCardFromCollection] does to a plain card of the [cards]
    collection that the caller holds no reference to. *)
Lemma removeCardFromCollection_plain env u cardId w c :
  currentUser env = Some u →
  getRef (MyCardRef (uid u) cardId) w = None →
  cards (store w) !! cardId = Some c →
  plainCard c →
  removeCardFromCollection env cardId w =
    Ended tt
      (set_topics (from_option (alter (countBy (-1) (serverTime env))) id (filedUnder c))
         (set_store (set_cards (if decide (c !! "userId" = Some (VStr (uid u)))
                                then delete cardId else id)) w)).
Proof.
  intros Hu Href Hc Hplain. unfold removeCardFromCollection.
  unfold mbind at 1, Act_bind at 1. rewrite (liftOp_userId _ _ _ Hu).
  run_act. simpl in Href. rewrite Href, Hc.
  rewrite !counterUpdate_run.
  destruct Hplain as [Hs Ht]. rewrite Hs. simpl.
  rewrite ?counterUpdate_run.
  unfold filedUnder.
  destruct (truthyField (c !! "topicId")) eqn:Htruthy.
  - destruct (filedUnder_plain c (conj Hs Ht) Htruthy) as [t Hf].
    unfold filedUnder in Hf. rewrite Htruthy in Hf. rewrite Hf. simpl.
    destruct (topics w !! t) as [topic|] eqn:Htopic.
    + unfold commit.
      destruct (decide (c !! "userId" = Some (VStr (uid u)))); simpl;
        rewrite bool_decide_eq_true_2 by eauto; simpl; [done|].
      by destruct w as [[] ?].
    + unfold commit.
      destruct (decide (c !! "userId" = Some (VStr (uid u)))); simpl;
        f_equal; destruct w as [[] tp]; unfold set_topics, set_store; simpl in *;
        f_equal; by rewrite alter_absent.
  - simpl. unfold commit.
    destruct (decide (c !! "userId" = Some (VStr (uid u)))); simpl;
      f_equal; by destruct w as [[] ?].
Qed.

Lemma deleteCard_plain env u cardId w c :
  currentUser env = Some u →
  getRef (MyCardRef (uid u) cardId) w = None →
  cards (store w) !! cardId = Some c →
  plainCard c →
  deleteCard env cardId w =
    Ended tt
      (set_topics (from_option (alter (countBy (-1) (serverTime env))) id (filedUnder c))
         (set_store (set_cards (if decide (c !! "userId" = Some (VStr (uid u)))
                                then delete cardId else id)) w)).
Proof.
  intros Hu Href Hc Hplain. unfold deleteCard.
  unfold mbind at 1, Act_bind at 1. rewrite (liftOp_userId _ _ _ Hu).
  unfold attempt. by rewrite (removeCardFromCollection_plain env u cardId w c).
Qed.

Lemma cardsIn_delete w cardId c t :
  cards (store w) !! cardId = Some c →
  (cardsIn (set_store (set_cards (delete cardId)) w) t
   + (if decide (fieldIs "topicId" t c) then 1 else 0) = cardsIn w t)%nat.
Proof.
  intros Hc. unfold cardsIn. simpl.
  rewrite (size_filter_lookup (λ kv, fieldIs "topicId" t kv.2) _ cardId c Hc).
  done.
Qed.

(** X15. [deleteCard] on a plain card of the caller, to which the caller
    holds no reference, deletes exactly that card and keeps the topic
    counts right: every topic whose [cardCount] equalled the number of
    cards filed under it before still does (the number being short of the
    largest 64-bit integer). *)
Theorem deleteCard_removes_own_card env u cardId w c :
  currentUser env = Some u →
  getRef (MyCardRef (uid u) cardId) w = None →
  cards (store w) !! cardId = Some c →
  c !! "userId" = Some (VStr (uid u)) →
  plainCard c →
  ∃ w', deleteCard env cardId w = Ended tt w' ∧
        cards (store w') = delete cardId (cards (store w)) ∧
        ∀ t, t ≠ "" → (Z.of_nat (cardsIn w t) < maxInt64)%Z →
             countConsistent w t → countConsistent w' t.
Proof.
  intros Hu Href Hc Hown Hplain. eexists. split.
  { by apply (deleteCard_plain env u cardId w c). }
  rewrite decide_True by done. split; [done|].
  intros t Hne Hroom Hcons d' Hd'. simpl in Hd'.
  rewrite lookup_optional_alter in Hd'. rewrite cardsIn_set_topics.
  pose proof (cardsIn_delete w cardId c t Hc) as Hsize.
  destruct (topics w !! t) as [d|] eqn:Hd; [|done]. simpl in Hd'.
  specialize (Hcons d Hd).
  destruct (decide (filedUnder c = Some t)) as [Ho|Ho]; injection Hd' as <-.
  - apply filedUnder_Some in Ho as [Ho _].
    rewrite decide_True in Hsize by done.
    rewrite (countBy_cardCount (-1) _ d _ Hcons) by (apply count_isInt64; [done|lia]).
    do 2 f_equal. lia.
  - rewrite decide_False in Hsize.
    2:{ intros Hf. apply Ho. by apply filedUnder_of_field. }
    rewrite Hcons. do 2 f_equal. lia.
Qed.

(** X16. [deleteCard] on a plain card of another user reports no error
    and leaves the card where it is, and yet takes one off the count of
    the topic the card is filed under. *)
Theorem deleteCard_spares_foreign_card env u cardId w c :
  currentUser env = Some u →
  getRef (MyCardRef (uid u) cardId) w = None →
  cards (store w) !! cardId = Some c →
  c !! "userId" ≠ Some (VStr (uid u)) →
  plainCard c →
  ∃ w', deleteCard env cardId w = Ended tt w' ∧
        store w' = store w ∧
        ∀ t topic n,
          filedUnder c = Some t →
          topics w !! t = Some topic →
          topic !! "cardCount" = Some (VNum n) →
          isInt64 (n - 1) →
          ∃ topic', topics w' !! t = Some topic' ∧
                    topic' !! "cardCount" = Some (VNum (n - 1)).
Proof.
  intros Hu Href Hc Hown Hplain. eexists. split.
  { by apply (deleteCard_plain env u cardId w c). }
  rewrite decide_False by done. split; [by destruct w as [[] ?]|].
  intros t topic n Hf Ht Hn Hrange. simpl. rewrite Hf. simpl.
  rewrite lookup_alter_eq, Ht. simpl. eexists. split; [done|].
  by apply (countBy_cardCount (-1)).
Qed.

Lemma set_cards_id (w : World) : set_store (set_cards id) w = w.
Proof. by destruct w as [[] ?]. Qed.

Lemma set_cards_compose f g (w : World) :
  set_store (set_cards g) (set_store (set_cards f) w) = set_store (set_cards (g ∘ f)) w.
Proof. by destruct w as [[] ?]. Qed.

Lemma set_topics_compose f g (w : World) :
  set_topics g (set_topics f w) = set_topics (g ∘ f) w.
Proof. by destruct w. Qed.

(** A batch of writes to one collection changes that collection by the
    fold of the map changes. *)
Lemma foldl_card_writes {A} (mk : A → Write) (step : A → gmap string Doc → gmap string Doc)
    (l : list A) w :
  (∀ a w, applyWrite w (mk a) = set_store (set_cards (step a)) w) →
  foldl applyWrite w (mk <$> l) =
    set_store (set_cards (λ m, foldl (λ m a, step a m) m l)) w.
Proof.
  intros Hmk. revert w. induction l as [|a l IH]; intros w; simpl.
  - by destruct w as [[] ?].
  - rewrite IH, Hmk. by destruct w as [[] ?].
Qed.

Lemma foldl_topic_writes {A} (mk : A → Write) (step : A → gmap string Doc → gmap string Doc)
    (l : list A) w :
  (∀ a w, applyWrite w (mk a) = set_topics (step a) w) →
  foldl applyWrite w (mk <$> l) =
    set_topics (λ m, foldl (λ m a, step a m) m l) w.
Proof.
  intros Hmk. revert w. induction l as [|a l IH]; intros w; simpl.
  - by destruct w.
  - rewrite IH, Hmk. by destruct w.
Qed.

Lemma lookup_foldl_delete {A} (l : list (string * A)) (m : gmap string A) j :
  foldl (λ m kv, delete kv.1 m) m l !! j =
    if decide (j ∈ l.*1) then None else m !! j.
Proof.
  revert m. induction l as [|[k x] l IH]; intros m.
  - cbn [foldl]. rewrite fmap_nil. rewrite decide_False; [done|]. apply not_elem_of_nil.
  - cbn [foldl fst]. rewrite fmap_cons. cbn [fst]. rewrite IH. destruct (decide (j ∈ l.*1)) as [Hin|Hin].
    + rewrite decide_True; [done|]. apply elem_of_cons. by right.
    + rewrite lookup_delete. destruct (decide (k = j)) as [->|Hkj].
      * rewrite decide_True; [done|]. apply elem_of_cons. by left.
      * rewrite decide_False; [done|]. rewrite elem_of_cons. by intros [->|?].
Qed.

Lemma lookup_foldl_alter {A} (f : A → A) (l : list (string * A)) (m : gmap string A) j :
  NoDup l.*1 →
  foldl (λ m kv, alter f kv.1 m) m l !! j =
    if decide (j ∈ l.*1) then f <$> m !! j else m !! j.
Proof.
  revert m. induction l as [|[k x] l IH]; intros m Hnd.
  - cbn [foldl]. rewrite fmap_nil. rewrite decide_False; [done|]. apply not_elem_of_nil.
  - rewrite fmap_cons in *. cbn [foldl fst] in *.
    apply NoDup_cons in Hnd as [Hk Hnd]. rewrite IH by done.
    rewrite lookup_alter.
    destruct (decide (j ∈ k :: l.*1)) as [Hin|Hin];
      destruct (decide (k = j)) as [->|Hkj];
      destruct (decide (j ∈ l.*1)) as [Hin'|Hin'];
      try done.
    + by apply elem_of_cons in Hin as [->|Hin].
    + exfalso. apply Hin, elem_of_cons. by left.
    + exfalso. apply Hin, elem_of_cons. by right.
Qed.

Lemma getTopic_keeps_world env topicId w r :
  getTopic env topicId w = r → finalWorld r = w.
Proof.
  intros <-. unfold getTopic, attempt.
  unfold mbind at 1, Act_bind at 1. unfold liftOp, getCurrentUserId.
  destruct (currentUser env) as [u|]; simpl; [|by destruct w].
  rewrite set_store_same. run_act.
  destruct (topics w !! topicId) as [d|]; [|done].
  by destruct (decide _).
Qed.

(** X17. [deleteTopic] by the owner deletes the topic and, with it,
    exactly the caller's cards filed under it: every other card is kept,
    a card of another user filed under the topic included. *)
Theorem deleteTopic_cascades env u topicId w d :
  currentUser env = Some u →
  topics w !! topicId = Some d →
  d !! "userId" = Some (VStr (uid u)) →
  ∃ w', deleteTopic env topicId w = Ended tt w' ∧
        topics w' = delete topicId (topics w) ∧
        cards (store w') =
          filter (λ kv, ¬ inTopicOf topicId (uid u) kv.2) (cards (store w)).
Proof.
  intros Hu Ht Hown. unfold deleteTopic, attempt.
  unfold mbind at 1, Act_bind at 1. rewrite (liftOp_userId _ _ _ Hu).
  unfold mbind at 1, Act_bind at 1. rewrite (getTopic_owned _ _ _ _ _ Hu Ht Hown).
  run_act. unfold commit.
  set (snapshot := queryDocs (inTopicOf topicId (uid u)) (cards (store w))).
  assert (forallb (writable w)
            (((λ cardDoc, WDelete (CardRef cardDoc.1)) <$> snapshot)
             ++ [WDelete (TopicRef topicId)]) = true) as ->.
  { apply forallb_forall. intros wr Hin. apply in_app_or in Hin as [Hin|Hin].
    - apply in_map_iff in Hin as (kv & <- & _). done.
    - destruct Hin as [<-|[]]. done. }
  eexists. split; [done|].
  rewrite foldl_app. simpl.
  rewrite (foldl_card_writes _ (λ kv, delete kv.1)) by done.
  split; [done|]. simpl.
  apply map_eq. intros j. rewrite lookup_foldl_delete.
  destruct (decide (j ∈ snapshot.*1)) as [Hin|Hin].
  - symmetry. apply map_lookup_filter_None_2.
    apply list_elem_of_fmap in Hin as ([k c] & -> & Hin). simpl.
    apply queryDocs_elem in Hin as [Hc HP]. right. intros x Hx. simpl.
    rewrite Hc in Hx. injection Hx as <-. by intros Hno.
  - destruct (cards (store w) !! j) as [c|] eqn:Hc.
    + symmetry. apply map_lookup_filter_Some. split; [done|]. simpl.
      intros HP. apply Hin. apply list_elem_of_fmap. exists (j, c). split; [done|].
      by apply queryDocs_elem.
    + symmetry. apply map_lookup_filter_None_2. by left.
Qed.

(** X18. [deleteTopic] is all or nothing: when it throws (no caller,
    no such topic, a topic of another user) no document has changed. *)
Theorem deleteTopic_refused_changes_nothing env topicId w e w' :
  deleteTopic env topicId w = Failed e w' → w' = w.
Proof.
  unfold deleteTopic, attempt.
  unfold mbind at 1, Act_bind at 1. unfold liftOp, getCurrentUserId.
  destruct (currentUser env) as [u|]; simpl.
  2:{ unfold failWith. intros [= _ <-]. by destruct w. }
  rewrite set_store_same.
  unfold mbind at 1, Act_bind at 1.
  destruct (getTopic env topicId w) as [topic w1|e1 w1] eqn:Hget.
  2:{ unfold failWith. intros [= _ <-]. by apply (getTopic_keeps_world _ _ _ _ Hget). }
  apply getTopic_keeps_world in Hget. simpl in Hget. subst w1.
  run_act. unfold commit.
  destruct (forallb _ _); [done|]. by intros [= _ <-].
Qed.

Section claims.
Context (Q : string * Doc → Prop) `{!∀ kv, Decision (Q kv)}.

Lemma NoDup_fst_filter_map_to_list (m : gmap string Doc) :
  NoDup (filter Q (map_to_list m)).*1.
Proof.
  apply (sublist_NoDup (filter Q (map_to_list m)).*1 (map_to_list m).*1).
  - apply NoDup_fst_map_to_list.
  - apply fmap_sublist, sublist_filter.
Qed.

Lemma length_filter_map_to_list (m : gmap string Doc) :
  length (filter Q (map_to_list m)) = size (filter Q m).
Proof.
  rewrite <- length_map_to_list, map_filter_alt.
  symmetry. apply Permutation_length, map_to_list_to_map, NoDup_fst_filter_map_to_list.
Qed.

Lemma elem_of_fst_filter_map_to_list (m : gmap string Doc) j :
  j ∈ (filter Q (map_to_list m)).*1 ↔ ∃ d, m !! j = Some d ∧ Q (j, d).
Proof.
  rewrite list_elem_of_fmap. split.
  - intros ([k d] & -> & Hin). apply list_elem_of_filter in Hin as [HQ Hin].
    apply elem_of_map_to_list in Hin. eauto.
  - intros (d & Hd & HQ). exists (j, d). split; [done|].
    apply list_elem_of_filter. split; [done|]. by apply elem_of_map_to_list.
Qed.

Lemma foldl_alter_filter (F : Doc → Doc) (m : gmap string Doc) :
  foldl (λ m kv, alter F kv.1 m) m (filter Q (map_to_list m)) =
    map_imap (λ j d, Some (if decide (Q (j, d)) then F d else d)) m.
Proof.
  apply map_eq. intros j.
  rewrite lookup_foldl_alter by apply NoDup_fst_filter_map_to_list.
  rewrite map_lookup_imap.
  destruct (decide (j ∈ _)) as [Hin|Hin].
  - apply elem_of_fst_filter_map_to_list in Hin as (d & -> & HQ). simpl.
    by rewrite decide_True.
  - destruct (m !! j) as [d|] eqn:Hd; [|done]. simpl.
    rewrite decide_False; [done|]. intros HQ. apply Hin.
    apply elem_of_fst_filter_map_to_list. eauto.
Qed.
End claims.

Lemma claimed_imap userId stamp (m : gmap string Doc) :
  map_imap (λ _ d, Some (if decide (truthyField (d !! "userId") = false)
                         then mergeFields {[ "userId" := VStr userId; "updatedAt" := stamp ]} d
                         else d)) m =
  claimed userId stamp <$> m.
Proof.
  apply map_eq. intros j. rewrite map_lookup_imap, lookup_fmap.
  destruct (m !! j) as [d|]; [|done]. simpl. unfold claimed.
  by destruct (truthyField (d !! "userId")).
Qed.

Lemma claimWrites_cards userId stamp (m : gmap string Doc) w :
  foldl applyWrite w (claimWrites CardRef userId stamp (map_to_list m)) =
    set_store (set_cards (λ c, foldl (λ c kv,
        alter (mergeFields {[ "userId" := VStr userId; "updatedAt" := stamp ]}) kv.1 c) c
      (filter (λ kv, truthyField (kv.2 !! "userId") = false) (map_to_list m)))) w.
Proof.
  unfold claimWrites.
  by rewrite (foldl_card_writes _
    (λ kv, alter (mergeFields {[ "userId" := VStr userId; "updatedAt" := stamp ]}) kv.1)).
Qed.

Lemma claimWrites_topics userId stamp (m : gmap string Doc) w :
  foldl applyWrite w (claimWrites TopicRef userId stamp (map_to_list m)) =
    set_topics (λ c, foldl (λ c kv,
        alter (mergeFields {[ "userId" := VStr userId; "updatedAt" := stamp ]}) kv.1 c) c
      (filter (λ kv, truthyField (kv.2 !! "userId") = false) (map_to_list m))) w.
Proof.
  unfold claimWrites.
  by rewrite (foldl_topic_writes _
    (λ kv, alter (mergeFields {[ "userId" := VStr userId; "updatedAt" := stamp ]}) kv.1)).
Qed.

Lemma claimWrites_length ref userId stamp (m : gmap string Doc) :
  length (claimWrites ref userId stamp (map_to_list m)) = unowned m.
Proof.
  unfold claimWrites, unowned. rewrite length_fmap.
  apply (length_filter_map_to_list (λ kv, truthyField (kv.2 !! "userId") = false)).
Qed.

Lemma claimWrites_writable_cards userId stamp w :
  forallb (writable w) (claimWrites CardRef userId stamp (map_to_list (cards (store w)))) = true.
Proof.
  apply forallb_forall. intros wr Hin. unfold claimWrites in Hin.
  apply in_map_iff in Hin as ([k d] & <- & Hin). simpl.
  apply bool_decide_eq_true_2.
  apply list_elem_of_In, list_elem_of_filter in Hin as [_ Hin].
  apply elem_of_map_to_list in Hin. eauto.
Qed.

Lemma claimWrites_writable_topics userId stamp w :
  forallb (writable w) (claimWrites TopicRef userId stamp (map_to_list (topics w))) = true.
Proof.
  apply forallb_forall. intros wr Hin. unfold claimWrites in Hin.
  apply in_map_iff in Hin as ([k d] & <- & Hin). simpl.
  apply bool_decide_eq_true_2.
  apply list_elem_of_In, list_elem_of_filter in Hin as [_ Hin].
  apply elem_of_map_to_list in Hin. eauto.
Qed.

(** What [migrateUserData] does for a signed-in caller. *)
Lemma migrateUserData_run env user w :
  currentUser env = Some user →
  migrateUserData env w =
    Ended {| mr_migratedCards := unowned (cards (store w));
             mr_migratedTopics := unowned (topics w);
             mr_userId := uid user |}
          (set_topics (fmap (claimed (uid user) (VTime (serverTime env))))
             (set_store (set_cards (fmap (claimed (uid user) (VTime (dateNow env))))) w)).
Proof.
  intros Hu. unfold migrateUserData. rewrite Hu. run_act.
  set (cardWrites := claimWrites CardRef _ _ _).
  set (topicWrites := claimWrites TopicRef _ _ _).
  assert (length cardWrites = unowned (cards (store w))) as Hcards
    by apply claimWrites_length.
  assert (length topicWrites = unowned (topics w)) as Htopics
    by apply claimWrites_length.
  assert (foldl applyWrite w (cardWrites ++ topicWrites) =
          set_topics (fmap (claimed (uid user) (VTime (serverTime env))))
            (set_store (set_cards (fmap (claimed (uid user) (VTime (dateNow env))))) w))
    as Hfold.
  { rewrite foldl_app. unfold cardWrites, topicWrites.
    rewrite claimWrites_cards, claimWrites_topics.
    destruct w as [[] tp]. unfold set_topics, set_store, set_cards. simpl.
    rewrite !(foldl_alter_filter (λ kv, truthyField (kv.2 !! "userId") = false)).
    by rewrite !claimed_imap. }
  destruct (decide _) as [Hsome|Hnone].
  - unfold commit.
    assert (forallb (writable w) (cardWrites ++ topicWrites) = true) as ->.
    { rewrite forallb_app. unfold cardWrites, topicWrites.
      by rewrite claimWrites_writable_cards, claimWrites_writable_topics. }
    by rewrite Hfold, Hcards, Htopics.
  - rewrite <- Hfold, <- Hcards, <- Htopics. clearbody cardWrites topicWrites.
    destruct cardWrites; [|exfalso; apply Hnone; simpl; lia].
    destruct topicWrites; [|exfalso; apply Hnone; simpl; lia].
    done.
Qed.

(** X19. [migrateUserData] claims exactly the unowned documents: it
    returns for every signed-in caller, every card and topic without a
    truthy [userId] gets the caller's id and a new [updatedAt], every
    other document is left as it is, and the report counts the documents
    claimed. *)
Theorem migrateUserData_claims_unowned env user w :
  currentUser env = Some user →
  ∃ report w',
    migrateUserData env w = Ended report w' ∧
    mr_migratedCards report = unowned (cards (store w)) ∧
    mr_migratedTopics report = unowned (topics w) ∧
    cards (store w') = claimed (uid user) (VTime (dateNow env)) <$> cards (store w) ∧
    topics w' = claimed (uid user) (VTime (serverTime env)) <$> topics w.
Proof.
  intros Hu. do 2 eexists. split; [by apply migrateUserData_run|]. done.
Qed.

Lemma claimed_owned userId stamp d :
  userId ≠ "" → truthyField (claimed userId stamp d !! "userId") = true.
Proof.
  intros Hne. unfold claimed.
  destruct (truthyField (d !! "userId")) eqn:Ht; [done|].
  unfold mergeFields.
  rewrite (lookup_union_Some_l _ _ _ (VStr userId)) by apply lookup_insert_eq.
  simpl. by destruct userId.
Qed.

Lemma unowned_claimed userId stamp (m : gmap string Doc) :
  userId ≠ "" → unowned (claimed userId stamp <$> m) = 0%nat.
Proof.
  intros Hne. unfold unowned. apply map_size_empty_iff, map_empty_filter_2.
  intros j d Hd. simpl. apply lookup_fmap_Some in Hd as (d0 & <- & _).
  by rewrite claimed_owned.
Qed.

Lemma claimed_again userId stamp stamp' (m : gmap string Doc) :
  userId ≠ "" →
  claimed userId stamp' <$> (claimed userId stamp <$> m) = claimed userId stamp <$> m.
Proof.
  intros Hne. apply map_eq. intros j. rewrite !lookup_fmap.
  destruct (m !! j) as [d|]; cbn [fmap option_fmap option_map]; [|reflexivity].
  f_equal. unfold claimed at 1. rewrite claimed_owned by done. reflexivity.
Qed.

(** X20. [migrateUserData] is idempotent: run again after a run that
    returned, by the same caller, it finds nothing to claim, reports zero
    cards and zero topics and leaves every document as it is. *)
Theorem migrateUserData_twice env env' user w report w' :
  currentUser env = Some user →
  currentUser env' = Some user →
  uid user ≠ "" →
  migrateUserData env w = Ended report w' →
  migrateUserData env' w' =
    Ended {| mr_migratedCards := 0; mr_migratedTopics := 0; mr_userId := uid user |} w'.
Proof.
  intros Hu Hu' Hne Hrun.
  rewrite (migrateUserData_run env user w Hu) in Hrun. injection Hrun as _ <-.
  rewrite (migrateUserData_run env' user _ Hu'). simpl.
  rewrite !unowned_claimed by done. f_equal.
  destruct w as [[] tp]. unfold set_topics, set_store, set_cards. simpl.
  by rewrite !claimed_again.
Qed.

(** ** The further properties at concrete inputs *)

Lemma countConsistent_at w t d :
  topics w !! t = Some d →
  d !! "cardCount" = Some (VNum (Z.of_nat (cardsIn w t))) →
  countConsistent w t.
Proof. intros Hd Hcount d' Hd'. rewrite Hd in Hd'. by injection Hd' as <-. Qed.

Section FurtherChecks.
Import Fixtures CatalogExamples.

Example catalog_counts : countConsistent catalog "t1" ∧ countConsistent catalog "t2".
Proof.
  split.
  - apply (countConsistent_at _ _ fruitTopic); vm_compute; reflexivity.
  - apply (countConsistent_at _ _ animalTopic); vm_compute; reflexivity.
Qed.

End FurtherChecks.

Lemma sendChallenge_reaches_recipients_witness :
  ∃ s' sent,
    sendChallenge (Fixtures.envOf Fixtures.alice 5 "ch9") CatalogExamples.appleInput
        emptyStore = Returned "ch9" s' ∧
    ("ch9", sent) ∈ listed (getPendingChallenges (Fixtures.envOf Fixtures.bob 6 "x") s').
Proof.
  destruct (sendChallenge_reaches_recipients (Fixtures.envOf Fixtures.alice 5 "ch9")
      Fixtures.alice CatalogExamples.appleInput
              emptyStore eq_refl)
    as (s' & sent & Hrun & _ & _ & _ & _ & _ & Hlist).
  exists s', sent. split; [exact Hrun|].
  apply (Hlist (Fixtures.envOf Fixtures.bob 6 "x") Fixtures.bob eq_refl). apply
      elem_of_cons. left. reflexivity.
Defined.

Lemma completion_moves_challenge_witness :
  ∃ res s' v,
    completeChallenge (Fixtures.envOf Fixtures.bob 1000 "rec1") "ch1" "apple"
        Fixtures.challengeStore =
      Returned res s' ∧
    v ∈ listed (getCompletedChallenges (Fixtures.envOf Fixtures.bob 1001 "x") s') ∧ cv_id
        v = "ch1".
Proof.
  destruct (completion_moves_challenge (Fixtures.envOf Fixtures.bob 1000 "rec1")
      Fixtures.bob "ch1" "apple"
              Fixtures.challengeStore Fixtures.appleChallenge eq_refl eq_refl)
    as (res & s' & Hrun & _ & Hdone & _).
  { exists (Fixtures.pendingEntry "bob"). split; [apply elem_of_cons; left;
      reflexivity|reflexivity]. }
  destruct (Hdone (Fixtures.envOf Fixtures.bob 1001 "x") Fixtures.bob eq_refl eq_refl) as
      (v & Hv & Hid & _).
  exists res, s', v. split; [exact Hrun|]. split; [exact Hv|exact Hid].
Defined.

Lemma rejection_removes_challenge_witness :
  ∃ s',
    rejectChallenge (Fixtures.envOf Fixtures.bob 1000 "x") "ch1" Fixtures.challengeStore =
        Returned tt s' ∧
    ∀ data, ("ch1", data) ∉ listed (getPendingChallenges (Fixtures.envOf Fixtures.bob 1001
        "x") s').
Proof.
  destruct (rejection_removes_challenge (Fixtures.envOf Fixtures.bob 1000 "x")
      Fixtures.bob "ch1"
              Fixtures.challengeStore Fixtures.appleChallenge eq_refl eq_refl)
    as (s' & Hrun & Hgone & _).
  exists s'. split; [exact Hrun|].
  intros data. apply (Hgone (Fixtures.envOf Fixtures.bob 1001 "x") Fixtures.bob data
      eq_refl eq_refl).
Defined.


Lemma materialized_card_is_listed_witness :
  ∃ id s' card,
    addSharedCardFromChallenge (Fixtures.envOf Fixtures.alice 5 "sc9")
        CatalogExamples.appleRequest emptyStore =
      Returned id s' ∧
    card ∈ listed (getSharedCardsForRecipient (Fixtures.envOf Fixtures.bob 6 "x") s') ∧
    card !! "vocabulary" = Some (VStr "apple").
Proof.
  destruct (materialized_card_is_listed (Fixtures.envOf Fixtures.alice 5 "sc9")
      (Fixtures.envOf Fixtures.bob 6 "x") Fixtures.bob
              CatalogExamples.appleRequest emptyStore eq_refl eq_refl)
    as (id & s' & card & Hrun & Hin & _ & Hvoc & _).
  { intros id d Hd. vm_compute in Hd. discriminate Hd. }
  exists id, s', card. split; [exact Hrun|]. split; [exact Hin|exact Hvoc].
Defined.

Lemma createTopic_then_getTopic_witness :
  ∃ w' topic,
    createTopic (Fixtures.envOf Fixtures.alice 7 "t9") {| ti_name := "Verbs";
        ti_description := "" |}
        CatalogExamples.catalog = Ended "t9" w' ∧
    getTopic (Fixtures.envOf Fixtures.alice 8 "x") "t9" w' = Ended topic w'.
Proof.
  destruct (createTopic_then_getTopic (Fixtures.envOf Fixtures.alice 7 "t9") Fixtures.alice
              {| ti_name := "Verbs"; ti_description := "" |} CatalogExamples.catalog
                  eq_refl)
    as (w' & Hrun & _ & Hown & _).
  destruct (Hown (Fixtures.envOf Fixtures.alice 8 "x") Fixtures.alice eq_refl eq_refl) as
      (topic & Hget & _).
  exists w', topic. split; [exact Hrun|exact Hget].
Defined.

Lemma updateTopic_only_by_owner_witness :
  (∃ w', updateTopic (Fixtures.envOf Fixtures.alice 7 "x") "t1" {[ "name" := VStr "Fruits"
      ]} CatalogExamples.catalog =
           Ended tt w') ∧
  (∃ f, updateTopic (Fixtures.envOf Fixtures.bob 7 "x") "t1" {[ "name" := VStr "Fruits" ]}
      CatalogExamples.catalog =
          Failed f CatalogExamples.catalog).
Proof.
  assert (topics CatalogExamples.catalog !! "t1" = Some CatalogExamples.fruitTopic) as Ht
      by reflexivity.
  split.
  - pose proof (updateTopic_only_by_owner (Fixtures.envOf Fixtures.alice 7 "x")
      Fixtures.alice "t1"
                  {[ "name" := VStr "Fruits" ]} CatalogExamples.catalog eq_refl) as H.
    rewrite Ht in H.
    destruct (decide (CatalogExamples.fruitTopic !! "userId" = Some (VStr (uid
        Fixtures.alice)))) as [_|Hno].
    + destruct H as (w' & d' & Hrun & _). exists w'. exact Hrun.
    + exfalso. apply Hno. reflexivity.
  - pose proof (updateTopic_only_by_owner (Fixtures.envOf Fixtures.bob 7 "x") Fixtures.bob
      "t1"
                  {[ "name" := VStr "Fruits" ]} CatalogExamples.catalog eq_refl) as H.
    rewrite Ht in H.
    destruct (decide (CatalogExamples.fruitTopic !! "userId" = Some (VStr (uid
        Fixtures.bob)))) as [Hyes|_].
    + vm_compute in Hyes. discriminate Hyes.
    + exact H.
Defined.

Lemma addCardWithTopic_all_or_nothing_witness :
  (∃ w', addCardWithTopic (Fixtures.envOf Fixtures.alice 7 "c2") "pear" "a fruit" "" ""
      (Some "t1")
           CatalogExamples.catalog = Ended "c2" w') ∧
  (∃ f, addCardWithTopic (Fixtures.envOf Fixtures.bob 7 "c2") "pear" "a fruit" "" "" (Some
      "t1")
          CatalogExamples.catalog = Failed f CatalogExamples.catalog).
Proof.
  assert (topics CatalogExamples.catalog !! "t1" = Some CatalogExamples.fruitTopic) as Ht
      by reflexivity.
  split.
  - pose proof (addCardWithTopic_all_or_nothing (Fixtures.envOf Fixtures.alice 7 "c2")
      Fixtures.alice
                  "pear" "a fruit" "" "" (Some "t1") "t1" CatalogExamples.catalog eq_refl
                      eq_refl) as H.
    rewrite Ht in H.
    destruct (decide (CatalogExamples.fruitTopic !! "userId" = Some (VStr (uid
        Fixtures.alice)))) as [_|Hno].
    + destruct H as (w' & card & topic' & Hrun & _). exists w'. exact Hrun.
    + exfalso. apply Hno. reflexivity.
  - pose proof (addCardWithTopic_all_or_nothing (Fixtures.envOf Fixtures.bob 7 "c2")
      Fixtures.bob
                  "pear" "a fruit" "" "" (Some "t1") "t1" CatalogExamples.catalog eq_refl
                      eq_refl) as H.
    rewrite Ht in H.
    destruct (decide (CatalogExamples.fruitTopic !! "userId" = Some (VStr (uid
        Fixtures.bob)))) as [Hyes|_].
    + vm_compute in Hyes. discriminate Hyes.
    + exact H.
Defined.

Lemma addCardWithTopic_keeps_counts_witness :
  countConsistent
    (finalWorld (addCardWithTopic (Fixtures.envOf Fixtures.alice 7 "c2") "pear" "a fruit"
        "" ""
                   (Some "t1") CatalogExamples.catalog)) "t1".
Proof.
  apply (addCardWithTopic_keeps_counts (Fixtures.envOf Fixtures.alice 7 "c2") Fixtures.alice
           "pear" "a fruit" "" "" (Some "t1") CatalogExamples.catalog _ "c2").
  - reflexivity.
  - reflexivity.
  - vm_compute. reflexivity.
  - vm_compute. reflexivity.
  - exact (proj1 catalog_counts).
Defined.


Lemma deleteCard_removes_own_card_witness :
  ∃ w', deleteCard (Fixtures.envOf Fixtures.alice 9 "x") "c1" CatalogExamples.catalog =
      Ended tt w' ∧
        cards (store w') = delete "c1" (cards (store CatalogExamples.catalog)).
Proof.
  destruct (deleteCard_removes_own_card (Fixtures.envOf Fixtures.alice 9 "x")
      Fixtures.alice "c1" CatalogExamples.catalog CatalogExamples.appleDoc
              eq_refl eq_refl eq_refl eq_refl)
    as (w' & Hrun & Hcards & _).
  { split; [reflexivity|]. right. right. eexists. reflexivity. }
  exists w'. split; [exact Hrun|exact Hcards].
Defined.

Lemma deleteCard_spares_foreign_card_witness :
  ∃ w', deleteCard (Fixtures.envOf Fixtures.bob 9 "x") "c1" CatalogExamples.catalog =
      Ended tt w' ∧
        store w' = store CatalogExamples.catalog.
Proof.
  destruct (deleteCard_spares_foreign_card (Fixtures.envOf Fixtures.bob 9 "x")
      Fixtures.bob "c1" CatalogExamples.catalog CatalogExamples.appleDoc
              eq_refl eq_refl eq_refl)
    as (w' & Hrun & Hstore & _).
  { intros Hown. vm_compute in Hown. discriminate Hown. }
  { split; [reflexivity|]. right. right. eexists. reflexivity. }
  exists w'. split; [exact Hrun|exact Hstore].
Defined.

Lemma deleteCard_fails_only_on_malformed_ids_witness :
  ∃ d, cardDataOf "alice" "c9" CatalogExamples.oddCatalog = Some d ∧
       (malformedId (d !! "sharedCardId") ∨ malformedId (d !! "topicId")).
Proof.
  apply (deleteCard_fails_only_on_malformed_ids (Fixtures.envOf Fixtures.alice 9 "x")
      Fixtures.alice "c9"
           CatalogExamples.oddCatalog (StoreFailure "invalid-argument")
               CatalogExamples.oddCatalog).
  - reflexivity.
  - vm_compute. reflexivity.
Defined.

Lemma deleteTopic_cascades_witness :
  ∃ w', deleteTopic (Fixtures.envOf Fixtures.alice 9 "x") "t1" CatalogExamples.catalog =
      Ended tt w' ∧
        topics w' = delete "t1" (topics CatalogExamples.catalog).
Proof.
  destruct (deleteTopic_cascades (Fixtures.envOf Fixtures.alice 9 "x") Fixtures.alice "t1"
      CatalogExamples.catalog CatalogExamples.fruitTopic
              eq_refl eq_refl eq_refl)
    as (w' & Hrun & Htopics & _).
  exists w'. split; [exact Hrun|exact Htopics].
Defined.

Lemma deleteTopic_refused_changes_nothing_witness :
  finalWorld (deleteTopic (Fixtures.envOf Fixtures.bob 9 "x") "t1"
      CatalogExamples.catalog) = CatalogExamples.catalog.
Proof.
  eapply (deleteTopic_refused_changes_nothing (Fixtures.envOf Fixtures.bob 9 "x") "t1"
      CatalogExamples.catalog).
  vm_compute. reflexivity.
Defined.

Lemma migrateUserData_claims_unowned_witness :
  ∃ report w',
    migrateUserData (Fixtures.envOf Fixtures.alice 9 "x") CatalogExamples.legacyCatalog =
        Ended report w' ∧
    mr_migratedCards report = 1%nat ∧ mr_migratedTopics report = 0%nat.
Proof.
  destruct (migrateUserData_claims_unowned (Fixtures.envOf Fixtures.alice 9 "x")
      Fixtures.alice CatalogExamples.legacyCatalog
              eq_refl)
    as (report & w' & Hrun & Hcards & Htopics & _).
  exists report, w'. split; [exact Hrun|].
  rewrite Hcards, Htopics. split; vm_compute; reflexivity.
Defined.

Lemma migrateUserData_twice_witness :
  migrateUserData (Fixtures.envOf Fixtures.alice 10 "x")
      (finalWorld (migrateUserData (Fixtures.envOf Fixtures.alice 9 "x")
          CatalogExamples.legacyCatalog)) =
    Ended {| mr_migratedCards := 0; mr_migratedTopics := 0; mr_userId := "alice" |}
          (finalWorld (migrateUserData (Fixtures.envOf Fixtures.alice 9 "x")
              CatalogExamples.legacyCatalog)).
Proof.
  eapply (migrateUserData_twice (Fixtures.envOf Fixtures.alice 9 "x") (Fixtures.envOf
      Fixtures.alice 10 "x") Fixtures.alice
            CatalogExamples.legacyCatalog).
  - reflexivity.
  - reflexivity.
  - discriminate.
  - vm_compute. reflexivity.
Defined.
